(** * chatapi-single: the event-stream decoder, the deadline wrapper and the
      message exchange of [src/chatgpt/index.js], embedded in Rocq.

    Text is a list of code units ([list ascii]; every code unit the decoder
    tests for is below 256), positions and lengths are [Z] exactly as the
    JavaScript source computes them (they do become negative there), and a
    callback that is invoked synchronously is modelled by the list of the
    values it receives, in order. *)

From Stdlib Require Import ZArith QArith List Ascii String Bool Lia DecimalString.
From stdpp Require Import base gmap strings.
Import ListNotations.
Local Open Scope Z_scope.

(** ** JavaScript string primitives used by the source *)

Definition str (s : string) : list ascii := list_ascii_of_string s.

Definition LF : ascii := "010"%char.
Definition CR : ascii := "013"%char.
Definition NUL : ascii := "000"%char.
Definition COLON : ascii := ":"%char.
Definition SPACE : ascii := " "%char.

(** [s[i]]: [None] stands for [undefined]. *)
Definition js_index {A} (s : list A) (i : Z) : option A :=
  if i <? 0 then None else nth_error s (Z.to_nat i).

(** [s.slice(start, end)] with the clamping of negative and large
    arguments that ECMAScript prescribes. *)
Definition js_slice {A} (s : list A) (start end_ : Z) : list A :=
  let len := Z.of_nat (length s) in
  let from := if start <? 0 then Z.max (len + start) 0 else Z.min start len in
  let to := if end_ <? 0 then Z.max (len + end_) 0 else Z.min end_ len in
  firstn (Z.to_nat (to - from)) (skipn (Z.to_nat from) s).

(** [s.slice(start)]. *)
Definition js_slice_from {A} (s : list A) (start : Z) : list A :=
  js_slice s start (Z.of_nat (length s)).

Definition text_eqb (a b : list ascii) : bool :=
  bool_decide (a = b).

(** [value.includes(c)] for a one-character needle. *)
Definition includes (s : list ascii) (c : ascii) : bool :=
  existsb (Ascii.eqb c) s.

(** [parseInt(value, 10)]: leading white space is skipped, one sign is
    read, then the longest run of decimal digits; [None] stands for [NaN]
    (no digit).  The result is the mathematical integer, which is the
    JavaScript number whenever it is below 2^53 in magnitude; beyond that
    [parseInt] rounds to a double, and it keeps the sign of a zero. *)
Definition isStrWhiteSpace (c : ascii) : bool :=
  let n := nat_of_ascii c in
  existsb (Nat.eqb n) [9; 10; 11; 12; 13; 32; 160]%nat.

Fixpoint trimStart (s : list ascii) : list ascii :=
  match s with
  | c :: s' => if isStrWhiteSpace c then trimStart s' else s
  | [] => []
  end.

Definition digitValue (c : ascii) : option Z :=
  let n := Z.of_nat (nat_of_ascii c) in
  if (48 <=? n) && (n <=? 57) then Some (n - 48) else None.

Fixpoint readDigits (s : list ascii) (acc : option Z) : option Z :=
  match s with
  | c :: s' =>
      match digitValue c with
      | Some d => readDigits s' (Some (10 * default 0 acc + d))
      | None => acc
      end
  | [] => acc
  end.

Definition parseInt10 (value : list ascii) : option Z :=
  match trimStart value with
  | c :: s' =>
      if Ascii.eqb c "-" then Z.opp <$> readDigits s' None
      else if Ascii.eqb c "+" then readDigits s' None
      else readDigits (c :: s') None
  | [] => None
  end.

(** ** The event-stream decoder: [createParser2] *)

Module Decoder.

(** What [onParse] receives. *)
Inductive ParsedEvent :=
| Event (id : option (list ascii)) (event : option (list ascii)) (data : list ascii)
| ReconnectInterval (value : Z).

(** The variables closed over by [feed], [reset] and
    [parseEventStreamLine]. *)
Record Parser := mkParser {
  isFirstChunk : bool;
  buffer : list ascii;
  startingPosition : Z;
  startingFieldLength : Z;
  eventId : option (list ascii);
  eventName : option (list ascii);
  data : list ascii }.

Definition BOM : list nat := [239; 187; 191]%nat.

Definition reset : Parser :=
  {| isFirstChunk := true; buffer := []; startingPosition := 0;
     startingFieldLength := -1; eventId := None; eventName := None;
     data := [] |}.

(** [createParser2(onParse)] calls [reset()] and returns [{feed, reset}]. *)
Definition createParser2 : Parser := reset.

(** [BOM.every((charCode, index) => buffer.charCodeAt(index) === charCode)] *)
Definition hasBom (buffer : list ascii) : bool :=
  forallb (fun '(index, charCode) =>
             match nth_error buffer index with
             | Some c => Nat.eqb (nat_of_ascii c) charCode
             | None => false
             end)
          (combine (seq 0 (length BOM)) BOM).

(** [eventName || void 0]: the empty name is reported as absent. *)
Definition orUndefined (name : option (list ascii)) : option (list ascii) :=
  match name with
  | Some [] => None
  | other => other
  end.

(** The blank-line branch of [parseEventStreamLine]. *)
Definition dispatchEvent (p : Parser) : Parser * list ParsedEvent :=
  if 0 <? Z.of_nat (length (data p)) then
    (mkParser (isFirstChunk p) (buffer p) (startingPosition p)
       (startingFieldLength p) None None [],
     [Event (eventId p) (orUndefined (eventName p)) (js_slice (data p) 0 (-1))])
  else
    (mkParser (isFirstChunk p) (buffer p) (startingPosition p)
       (startingFieldLength p) (eventId p) None (data p), []).

(** The chain of tests on [field] that ends [parseEventStreamLine]. *)
Definition applyField (p : Parser) (field value : list ascii)
    : Parser * list ParsedEvent :=
  if text_eqb field (str "data") then
    (mkParser (isFirstChunk p) (buffer p) (startingPosition p)
       (startingFieldLength p) (eventId p) (eventName p)
       (data p ++ value ++ [LF]), [])
  else if text_eqb field (str "event") then
    (mkParser (isFirstChunk p) (buffer p) (startingPosition p)
       (startingFieldLength p) (eventId p) (Some value) (data p), [])
  else if text_eqb field (str "id") && negb (includes value NUL) then
    (mkParser (isFirstChunk p) (buffer p) (startingPosition p)
       (startingFieldLength p) (Some value) (eventName p) (data p), [])
  else if text_eqb field (str "retry") then
    match parseInt10 value with
    | Some retry => (p, [ReconnectInterval retry])
    | None => (p, [])
    end
  else (p, []).

Definition parseEventStreamLine (p : Parser) (lineBuffer : list ascii)
    (index fieldLength lineLength : Z) : Parser * list ParsedEvent :=
  if lineLength =? 0 then dispatchEvent p
  else
    let noValue := fieldLength <? 0 in
    let field :=
      js_slice lineBuffer index (index + (if noValue then lineLength else fieldLength)) in
    let step :=
      if noValue then lineLength
      else match js_index lineBuffer (index + fieldLength + 1) with
           | Some c => if Ascii.eqb c SPACE then fieldLength + 2 else fieldLength + 1
           | None => fieldLength + 1
           end in
    let position := index + step in
    let valueLength := lineLength - step in
    let value := js_slice lineBuffer position (position + valueLength) in
    applyField p field value.

(** The inner [for] loop of [feed]: [rest] is the buffer from [index] on.
    The loop runs while [lineLength < 0 && index < length]. *)
Fixpoint scanLine (rest : list ascii) (index position lineLength fieldLength : Z)
    (discardTrailingNewline : bool) : Z * Z * bool :=
  if lineLength <? 0 then
    match rest with
    | [] => (lineLength, fieldLength, discardTrailingNewline)
    | character :: rest' =>
        if Ascii.eqb character COLON && (fieldLength <? 0) then
          scanLine rest' (index + 1) position lineLength (index - position)
            discardTrailingNewline
        else if Ascii.eqb character CR then
          scanLine rest' (index + 1) position (index - position) fieldLength true
        else if Ascii.eqb character LF then
          scanLine rest' (index + 1) position (index - position) fieldLength
            discardTrailingNewline
        else
          scanLine rest' (index + 1) position lineLength fieldLength
            discardTrailingNewline
    end
  else (lineLength, fieldLength, discardTrailingNewline).

Definition setScanStart (p : Parser) (sp sfl : Z) : Parser :=
  mkParser (isFirstChunk p) (buffer p) sp sfl (eventId p) (eventName p) (data p).

(** The [while (position < length)] loop of [feed].  Every turn that does
    not [break] moves [position] forward by at least one, so [fuel] bounds
    the number of turns; [None] is returned only when it runs out. *)
Fixpoint feedLoop (fuel : nat) (buf : list ascii) (p : Parser) (position : Z)
    (discardTrailingNewline : bool) : option (Parser * Z * list ParsedEvent) :=
  if position <? Z.of_nat (length buf) then
    match fuel with
    | O => None
    | S fuel' =>
        let position1 :=
          if discardTrailingNewline then
            match js_index buf position with
            | Some c => if Ascii.eqb c LF then position + 1 else position
            | None => position
            end
          else position in
        let '(lineLength, fieldLength, discard') :=
          scanLine (skipn (Z.to_nat (startingPosition p)) buf)
            (startingPosition p) position1 (-1) (startingFieldLength p) false in
        if lineLength <? 0 then
          Some (setScanStart p (Z.of_nat (length buf) - position1) fieldLength,
                position1, [])
        else
          let '(p', out) :=
            parseEventStreamLine (setScanStart p 0 (-1)) buf position1
              fieldLength lineLength in
          match feedLoop fuel' buf p' (position1 + lineLength + 1) discard' with
          | Some (p'', position', out') => Some (p'', position', out ++ out')
          | None => None
          end
    end
  else Some (p, position, []).

Definition setBuffer (p : Parser) (b : list ascii) : Parser :=
  mkParser false b (startingPosition p) (startingFieldLength p)
    (eventId p) (eventName p) (data p).

(** The buffer [feed] scans: the pending tail, the chunk and, on the first
    chunk only, the byte-order mark removed. *)
Definition feedBuffer (p : Parser) (chunk : list ascii) : list ascii :=
  let buffer1 := match buffer p with [] => chunk | _ => buffer p ++ chunk end in
  if isFirstChunk p && hasBom buffer1
  then js_slice_from buffer1 (Z.of_nat (length BOM)) else buffer1.

Definition feedFuel (fuel : nat) (p : Parser) (chunk : list ascii)
    : option (Parser * list ParsedEvent) :=
  let buffer2 := feedBuffer p chunk in
  let len := Z.of_nat (length buffer2) in
  match feedLoop fuel buffer2 (setBuffer p buffer2) 0 false with
  | Some (p', position, out) =>
      let buffer3 :=
        if position =? len then []
        else if 0 <? position then js_slice_from buffer2 position
        else buffer2 in
      Some (setBuffer p' buffer3, out)
  | None => None
  end.

(** [feed(chunk)]: the loop is given one turn per character of the buffer
    and one more, which it never exhausts ([feedFuel_total] below), so the
    default is never taken. *)
Definition feed (p : Parser) (chunk : list ascii) : Parser * list ParsedEvent :=
  default (p, []) (feedFuel (S (length (feedBuffer p chunk))) p chunk).

(** Successive calls of [feed] on one parser; the events of all calls in
    the order [onParse] received them. *)
Fixpoint feedAll (p : Parser) (chunks : list (list ascii))
    : Parser * list ParsedEvent :=
  match chunks with
  | [] => (p, [])
  | chunk :: chunks' =>
      let '(p', out) := feed p chunk in
      let '(p'', out') := feedAll p' chunks' in
      (p'', out ++ out')
  end.

(** The events a fresh decoder emits for a sequence of chunks. *)
Definition decode (chunks : list (list ascii)) : list ParsedEvent :=
  snd (feedAll createParser2 chunks).

(** *** A line-by-line reading of the text, used to state what [feed]
    computes when no carriage return occurs

    [colonIndex line] is the offset of the first colon of a line,
    [splitField] the field name and the value with one leading space
    removed, [dispatchLine] what a complete line does to the pending
    event, and [runText] reads a text character by character, dispatching
    at every line feed and keeping the unfinished line in [pending]. *)
Fixpoint colonIndex (line : list ascii) : option Z :=
  match line with
  | [] => None
  | c :: l => if Ascii.eqb c COLON then Some 0 else Z.succ <$> colonIndex l
  end.

Definition splitField (line : list ascii) : list ascii * list ascii :=
  match colonIndex line with
  | None => (line, [])
  | Some j =>
      (firstn (Z.to_nat j) line,
       match skipn (Z.to_nat (j + 1)) line with
       | c :: v => if Ascii.eqb c SPACE then v else c :: v
       | [] => []
       end)
  end.

Definition dispatchLine (p : Parser) (line : list ascii)
    : Parser * list ParsedEvent :=
  match line with
  | [] => dispatchEvent p
  | _ => applyField p (fst (splitField line)) (snd (splitField line))
  end.

Fixpoint runText (p : Parser) (pending text : list ascii)
    : Parser * list ascii * list ParsedEvent :=
  match text with
  | [] => (p, pending, [])
  | c :: text' =>
      if Ascii.eqb c LF then
        let '(p', out) := dispatchLine p pending in
        let '(r, out') := runText p' [] text' in
        (r, out ++ out')
      else runText p (pending ++ [c]) text'
  end.

(** A parser with its scanning variables replaced and its pending event
    kept. *)
Definition withFrame (p : Parser) (first : bool) (buf : list ascii) (sp sfl : Z)
    : Parser :=
  mkParser first buf sp sfl (eventId p) (eventName p) (data p).

Definition noCR (text : list ascii) : Prop := Forall (fun c => c <> CR) text.
Definition noLF (text : list ascii) : Prop := Forall (fun c => c <> LF) text.

(** [fieldLength] agrees with the colon of the part of the line scanned
    so far: equal to its offset, or negative when there is none. *)
Definition fieldLengthOk (fieldLength : Z) (scanned : list ascii) : Prop :=
  match colonIndex scanned with
  | Some j => fieldLength = j
  | None => fieldLength < 0
  end.

(** The invariant of the scanning variables between two calls of [feed],
    for a stream without carriage returns: the buffer is the unfinished
    line, scanned to its end. *)
Definition scanned (p : Parser) : Prop :=
  noLF (buffer p) /\
  noCR (buffer p) /\
  startingPosition p = Z.of_nat (length (buffer p)) /\
  fieldLengthOk (startingFieldLength p) (buffer p) /\
  (isFirstChunk p = true -> buffer p = []).

(** The byte-order mark removed, as [feed] does on a first chunk. *)
Definition stripBom (text : list ascii) : list ascii :=
  if hasBom text then skipn (length BOM) text else text.

(** The text a parser reads from a sequence of chunks: only the first
    chunk of a stream is looked at for a byte-order mark. *)
Definition streamText (first : bool) (chunks : list (list ascii)) : list ascii :=
  match chunks with
  | [] => []
  | chunk :: chunks' => (if first then stripBom chunk else chunk) ++ concat chunks'
  end.

(** No blank line in a text whose lines end with a line feed: no two line
    feeds in a row. *)
Fixpoint noDoubleLF (text : list ascii) : Prop :=
  match text with
  | c1 :: (c2 :: _) as rest => ~ (c1 = LF /\ c2 = LF) /\ noDoubleLF rest
  | _ => True
  end.

(** A reconnect-interval notification, not an event. *)
Definition isNotice (ev : ParsedEvent) : Prop :=
  match ev with
  | ReconnectInterval _ => True
  | Event _ _ _ => False
  end.

End Decoder.


(** ** JavaScript values, truthiness and errors *)

Module Js.

Inductive Number := NaN | PosInfinity | NegInfinity | Finite (q : Q).

#[local] Set Warnings "-register-all".
Inductive Value :=
| Undefined
| Null
| Bool (b : bool)
| Num (n : Number)
| Str (s : list ascii)
| Arr (items : list Value)
| Obj (fields : list (string * Value)).
#[local] Set Warnings "register-all".

Definition Int (z : Z) : Value := Num (Finite (inject_Z z)).

(** [ToBoolean]. *)
Definition truthy (v : Value) : bool :=
  match v with
  | Undefined | Null => false
  | Bool b => b
  | Num NaN => false
  | Num (Finite q) => negb (Qnum q =? 0)
  | Num _ => true
  | Str s => match s with [] => false | _ => true end
  | Arr _ | Obj _ => true
  end.

(** [a || b]. *)
Definition orElse (a b : Value) : Value := if truthy a then a else b.

Fixpoint lookupField (name : string) (fields : list (string * Value)) : Value :=
  match fields with
  | [] => Undefined
  | (k, v) :: rest => if String.eqb k name then v else lookupField name rest
  end.

(** [v.name] for a [v] that is neither [null] nor [undefined], and a
    property name that no string, array, number or boolean has of its own
    (all the names the source reads are such). *)
Definition getProp (v : Value) (name : string) : Value :=
  match v with
  | Obj fields => lookupField name fields
  | _ => Undefined
  end.

Definition nullish (v : Value) : bool :=
  match v with Undefined | Null => true | _ => false end.

(** [v == null ? void 0 : v.name], the compiled form of [v?.name]. *)
Definition optProp (v : Value) (name : string) : Value :=
  if nullish v then Undefined else getProp v name.

(** [v == null ? void 0 : v[0]]. *)
Definition optFirst (v : Value) : Value :=
  match v with
  | Arr (x :: _) => x
  | Str (c :: _) => Str [c]
  | Obj fields => lookupField "0" fields
  | _ => Undefined
  end.

(** [v === n] for a number literal [n]. *)
Definition isNumber (v : Value) (z : Z) : bool :=
  match v with
  | Num (Finite q) => Qeq_bool q (inject_Z z)
  | _ => false
  end.

(** [Math.sign(n) === 1]. *)
Definition signIsOne (n : Number) : bool :=
  match n with
  | PosInfinity => true
  | Finite q => 0 <? Qnum q
  | _ => false
  end.

(** An [Error] object with the properties the source reads. *)
Record Error := mkError {
  errName : list ascii;
  errMessage : list ascii;
  errStatusCode : Value;
  errStatus : Value;
  errStatusText : Value;
  errResponse : Value }.

Definition plainError (name message : list ascii) : Error :=
  mkError name message Undefined Undefined Undefined Undefined.

(** [Error.prototype.toString]. *)
Definition errToString (e : Error) : list ascii :=
  match errName e, errMessage e with
  | [], m => m
  | n, [] => n
  | n, m => n ++ str ": " ++ m
  end.

(** [String.prototype.toLowerCase] on code units below 256. *)
Definition lowerChar (c : ascii) : ascii :=
  let n := nat_of_ascii c in
  if ((65 <=? n) && (n <=? 90))%nat then ascii_of_nat (n + 32)
  else if ((192 <=? n) && (n <=? 222) && negb (n =? 215))%nat then ascii_of_nat (n + 32)
  else c.

Definition toLowerCase (s : list ascii) : list ascii := map lowerChar s.

(** What a [throw] statement or the rejection of a promise carries: an
    [Error] object, or any other value. *)
Inductive Raised :=
| RaisedError (e : Error)
| RaisedValue (v : Value).

Coercion RaisedError : Error >-> Raised.

(** The state of a promise. *)
Inductive Settled (A : Type) :=
| Pending
| Resolved (v : A)
| Rejected (e : Raised).
Arguments Pending {A}.
Arguments Resolved {A} v.
Arguments Rejected {A} e.

(** [resolve] and [reject] act on a pending promise only. *)
Definition settle {A} (now : Settled A) (p : Settled A) : Settled A :=
  match p with
  | Pending => now
  | _ => p
  end.

Definition isPending {A} (p : Settled A) : bool :=
  match p with Pending => true | _ => false end.

End Js.

(** ** The deadline wrapper: [pTimeout2]

    The wrapper is a promise with a timer and a subscription to the
    operation's promise.  What happens to it after the call is driven by
    three kinds of events, in the order in which the event loop delivers
    them: the operation settles, the timer fires (and the cancellation
    hook, when it is called, returns or throws), the signal aborts. *)

Module PTimeout.
Import Js.

Section Wrapper.

(** [`${v}`]: the built-in conversion of a value to a string. *)
Variable ToString : Value -> list ascii.

(** The type of the operation's result. *)
Context {A : Type}.

(** [options.message]: a string, an [Error], or anything else. *)
Inductive MessageOption :=
| NoMessage
| MessageText (s : list ascii)
| MessageError (e : Error).

(** [options.signal]; the [reason] [None] is [undefined]. *)
Record AbortSignal := mkSignal {
  aborted : bool;
  reason : option Raised }.

(** [fallback] is given by what calling it does: return a value (one that
    is not a promise) or throw. *)
Record Options := mkOptions {
  milliseconds : Value;
  fallback : option (A + Raised);
  message : MessageOption;
  signal : option AbortSignal }.

Record Wrapper := mkWrapper {
  outcome : Settled A;      (* the state of [cancelablePromise] *)
  timer : bool;             (* a timer is armed and has neither fired nor been cleared *)
  following : bool;         (* the wrapper awaits the operation *)
  listening : bool;         (* an [abort] listener is registered *)
  cancelCalls : nat }.      (* calls of [promise.cancel()] so far *)

(** [getDOMException], in a page, where [DOMException] is defined. *)
Definition getDOMException (errorMessage : list ascii) : Error :=
  plainError (str "Error") errorMessage.

(** [new DOMException(v)] converts a message that is not a string. *)
Definition getAbortedReason (reason : option Raised) : Error :=
  match reason with
  | None | Some (RaisedValue Undefined) =>
      getDOMException (str "This operation was aborted.")
  | Some (RaisedError e) => e
  | Some (RaisedValue v) => getDOMException (ToString v)
  end.

Definition invalidMilliseconds (ms : Value) : Error :=
  plainError (str "TypeError")
    (str "Expected `milliseconds` to be a positive number, got `" ++ ToString ms ++ str "`").

Definition timeoutError (options : Options) : Error :=
  match message options with
  | MessageError e => e
  | MessageText s => plainError (str "TimeoutError") s
  | NoMessage =>
      plainError (str "TimeoutError")
        (str "Promise timed out after " ++ ToString (milliseconds options)
           ++ str " milliseconds")
  end.

(** [typeof milliseconds === "number" && Math.sign(milliseconds) === 1] *)
Definition positiveNumber (ms : Value) : bool :=
  match ms with
  | Num n => signIsOne n
  | _ => false
  end.

(** The executor of [cancelablePromise], run by the call itself. *)
Definition pTimeout2 (options : Options) : Wrapper :=
  if negb (positiveNumber (milliseconds options)) then
    mkWrapper (Rejected (invalidMilliseconds (milliseconds options))) false false false 0
  else
    match milliseconds options with
    | Num PosInfinity => mkWrapper Pending false true false 0
    | _ =>
        match signal options with
        | Some sg =>
            mkWrapper
              (if aborted sg then Rejected (getAbortedReason (reason sg)) else Pending)
              true true true 0
        | None => mkWrapper Pending true true false 0
        end
    end.

Inductive Tick :=
| OperationSettles (r : A + Raised)      (* the operation's promise settles *)
| TimerFires                             (* the time given to [setTimeout] has elapsed *)
| TimerFiresHookThrows                   (* the same, and [promise.cancel()], if called, throws *)
| SignalAborts (reason : option Raised). (* the [abort] event of the signal *)

(** How the operation settled, as the state of a promise. *)
Definition settledAs (r : A + Raised) : Settled A :=
  match r with
  | inl v => Resolved v
  | inr e => Rejected e
  end.

(** [cancelable]: [typeof promise.cancel === "function"]. *)
Definition tick (cancelable : bool) (options : Options) (w : Wrapper) (t : Tick)
    : Wrapper :=
  match t with
  | OperationSettles r =>
      if following w then
        mkWrapper (settle (settledAs r) (outcome w))
          false false (listening w) (cancelCalls w)
      else w
  | TimerFires =>
      if timer w then
        match fallback options with
        | Some (inl v) =>
            mkWrapper (settle (Resolved v) (outcome w)) false (following w)
              (listening w) (cancelCalls w)
        | Some (inr e) =>
            mkWrapper (settle (Rejected e) (outcome w)) false (following w)
              (listening w) (cancelCalls w)
        | None =>
            mkWrapper (settle (Rejected (timeoutError options)) (outcome w)) false
              (following w) (listening w)
              (if cancelable then S (cancelCalls w) else cancelCalls w)
        end
      else w
  | TimerFiresHookThrows =>
      if timer w then
        match fallback options with
        | Some (inl v) =>
            mkWrapper (settle (Resolved v) (outcome w)) false (following w)
              (listening w) (cancelCalls w)
        | Some (inr e) =>
            mkWrapper (settle (Rejected e) (outcome w)) false (following w)
              (listening w) (cancelCalls w)
        | None =>
            if cancelable then
              (* the exception leaves the timer callback before [reject] *)
              mkWrapper (outcome w) false (following w) (listening w)
                (S (cancelCalls w))
            else
              mkWrapper (settle (Rejected (timeoutError options)) (outcome w)) false
                (following w) (listening w) (cancelCalls w)
        end
      else w
  | SignalAborts r =>
      if listening w then
        mkWrapper (settle (Rejected (getAbortedReason r)) (outcome w)) (timer w)
          (following w) (listening w) (cancelCalls w)
      else w
  end.

(** The wrapper after the call and a sequence of events. *)
Definition run (cancelable : bool) (options : Options) (ticks : list Tick) : Wrapper :=
  fold_left (tick cancelable options) ticks (pTimeout2 options).

End Wrapper.

End PTimeout.

(** ** One exchange inside the page: [browserPostEventStream]

    The function is asynchronous.  What it awaits is given by the
    environment: the outcome of [fetch], and then a timeline of the events
    that the page's event loop delivers, in order: a chunk read from the
    body (already decoded to text), the end or the failure of the body, the
    rejection of a pending call of the progress sink, and the elapse of
    the deadline.  What [fetch] and the sink reject with is any value: an
    [Error] object or not. *)

Module Page.
Import Js Decoder.

(** What the function returns: [{response, conversationId, messageId}] or
    [{error: {message, statusCode, statusText}, conversationId, messageId}]. *)
Inductive Result :=
| Snapshot (response conversationId messageId : Value)
| Failure (message : list ascii) (statusCode statusText : Value)
    (conversationId messageId : Value).

Definition resultIds (r : Result) : Value * Value :=
  match r with
  | Snapshot _ c m => (c, m)
  | Failure _ _ _ c m => (c, m)
  end.

(** The argument of [window.ChatGPTAPIBrowserOnProgress]. *)
Record PartialChatResponse := mkPartial {
  origMessageId : Value;
  partResponse : Value;
  partConversationId : Value;
  partMessageId : Value }.

(** The variables [response], [conversationId] and [messageId]. *)
Record Vars := mkVars {
  response : Value;
  conversationId : Value;
  messageId : Value }.

Inductive FetchOutcome :=
| FetchFails (e : Raised)
| Responds (ok : bool) (status statusText : Value).

Inductive PageEvent :=
| Chunk (text : list ascii)
| ReadDone
| ReadFails (e : Raised)
| ProgressRejects (e : Raised)
| DeadlineElapses.

Inductive Effect :=
| Resolve (r : Result)
| Notify (p : PartialChatResponse).

(** How the function ends for its caller. *)
Inductive Completion :=
| Returns (r : Result)
| Throws (e : Error)
| NeverSettles.

(** How the [try] block ends. *)
Inductive Try :=
| Return (r : Result)
| Throw (e : Raised)
| Suspended.

Definition DONE : list ascii := str "[DONE]".

Section BrowserPostEventStream.

Variable ToString : Value -> list ascii.

(** [JSON.parse]: the parsed value, or the [SyntaxError] it throws. *)
Variable JSON_parse : list ascii -> Value + Error.

(** The synchronous part of [onMessage]; the only [await] in it is the call
    of the progress sink, after which it does nothing but [reject] if that
    call fails. *)
Definition onMessage (hasSink : bool) (orig : Value) (v : Vars) (data : list ascii)
    : Vars * list Effect :=
  if text_eqb data DONE then
    (v, [Resolve (Snapshot (response v) (conversationId v) (messageId v))])
  else
    match JSON_parse data with
    | inr _ => (v, [])
    | inl convoResponseEvent =>
        if negb (truthy convoResponseEvent) then (v, [])
        else
          let conversationId1 :=
            if truthy (getProp convoResponseEvent "conversation_id")
            then getProp convoResponseEvent "conversation_id"
            else conversationId v in
          let message := getProp convoResponseEvent "message" in
          let messageId1 :=
            if truthy (optProp message "id") then getProp message "id"
            else messageId v in
          let partialResponse :=
            optFirst (optProp (optProp message "content") "parts") in
          if truthy partialResponse then
            (mkVars partialResponse conversationId1 messageId1,
             if hasSink
             then [Notify (mkPartial orig partialResponse conversationId1 messageId1)]
             else [])
          else (mkVars (response v) conversationId1 messageId1, [])
    end.

(** The state of one call while it awaits. *)
Record Exchange := mkExchange {
  parser : Parser;
  vars : Vars;
  responseP : Settled Result;
  reading : bool;                         (* the [for await] loop is still running *)
  awaiting : nat;                         (* calls of the sink not yet answered *)
  notified : list PartialChatResponse;    (* what the sink has received *)
  seen : list (list ascii);               (* the payloads given to [onMessage] *)
  deadline : option (PTimeout.Wrapper (A := Result)) }.

Definition applyEffect (x : Exchange) (e : Effect) : Exchange :=
  match e with
  | Resolve r =>
      mkExchange (parser x) (vars x) (settle (Resolved r) (responseP x)) (reading x)
        (awaiting x) (notified x) (seen x) (deadline x)
  | Notify p =>
      mkExchange (parser x) (vars x) (responseP x) (reading x)
        (S (awaiting x)) (notified x ++ [p]) (seen x) (deadline x)
  end.

(** The callback given to [createParser2]. *)
Definition onParse (hasSink : bool) (orig : Value) (x : Exchange) (ev : ParsedEvent)
    : Exchange :=
  match ev with
  | Event _ _ data =>
      let '(v, effects) := onMessage hasSink orig (vars x) data in
      fold_left applyEffect effects
        (mkExchange (parser x) v (responseP x) (reading x) (awaiting x)
           (notified x) (seen x ++ [data]) (deadline x))
  | ReconnectInterval _ => x
  end.

Definition timeoutOptions (timeoutMs : Value) : PTimeout.Options (A := Result) :=
  PTimeout.mkOptions timeoutMs None
    (PTimeout.MessageText (str "ChatGPT timed out waiting for response")) None.

(** The wrapper learns that [responseP] has settled. *)
Definition deliver (timeoutMs : Value) (x : Exchange) : Exchange :=
  match deadline x, responseP x with
  | Some w, Resolved r =>
      mkExchange (parser x) (vars x) (responseP x) (reading x) (awaiting x)
        (notified x) (seen x)
        (Some (PTimeout.tick ToString true (timeoutOptions timeoutMs) w
                 (PTimeout.OperationSettles (inl r))))
  | Some w, Rejected e =>
      mkExchange (parser x) (vars x) (responseP x) (reading x) (awaiting x)
        (notified x) (seen x)
        (Some (PTimeout.tick ToString true (timeoutOptions timeoutMs) w
                 (PTimeout.OperationSettles (inr e))))
  | _, _ => x
  end.

Definition handle (hasSink : bool) (orig : Value) (timeoutMs : Value)
    (x : Exchange) (ev : PageEvent) : Exchange :=
  match ev with
  | Chunk text =>
      if reading x then
        let '(parser', parsed) := feed (parser x) text in
        fold_left (onParse hasSink orig) parsed
          (mkExchange parser' (vars x) (responseP x) (reading x) (awaiting x)
             (notified x) (seen x) (deadline x))
      else x
  | ReadDone | ReadFails _ =>
      (* the executor is an [async] function: its completion, normal or
         not, is not connected to [responseP] *)
      mkExchange (parser x) (vars x) (responseP x) false (awaiting x)
        (notified x) (seen x) (deadline x)
  | ProgressRejects e =>
      match awaiting x with
      | O => x
      | S n =>
          mkExchange (parser x) (vars x) (settle (Rejected e) (responseP x))
            (reading x) n (notified x) (seen x) (deadline x)
      end
  | DeadlineElapses =>
      match deadline x with
      | Some w =>
          mkExchange (parser x) (vars x) (responseP x) (reading x) (awaiting x)
            (notified x) (seen x)
            (Some (PTimeout.tick ToString true (timeoutOptions timeoutMs) w
                     PTimeout.TimerFires))
      | None => x
      end
  end.

Definition step (hasSink : bool) (orig : Value) (timeoutMs : Value)
    (x : Exchange) (ev : PageEvent) : Exchange :=
  deliver timeoutMs (handle hasSink orig timeoutMs x ev).

(** The promise the function awaits: the wrapper when there is a timeout,
    [responseP] otherwise. *)
Definition awaited (x : Exchange) : Settled Result :=
  match deadline x with
  | Some w => PTimeout.outcome w
  | None => responseP x
  end.

(** [await]: the events are taken one by one until the awaited promise has
    settled. *)
Fixpoint await (hasSink : bool) (orig : Value) (timeoutMs : Value)
    (x : Exchange) (timeline : list PageEvent) : Try * Exchange :=
  match awaited x with
  | Resolved r => (Return r, x)
  | Rejected e => (Throw e, x)
  | Pending =>
      match timeline with
      | [] => (Suspended, x)
      | ev :: timeline' =>
          await hasSink orig timeoutMs (step hasSink orig timeoutMs x ev) timeline'
      end
  end.

Definition initialVars (body : Value) : Vars :=
  mkVars (Str []) (optProp body "conversation_id")
    (optProp (optFirst (optProp body "messages")) "id").

Definition initialExchange (body : Value) (timeoutMs : Value) : Exchange :=
  mkExchange createParser2 (initialVars body) Pending true 0 [] []
    (if truthy timeoutMs
     then Some (PTimeout.pTimeout2 ToString (timeoutOptions timeoutMs))
     else None).

(** The [try] block. *)
Definition tryBlock (body timeoutMs : Value) (fetched : FetchOutcome)
    (hasSink : bool) (timeline : list PageEvent) : Try * Exchange :=
  let x0 := initialExchange body Undefined in
  match fetched with
  | FetchFails e => (Throw e, x0)
  | Responds ok status statusText =>
      if negb ok then
        (Return (Failure (str "ChatGPTAPI error " ++ ToString (orElse status statusText))
                   status statusText (conversationId (vars x0)) (messageId (vars x0))),
         x0)
      else
        await hasSink (messageId (initialVars body)) timeoutMs
          (initialExchange body timeoutMs) timeline
  end.

(** The [TypeError] of a call of [toString] on a value that has none. *)
Definition noToString (what : string) : Error :=
  plainError (str "TypeError")
    (str "Cannot read properties of " ++ str what ++ str " (reading 'toString')").

Definition notAFunction : Error :=
  plainError (str "TypeError") (str "err.toString is not a function").

Definition hasOwn (name : string) (fields : list (string * Value)) : bool :=
  existsb (fun kv => String.eqb (fst kv) name) fields.

(** [err.toString()] on whatever was caught: the string, or the [TypeError]
    that the call throws.  [null] and [undefined] have no properties; an
    object whose own [toString] is not a function (no value here is one)
    cannot be called; a plain object inherits [Object.prototype.toString];
    on the other values the method agrees with the built-in conversion. *)
Definition raisedToString (err : Raised) : list ascii + Error :=
  match err with
  | RaisedError e => inl (errToString e)
  | RaisedValue Undefined => inr (noToString "undefined")
  | RaisedValue Null => inr (noToString "null")
  | RaisedValue (Obj fields) =>
      if hasOwn "toString" fields then inr notAFunction
      else inl (str "[object Object]")
  | RaisedValue v => inl (ToString v)
  end.

(** [err.name] for the names the [catch] block reads, on a value that is
    neither [null] nor [undefined]. *)
Definition raisedProp (err : Raised) (name : string) : Value :=
  match err with
  | RaisedError e =>
      if String.eqb name "statusCode" then errStatusCode e
      else if String.eqb name "status" then errStatus e
      else if String.eqb name "statusText" then errStatusText e
      else if String.eqb name "response" then errResponse e
      else Undefined
  | RaisedValue v => getProp v name
  end.

(** The [catch] block: the value it returns, or the [TypeError] that its
    first statement, [err.toString().toLowerCase()], throws. *)
Definition catchBlock (v : Vars) (err : Raised) : Result + Error :=
  match raisedToString err with
  | inr typeError => inr typeError
  | inl text =>
      let errMessageL := toLowerCase text in
      if truthy (response v) &&
         (text_eqb errMessageL (str "error: typeerror: terminated") ||
          text_eqb errMessageL (str "typeerror: terminated"))
      then inl (Snapshot (response v) (conversationId v) (messageId v))
      else
        inl (Failure text
               (orElse (orElse (raisedProp err "statusCode") (raisedProp err "status"))
                  (optProp (raisedProp err "response") "statusCode"))
               (orElse (raisedProp err "statusText")
                  (optProp (raisedProp err "response") "statusText"))
               (conversationId v) (messageId v))
  end.

(** The function: what the [try] block returns, what the [catch] block
    returns, or what the [catch] block throws. *)
Definition browserPostEventStream (body timeoutMs : Value) (fetched : FetchOutcome)
    (hasSink : bool) (timeline : list PageEvent) : Completion * Exchange :=
  match tryBlock body timeoutMs fetched hasSink timeline with
  | (Return r, x) => (Returns r, x)
  | (Throw e, x) =>
      match catchBlock (vars x) e with
      | inl r => (Returns r, x)
      | inr typeError => (Throws typeError, x)
      end
  | (Suspended, x) => (NeverSettles, x)
  end.

(** The ids known after a sequence of payloads, in the words of the
    specification: an id already known is kept unless a later payload
    supplies a new one; [[DONE]] and payloads that do not parse to a truthy
    value supply nothing. *)
Definition suppliedIds (ids : Value * Value) (data : list ascii) : Value * Value :=
  if text_eqb data DONE then ids
  else
    match JSON_parse data with
    | inr _ => ids
    | inl ev =>
        if truthy ev then
          (if truthy (getProp ev "conversation_id")
           then getProp ev "conversation_id" else ids.1,
           if truthy (optProp (getProp ev "message") "id")
           then getProp (getProp ev "message") "id" else ids.2)
        else ids
    end.

Definition knownIds (body : Value) (payloads : list (list ascii)) : Value * Value :=
  fold_left suppliedIds payloads
    (conversationId (initialVars body), messageId (initialVars body)).

Definition idsOf (v : Vars) : Value * Value := (conversationId v, messageId v).

(** A call without deadline wrapper whose [responseP] is pending, or was
    resolved with a snapshot after [[DONE]] was seen. *)
Definition settledByDone (x : Exchange) : Prop :=
  deadline x = None /\
  (responseP x = Pending \/
   (exists a b c, responseP x = Resolved (Snapshot a b c)) /\ In DONE (seen x)).

Definition isProgressRejection (ev : PageEvent) : Prop :=
  match ev with
  | ProgressRejects _ => True
  | _ => False
  end.

(** What holds of a call while it awaits: the variables hold the ids known
    from the payloads seen, and a value with which [responseP] or the
    wrapper has been resolved holds the ids known from the payloads seen
    up to some point. *)
Definition coherent (body : Value) (x : Exchange) : Prop :=
  idsOf (vars x) = knownIds body (seen x) /\
  (forall r, responseP x = Resolved r ->
     exists n, (n <= length (seen x))%nat /\
               resultIds r = knownIds body (firstn n (seen x))) /\
  (forall w r, deadline x = Some w -> PTimeout.outcome w = Resolved r ->
     exists n, (n <= length (seen x))%nat /\
               resultIds r = knownIds body (firstn n (seen x))).

End BrowserPostEventStream.

End Page.

(** ** The direct client: [ChatGPTAPI] *)

Module Api.
Import Js.

(** Modelled from the spec: the [expiry-map] package, of which the source
    only has the import.  A single-slot, time-bounded cache: [get] is
    evaluated lazily against the current time, [set] stores with expiry =
    now + the configured time-to-live and overwrites, [delete] invalidates.
    Times are milliseconds, as [Date.now()] gives them. *)
Record ExpiryMap := mkExpiryMap {
  maxAge : Z;
  entry : option (Value * Z) }.

(** Modelled from the spec: [new ExpiryMap(maxAge)], an empty cache with
    the configured time-to-live. *)
Definition newExpiryMap (maxAge : Z) : ExpiryMap := mkExpiryMap maxAge None.

(** Modelled from the spec: [get()] of the package, "credential or empty,
    evaluated lazily against the current time"; a value is returned only
    while the current time is before its expiry. *)
Definition get (now : Z) (m : ExpiryMap) : Value :=
  match entry m with
  | Some (v, expiry) => if now <? expiry then v else Undefined
  | None => Undefined
  end.

(** Modelled from the spec: [set(value)] of the package, "stores with
    expiry = now + configured time-to-live, overwriting any prior entry". *)
Definition set (now : Z) (v : Value) (m : ExpiryMap) : ExpiryMap :=
  mkExpiryMap (maxAge m) (Some (v, now + maxAge m)).

(** Modelled from the spec: [delete()] of the package, "explicit
    invalidation". *)
Definition delete (m : ExpiryMap) : ExpiryMap := mkExpiryMap (maxAge m) None.

(** The fields of the client that [refreshSession] touches. *)
Record Client := mkClient {
  _accessTokenCache : ExpiryMap;
  _user : Value }.

(** The constructor: [new ExpiryMap(accessTokenTTL)], then the token given
    in the options, if any, is stored. *)
Definition construct (now : Z) (accessTokenTTL : Z) (accessToken : Value) : Client :=
  mkClient
    (if truthy accessToken then set now accessToken (newExpiryMap accessTokenTTL)
     else newExpiryMap accessTokenTTL)
    Null.

(** What the request of [refreshSession] yields: [fetch] or [r.json()]
    fails, the status is not ok, or a body is parsed. *)
Inductive SessionReply :=
| RequestFails (e : Error)
| NotOk (status statusText : Value)
| BodyFails (status statusText : Value) (e : Error)
| Body (status statusText : Value) (res : Value).

Definition chatGPTError (message : list ascii) (status statusText : Value) : Error :=
  mkError (str "Error") message status Undefined statusText
    (Obj [("status"%string, status); ("statusText"%string, statusText)]).

Section RefreshSession.

Variable ToString : Value -> list ascii.

(** The [try] block of [refreshSession] after a cache miss: the token, with
    the user to record, or the error thrown. *)
Definition requestToken (reply : SessionReply) : (Value * Value) + Error :=
  match reply with
  | RequestFails e => inr e
  | NotOk status statusText =>
      inr (chatGPTError (ToString status ++ str " " ++ ToString statusText)
             status statusText)
  | BodyFails _ _ e => inr e
  | Body status statusText res =>
      let accessToken := optProp res "accessToken" in
      if negb (truthy accessToken) then
        inr (chatGPTError (str "Unauthorized") status statusText)
      else
        let appError := optProp res "error" in
        if truthy appError then
          if match appError with
             | Str s => text_eqb s (str "RefreshAccessTokenError")
             | _ => false
             end
          then inr (chatGPTError (str "session token may have expired") status statusText)
          else inr (chatGPTError (ToString appError) status statusText)
        else inl (accessToken, getProp res "user")
  end.

Definition replyStatus (reply : SessionReply) : Value * Value :=
  match reply with
  | RequestFails _ => (Undefined, Undefined)
  | NotOk status statusText => (status, statusText)
  | BodyFails status statusText _ => (status, statusText)
  | Body status statusText _ => (status, statusText)
  end.

(** [refreshSession()]: [now] is the time of the look-up, [later] the time
    at which a fetched token is stored.  The result is the token returned
    or the error thrown. *)
Definition refreshSession (now later : Z) (c : Client) (reply : SessionReply)
    : (Value + Error) * Client :=
  let cachedAccessToken := get now (_accessTokenCache c) in
  if truthy cachedAccessToken then (inl cachedAccessToken, c)
  else
    match requestToken reply with
    | inl (accessToken, user) =>
        (inl accessToken,
         mkClient (set later accessToken (_accessTokenCache c))
           (if truthy user then user else _user c))
    | inr err =>
        (inr (chatGPTError
                (str "ChatGPT failed to refresh auth token. " ++ errToString err)
                (replyStatus reply).1 (replyStatus reply).2),
         c)
    end.

Definition closeSession (c : Client) : Client :=
  mkClient (delete (_accessTokenCache c)) (_user c).

End RefreshSession.

(** The [result] object of [sendMessage], which [onMessage] updates in
    place. *)
Record SendResult := mkSendResult {
  conversationId : Value;
  messageId : Value;
  response : Value }.

Inductive Signal :=
| Resolve (r : SendResult)
| Reject (e : Error)
| Progress (r : SendResult).

Section OnMessage.

Variable JSON_parse : list ascii -> Value + Error.
Variable markdownToText : Value -> Value.

(** The [TypeError] of reading a property of [null]. *)
Definition nullRead : Error :=
  plainError (str "TypeError")
    (str "Cannot read properties of null (reading 'conversation_id')").

(** The [onMessage] callback that [sendMessage] gives to [fetchSSE]: the
    whole body, [JSON.parse] included, is inside one [try] whose [catch]
    rejects. *)
Definition onMessage (markdown hasProgress : bool) (result : SendResult)
    (data : list ascii) : SendResult * list Signal :=
  if text_eqb data (str "[DONE]") then (result, [Resolve result])
  else
    match JSON_parse data with
    | inr err => (result, [Reject err])
    | inl convoResponseEvent =>
        if nullish convoResponseEvent then (result, [Reject nullRead])
        else
          let conversationId1 :=
            if truthy (getProp convoResponseEvent "conversation_id")
            then getProp convoResponseEvent "conversation_id"
            else conversationId result in
          let message2 := getProp convoResponseEvent "message" in
          let messageId1 :=
            if truthy (optProp message2 "id") then getProp message2 "id"
            else messageId result in
          let text := optFirst (optProp (optProp message2 "content") "parts") in
          if truthy message2 && truthy text then
            let result' :=
              mkSendResult conversationId1 messageId1
                (if markdown then text else markdownToText text) in
            (result', if hasProgress then [Progress result'] else [])
          else (mkSendResult conversationId1 messageId1 (response result), [])
    end.

End OnMessage.

End Api.

(** ** The browser client: [ChatGPTAPIBrowser.sendMessage]

    The collaborators are scripted: [isAuthenticated n] is what the call
    number [n] of [getIsAuthenticated()] answers, [evaluate n] what the call
    number [n] of [page.evaluate(browserPostEventStream, ...)] does.
    [resetSession] and [refreshSession] catch whatever they throw; what
    they did shows in the answers that follow. *)

Module Browser.
Import Js.

Inductive Evaluated :=
| EvalThrows (e : Error)
| EvalReturns (r : Page.Result).

Record World := mkWorld {
  isAuthenticated : nat -> bool;
  evaluate : nat -> Evaluated }.

Inductive Action :=
| ResetSession
| RefreshSession
| Evaluate
| Delay (ms : Z)
| Cleanup.

(** How [sendMessage] ends: [Returned None] is a return of [undefined]. *)
Inductive Outcome :=
| Returned (r : option Page.Result)
| Thrown (e : Error).

Inductive Flow :=
| Continue
| Return (r : Page.Result)
| Throw (e : Error).

Section SendMessage.

(** The type of progress callbacks. *)
Context {Handler : Type}.

Variable markdownToText : Value -> Value.

(** The client, with counters of the calls made and their trace. *)
Record Client := mkClient {
  _messageOnProgressHandlers : gmap string Handler;
  authCalls : nat;
  evalCalls : nat;
  trace : list Action }.

(** The local variables of the retry loop. *)
Record Locals := mkLocals {
  numTries : nat;
  is401 : bool;
  result : option Page.Result }.

Definition log (a : Action) (c : Client) : Client :=
  mkClient (_messageOnProgressHandlers c) (authCalls c) (evalCalls c) (trace c ++ [a]).

Definition getIsAuthenticated (w : World) (c : Client) : bool * Client :=
  (isAuthenticated w (authCalls c),
   mkClient (_messageOnProgressHandlers c) (S (authCalls c)) (evalCalls c) (trace c)).

Definition pageEvaluate (w : World) (c : Client) : Evaluated * Client :=
  (evaluate w (evalCalls c),
   mkClient (_messageOnProgressHandlers c) (authCalls c) (S (evalCalls c))
     (trace c ++ [Evaluate])).

(** [cleanup()] *)
Definition cleanup (messageId : string) (c : Client) : Client :=
  log Cleanup
    (match _messageOnProgressHandlers c !! messageId with
     | Some _ =>
         mkClient (base.delete messageId (_messageOnProgressHandlers c))
           (authCalls c) (evalCalls c) (trace c)
     | None => c
     end).

Definition chatGPTError (message : list ascii) (statusCode statusText : Value) : Error :=
  mkError (str "Error") message statusCode Undefined statusText Undefined.

(** One turn of the [do ... while] body. *)
Definition turn (w : World) (markdown : bool) (messageId : string)
    (c : Client) (l : Locals) : Flow * Client * Locals :=
  let '(reauthenticate, c1) :=
    if is401 l then (true, c)
    else let '(a, c') := getIsAuthenticated w c in (negb a, c') in
  let '(stop, c2) :=
    if reauthenticate then
      let '(a, c') := getIsAuthenticated w (log ResetSession c1) in
      (negb a, c')
    else (false, c1) in
  if stop then
    (Throw (chatGPTError (str "Not signed in") (Int 401) Undefined),
     cleanup messageId c2, l)
  else
    let '(e, c3) := pageEvaluate w c2 in
    match e with
    | EvalThrows err =>
        let l' := mkLocals (S (numTries l)) (is401 l) (result l) in
        if (2 <=? numTries l')%nat then
          (Throw (chatGPTError (errToString err)
                    (optProp (errResponse err) "statusCode")
                    (optProp (errResponse err) "statusText")),
           cleanup messageId c3, l')
        else (Continue, log (Delay 5000) c3, l')
    | EvalReturns (Page.Failure message statusCode statusText cid mid) =>
        let r := Page.Failure message statusCode statusText cid mid in
        let error := chatGPTError message statusCode statusText in
        let n := S (numTries l) in
        if isNumber statusCode 401 then
          if (2 <=? n)%nat
          then (Throw error, cleanup messageId c3, mkLocals n true (Some r))
          else (Continue, c3, mkLocals n true (Some r))
        else if negb (isNumber statusCode 403) then
          (Throw error, c3, mkLocals n (is401 l) (Some r))
        else if (2 <=? n)%nat then
          (Throw error, log RefreshSession c3, mkLocals n (is401 l) (Some r))
        else
          (Continue, log (Delay 1000) (log RefreshSession c3),
           mkLocals n (is401 l) None)
    | EvalReturns (Page.Snapshot response cid mid) =>
        let r :=
          Page.Snapshot (if markdown then response else markdownToText response)
            cid mid in
        (Return r, cleanup messageId c3, mkLocals (numTries l) (is401 l) (Some r))
    end.

(** [do { ... } while (!result); cleanup();]: a [continue] goes to the
    test of the loop. *)
Fixpoint doWhile (fuel : nat) (w : World) (markdown : bool) (messageId : string)
    (c : Client) (l : Locals) : option (Outcome * Client) :=
  match fuel with
  | O => None
  | S fuel' =>
      match turn w markdown messageId c l with
      | (Return r, c', _) => Some (Returned (Some r), c')
      | (Throw e, c', _) => Some (Thrown e, c')
      | (Continue, c', l') =>
          match result l' with
          | None => doWhile fuel' w markdown messageId c' l'
          | Some _ => Some (Returned None, cleanup messageId c')
          end
      end
  end.

(** [sendMessage(message, {messageId, onProgress, ...})] on a client [c].
    The loop makes at most two turns ([sendMessage_total] below). *)
Definition sendMessage (w : World) (markdown : bool) (messageId : string)
    (onProgress : option Handler) (c : Client) : Outcome * Client :=
  let c0 :=
    match onProgress with
    | Some h =>
        mkClient (<[messageId := h]> (_messageOnProgressHandlers c))
          (authCalls c) (evalCalls c) (trace c)
    | None => c
    end in
  default (Returned None, c0)
    (doWhile 2 w markdown messageId c0 (mkLocals 0 false None)).

Definition attempts (c : Client) : nat :=
  length (List.filter (fun a => match a with Evaluate => true | _ => false end) (trace c)).

Definition reauthentications (c : Client) : nat :=
  length (List.filter (fun a => match a with ResetSession => true | _ => false end)
            (trace c)).

End SendMessage.

End Browser.

(** ** Built-ins and inputs of the examples *)

Module Examples.
Import Js.

(** A [ToString] that is exact on strings, integers, booleans, [null] and
    [undefined]. *)
Definition exampleToString (v : Value) : list ascii :=
  match v with
  | Undefined => str "undefined"
  | Null => str "null"
  | Bool true => str "true"
  | Bool false => str "false"
  | Num NaN => str "NaN"
  | Num PosInfinity => str "Infinity"
  | Num NegInfinity => str "-Infinity"
  | Num (Finite q) => str (NilZero.string_of_int (Z.to_int (Qnum q / Z.pos (Qden q))))
  | Str s => s
  | Arr _ | Obj _ => str "[object Object]"
  end.

Definition quoted (s : string) : list ascii := ["034"%char] ++ str s ++ ["034"%char].

(** Two progress payloads of one answer, as the service sends them. *)
Definition payload (conversation message part : string) : list ascii :=
  str "{" ++ quoted "conversation_id" ++ str ":" ++ quoted conversation ++ str ","
    ++ quoted "message" ++ str ":{" ++ quoted "id" ++ str ":" ++ quoted message
    ++ str "," ++ quoted "content" ++ str ":{" ++ quoted "parts" ++ str ":["
    ++ quoted part ++ str "]}}}".

Definition payloadValue (conversation message part : string) : Value :=
  Obj [("conversation_id"%string, Str (str conversation));
       ("message"%string,
        Obj [("id"%string, Str (str message));
             ("content"%string, Obj [("parts"%string, Arr [Str (str part)])])])].

Definition syntaxError : Error :=
  plainError (str "SyntaxError") (str "Unexpected token o in JSON at position 0").

(** [JSON.parse] on the texts of the examples: the two payloads parse to
    their values, the other texts used are not JSON. *)
Definition exampleParse (data : list ascii) : Value + Error :=
  if text_eqb data (payload "c1" "m1" "Hel") then inl (payloadValue "c1" "m1" "Hel")
  else if text_eqb data (payload "c1" "m2" "Hello") then inl (payloadValue "c1" "m2" "Hello")
  else inr syntaxError.

(** A deadline of one second on an operation that yields a number. *)
Definition oneSecond : PTimeout.Options (A := nat) :=
  PTimeout.mkOptions (Int 1000) None (PTimeout.MessageText (str "too late")) None.

(** The same operation with no bound on its time, and with no time at
    all. *)
Definition unbounded : PTimeout.Options (A := nat) :=
  PTimeout.mkOptions (Num PosInfinity) None (PTimeout.MessageText (str "too late")) None.

Definition noTime : PTimeout.Options (A := nat) :=
  PTimeout.mkOptions (Int 0) None (PTimeout.MessageText (str "too late")) None.

(** A server-sent event holding one payload. *)
Definition sse (data : list ascii) : list ascii := str "data: " ++ data ++ [LF; LF].

(** The request body of a new conversation whose user message is "m0". *)
Definition exampleBody : Value :=
  Obj [("action"%string, Str (str "next"));
       ("messages"%string, Arr [Obj [("id"%string, Str (str "m0"))]])].

(** The request body of a message "m5" in the conversation "c0". *)
Definition followUpBody : Value :=
  Obj [("action"%string, Str (str "next"));
       ("conversation_id"%string, Str (str "c0"));
       ("messages"%string, Arr [Obj [("id"%string, Str (str "m5"))]])].

(** The error with which a body reader fails when the connection is cut. *)
Definition terminated : Error := plainError (str "TypeError") (str "terminated").

Definition twoSnapshots : list Page.PageEvent :=
  [Page.Chunk (sse (payload "c1" "m1" "Hel")); Page.Chunk (sse (payload "c1" "m2" "Hello"))].

(** A transport that reports status 401, then streams an answer; and one
    that reports status 500. *)
Definition unauthorized : Page.Result :=
  Page.Failure (str "ChatGPTAPI error 401") (Int 401) (Str (str "Unauthorized"))
    Undefined (Str (str "m0")).

Definition answered : Page.Result :=
  Page.Snapshot (Str (str "Hello")) (Str (str "c1")) (Str (str "m2")).

Definition serverError : Page.Result :=
  Page.Failure (str "ChatGPTAPI error 500") (Int 500) (Str (str "Internal Server Error"))
    Undefined (Str (str "m0")).

Definition forbidden : Page.Result :=
  Page.Failure (str "ChatGPTAPI error 403") (Int 403) (Str (str "Forbidden"))
    Undefined (Str (str "m0")).

Definition signedIn (script : nat -> Browser.Evaluated) : Browser.World :=
  Browser.mkWorld (fun _ => true) script.

Definition unauthorizedThenAnswered (n : nat) : Browser.Evaluated :=
  match n with
  | O => Browser.EvalReturns unauthorized
  | _ => Browser.EvalReturns answered
  end.


Definition alwaysUnauthorized (n : nat) : Browser.Evaluated :=
  Browser.EvalReturns unauthorized.

Definition alwaysServerError (n : nat) : Browser.Evaluated :=
  Browser.EvalReturns serverError.

Definition alwaysForbidden (n : nat) : Browser.Evaluated :=
  Browser.EvalReturns forbidden.

(** A client with no handler registered and no call made; callbacks are
    named by numbers. *)
Definition freshClient : Browser.Client (Handler := nat) :=
  Browser.mkClient ∅ 0 0 [].

End Examples.

(** ** Notions used to state further properties of the decoder *)

Module Lines.
Import Decoder.

(** The part of a text that follows its last line feed, after [pending]:
    the line that is not finished yet. *)
Fixpoint unfinished (pending text : list ascii) : list ascii :=
  match text with
  | [] => pending
  | c :: text' =>
      if Ascii.eqb c LF then unfinished [] text' else unfinished (pending ++ [c]) text'
  end.

(** A line that the chain of tests of [parseEventStreamLine] lets fall
    through: it is not blank, and its field is none of [data] and [event],
    is not an [id] with a value free of NUL, and is not a [retry] whose
    value [parseInt] reads as a number.  Comment lines (a colon first) have
    the empty field and are of this kind. *)
Definition ignoredLine (line : list ascii) : bool :=
  match line with
  | [] => false
  | _ =>
      let field := fst (splitField line) in
      let value := snd (splitField line) in
      negb (text_eqb field (str "data")) &&
      negb (text_eqb field (str "event")) &&
      negb (text_eqb field (str "id") && negb (includes value NUL)) &&
      negb (text_eqb field (str "retry") &&
            match parseInt10 value with Some _ => true | None => false end)
  end.

(** A text made of complete lines: empty, or ended by a line feed. *)
Definition completeLines (text : list ascii) : Prop :=
  text = [] \/ exists t, text = t ++ [LF].

End Lines.

(** ** Notions used to state further properties of one exchange *)

Module Provenance.
Import Js Decoder Page.

Definition isSnapshot (r : Result) : Prop :=
  match r with
  | Snapshot _ _ _ => True
  | Failure _ _ _ _ _ => False
  end.

Section Exchange.

Variable ToString : Value -> list ascii.

(** The test that the [catch] block makes on what it caught. *)
Definition readsAsTerminated (e : Raised) : bool :=
  match raisedToString ToString e with
  | inl text =>
      text_eqb (toLowerCase text) (str "error: typeerror: terminated") ||
      text_eqb (toLowerCase text) (str "typeerror: terminated")
  | inr _ => false
  end.

(** Where the state of a promise of the call comes from: a value it was
    resolved with is a snapshot taken at [[DONE]] ([done] says that the
    payload was seen); an error it was rejected with satisfies [P] or, for
    the wrapper ([late]), is the error of the deadline or of an invalid
    duration. *)
Definition settledFrom (timeoutMs : Value) (P : Raised -> Prop) (done : Prop)
    (late : bool) (s : Settled Result) : Prop :=
  match s with
  | Pending => True
  | Resolved r => isSnapshot r /\ done
  | Rejected e =>
      P e \/
      (late = true /\
       (e = RaisedError (PTimeout.timeoutError ToString (timeoutOptions timeoutMs)) \/
        e = RaisedError (PTimeout.invalidMilliseconds ToString timeoutMs)))
  end.

Definition traced (timeoutMs : Value) (P : Raised -> Prop) (x : Exchange) : Prop :=
  settledFrom timeoutMs P (In DONE (seen x)) false (responseP x) /\
  match deadline x with
  | Some w => settledFrom timeoutMs P (In DONE (seen x)) true (PTimeout.outcome w)
  | None => True
  end.

(** A call with a deadline wrapper whose timer is armed, and whose hook
    has not been called, as long as the wrapper is pending. *)
Definition ticking (x : Exchange) : Prop :=
  exists w, deadline x = Some w /\
    (PTimeout.outcome w = Pending ->
     PTimeout.timer w = true /\ PTimeout.cancelCalls w = 0%nat).

(** What the progress sink has received: partial responses that carry the
    id [orig] and a response that is not empty, at most one for each
    payload, and none without a sink. *)
Definition sinkUse (hasSink : bool) (orig : Value) (x : Exchange) : Prop :=
  Forall (fun p => origMessageId p = orig /\ truthy (partResponse p) = true)
    (notified x) /\
  (length (notified x) <= length (seen x))%nat /\
  (if hasSink then True else notified x = []).

End Exchange.

(** The payloads given to [onMessage] before the first [[DONE]]. *)
Fixpoint beforeDone (payloads : list (list ascii)) : list (list ascii) :=
  match payloads with
  | [] => []
  | data :: rest => if text_eqb data DONE then [] else data :: beforeDone rest
  end.

Section Ids.

Variable JSON_parse : list ascii -> Value + Error.

(** As long as [responseP] is pending no [[DONE]] has been seen; a value
    with which [responseP] or the wrapper has been resolved was taken at
    the first [[DONE]]: it holds the ids known from the payloads before
    it. *)
Definition resolvedAtDone (body : Value) (x : Exchange) : Prop :=
  (responseP x = Pending -> ~ In DONE (seen x)) /\
  (forall r, responseP x = Resolved r ->
     In DONE (seen x) /\
     resultIds r = knownIds JSON_parse body (beforeDone (seen x))) /\
  (forall w r, deadline x = Some w -> PTimeout.outcome w = Resolved r ->
     In DONE (seen x) /\
     resultIds r = knownIds JSON_parse body (beforeDone (seen x))).

End Ids.

End Provenance.

(** ** The progress callback exposed to the page, and the request body *)

Module Routing.
Import Js Page.

(** The names that a plain object inherits from [Object.prototype]. *)
Definition inheritedNames : list string :=
  ["constructor"; "__defineGetter__"; "__defineSetter__"; "hasOwnProperty";
   "__lookupGetter__"; "__lookupSetter__"; "isPrototypeOf"; "propertyIsEnumerable";
   "toString"; "valueOf"; "__proto__"; "toLocaleString"]%string.

Section Routing.

Context {Handler : Type}.

Variable ToString : Value -> list ascii.

(** What the exposed function does with a partial response. *)
Inductive Dispatched :=
| CallsHandler (h : Handler)
| CallsInherited (name : string)
| Nothing.

(** The function that [initSession] exposes to the page as
    [window.ChatGPTAPIBrowserOnProgress].  The registry is a plain object:
    the id is converted to a property key, and a key that the registry does
    not hold itself is looked up in [Object.prototype]. *)
Definition onProgressExposed (handlers : gmap string Handler)
    (partialResponse : option PartialChatResponse) : Dispatched :=
  match partialResponse with
  | None => Nothing
  | Some p =>
      if truthy (origMessageId p) then
        let key := string_of_list_ascii (ToString (origMessageId p)) in
        match handlers !! key with
        | Some h => CallsHandler h
        | None =>
            if bool_decide (key ∈ inheritedNames) then CallsInherited key else Nothing
        end
      else Nothing
  end.

(** The request body that [ChatGPTAPIBrowser.sendMessage] builds. *)
Definition requestBody (action message : Value) (messageId : string)
    (parentMessageId conversationId : Value) (isProAccount : bool) : Value :=
  Obj ([("action"%string, action);
        ("messages"%string,
         Arr [Obj [("id"%string, Str (str messageId));
                   ("role"%string, Str (str "user"));
                   ("content"%string,
                    Obj [("content_type"%string, Str (str "text"));
                         ("parts"%string, Arr [message])])]]);
        ("model"%string,
         Str (if isProAccount then str "gpt-4" else str "text-davinci-002-render"));
        ("parent_message_id"%string, parentMessageId)]
       ++ (if truthy conversationId
           then [("conversation_id"%string, conversationId)] else [])).

End Routing.


End Routing.

(** ** Waiting for capacity: [checkForChatGPTAtCapacity]

    The page is scripted: [look n] is what the call number [n] of
    [page.$x("//div[contains(., 'ChatGPT is at capacity')]")] does, and
    [reload n] what the call number [n] of [page.reload] does.
    [solveSimpleCaptchas] catches whatever it throws and [delay] does not
    throw; [retries] is an integer. *)

Module Capacity.
Import Js.

Inductive Look :=
| LookThrows (e : Error)
| NotAtCapacity             (* no element, or no result at all *)
| AtCapacity.               (* at least one element *)

Record Page := mkPage {
  look : nat -> Look;
  reload : nat -> option Error }.

(** The variables of the loop, and counters of the calls made. *)
Record Check := mkCheck {
  isAtCapacity : bool;
  numTries : nat;
  looks : nat;
  reloads : nat }.

(** [do { try { ... } catch (err) { ++numTries; break } } while (isAtCapacity)] *)
Fixpoint doWhile (fuel : nat) (page : Page) (retries : Z) (s : Check) : option Check :=
  match fuel with
  | O => None
  | S fuel' =>
      match look page (looks s) with
      | LookThrows _ =>
          Some (mkCheck (isAtCapacity s) (S (numTries s)) (S (looks s)) (reloads s))
      | NotAtCapacity =>
          Some (mkCheck false (numTries s) (S (looks s)) (reloads s))
      | AtCapacity =>
          if retries <=? Z.of_nat (S (numTries s)) then
            Some (mkCheck true (S (numTries s)) (S (looks s)) (reloads s))
          else
            match reload page (reloads s) with
            | Some _ =>
                Some (mkCheck true (S (S (numTries s))) (S (looks s)) (S (reloads s)))
            | None =>
                doWhile fuel' page retries
                  (mkCheck true (S (numTries s)) (S (looks s)) (S (reloads s)))
            end
      end
  end.

Definition start : Check := mkCheck false 0 0 0.

Definition atCapacityError : Error :=
  mkError (str "Error") (str "ChatGPT is at capacity") (Int 503) Undefined Undefined
    Undefined.

(** [checkForChatGPTAtCapacity(page, {retries})]: the error thrown, if any,
    and the final state.  The loop makes at most [retries] turns, and one
    at least ([checkForChatGPTAtCapacity_total] below). *)
Definition checkForChatGPTAtCapacity (page : Page) (retries : Z)
    : option Error * Check :=
  let s := default start (doWhile (S (Z.to_nat retries)) page retries start) in
  (if isAtCapacity s then Some atCapacityError else None, s).

End Capacity.

(** ** The proxy setting: [getPage] and [getBrowser] *)

Module Proxy.

Definition AT : ascii := "@"%char.

(** [s.split(sep)] for a separator of one character. *)
Fixpoint split (sep : ascii) (s : list ascii) : list (list ascii) :=
  match s with
  | [] => [[]]
  | c :: s' =>
      if Ascii.eqb c sep then [] :: split sep s'
      else
        match split sep s' with
        | piece :: pieces => (c :: piece) :: pieces
        | [] => [[c]]
        end
  end.

(** [getPage]: the user name and the password given to
    [page.authenticate], when it is called; [None] as a password is
    [undefined].  [proxyServer] is [None] when the option and the
    environment variable are both absent. *)
Definition proxyCredentials (proxyServer : option (list ascii))
    : option (list ascii * option (list ascii)) :=
  match proxyServer with
  | Some (c :: s) =>
      if includes (c :: s) AT then
        let proxyAuth := split COLON (hd [] (split AT (c :: s))) in
        Some (hd [] proxyAuth, nth_error proxyAuth 1)
      else None
  | _ => None
  end.

(** [getBrowser]: the argument pushed for the proxy, if any. *)
Definition proxyArgument (proxyServer : option (list ascii)) : option (list ascii) :=
  match proxyServer with
  | Some (c :: s) =>
      Some (str "--proxy-server=" ++
            (if includes (c :: s) AT
             then match nth_error (split AT (c :: s)) 1 with
                  | Some ipPort => ipPort
                  | None => str "undefined"
                  end
             else c :: s))
  | _ => None
  end.

End Proxy.

(** ** The two variants of [onMessage] side by side *)

Module Variants.
Import Js.

(** The [result] object of the direct client and the variables of the page
    function hold the same values. *)
Definition sameValues (result : Api.SendResult) (v : Page.Vars) : Prop :=
  Api.conversationId result = Page.conversationId v /\
  Api.messageId result = Page.messageId v /\
  Api.response result = Page.response v.

(** The signals of the direct client and the effects of the page function
    say the same: a resolution with the same values, or a progress report
    with the same values. *)
Definition sameSignal (orig : Value) (s : Api.Signal) (e : Page.Effect) : Prop :=
  match s, e with
  | Api.Resolve r, Page.Resolve (Page.Snapshot a b c) =>
      Api.response r = a /\ Api.conversationId r = b /\ Api.messageId r = c
  | Api.Progress r, Page.Notify p =>
      Page.origMessageId p = orig /\ Api.response r = Page.partResponse p /\
      Api.conversationId r = Page.partConversationId p /\
      Api.messageId r = Page.partMessageId p
  | _, _ => False
  end.

End Variants.

(** ** The session of the direct client: [initSession], [resetSession] and
    [getIsAuthenticated] *)

Module Session.
Import Js Api.

Section Session.

Variable ToString : Value -> list ascii.

(** [initSession()]: [await this.refreshSession()], the token is dropped.
    The result is the error thrown, if any. *)
Definition initSession (now later : Z) (c : Client) (reply : SessionReply)
    : option Error * Client :=
  match refreshSession ToString now later c reply with
  | (inl _, c') => (None, c')
  | (inr e, c') => (Some e, c')
  end.

(** [AChatGPTAPI.resetSession()]: [closeSession()], then [initSession()]. *)
Definition resetSession (now later : Z) (c : Client) (reply : SessionReply)
    : option Error * Client :=
  initSession now later (closeSession c) reply.

(** [getIsAuthenticated()]: whether [refreshSession()] returns. *)
Definition getIsAuthenticated (now later : Z) (c : Client) (reply : SessionReply)
    : bool * Client :=
  match refreshSession ToString now later c reply with
  | (inl _, c') => (true, c')
  | (inr _, c') => (false, c')
  end.

End Session.

End Session.

(** ** Waiting for a condition: [waitForConditionOrAtCapacity]

    The promise that the function returns, with the flag [resolved], the
    timer set by [setTimeout(waitForCapacityText, pollingIntervalMs)] and
    the call of [checkForChatGPTAtCapacity] that is under way.  The events
    are those that the event loop delivers: the promise of [condition()]
    settles, the timer fires, the capacity check returns or throws. *)

Module Waiting.
Import Js.

Record Wait := mkWait {
  resolved : bool;
  promise : Settled unit;
  conditionPending : bool;   (* the promise of [condition()] has not settled *)
  timer : bool;              (* a call of [waitForCapacityText] is scheduled *)
  inFlight : bool;           (* a capacity check is under way *)
  checks : nat }.            (* capacity checks started so far *)

Inductive Event :=
| ConditionSettles (r : option Error)   (* [None]: it is fulfilled *)
| TimerFires
| CheckSettles (r : option Error).      (* [None]: the check returns *)

(** The executor: [condition()] returns a promise, or throws ([Some e]), in
    which case the executor throws before any timer is set. *)
Definition waitForConditionOrAtCapacity (conditionThrows : option Error) : Wait :=
  match conditionThrows with
  | Some e => mkWait false (Rejected e) false false false 0
  | None => mkWait false Pending true true false 0
  end.

Definition settledBy (r : option Error) : Settled unit :=
  match r with
  | None => Resolved tt
  | Some e => Rejected e
  end.

Definition step (w : Wait) (ev : Event) : Wait :=
  match ev with
  | ConditionSettles r =>
      if conditionPending w then
        if resolved w then
          mkWait true (promise w) false (timer w) (inFlight w) (checks w)
        else
          mkWait true (settle (settledBy r) (promise w)) false (timer w) (inFlight w)
            (checks w)
      else w
  | TimerFires =>
      if timer w then
        if resolved w then
          mkWait true (promise w) (conditionPending w) false (inFlight w) (checks w)
        else
          mkWait false (promise w) (conditionPending w) false true (S (checks w))
      else w
  | CheckSettles None =>
      if inFlight w then
        mkWait (resolved w) (promise w) (conditionPending w)
          (if resolved w then timer w else true) false (checks w)
      else w
  | CheckSettles (Some e) =>
      if inFlight w then
        if resolved w then
          mkWait true (promise w) (conditionPending w) (timer w) false (checks w)
        else
          mkWait true (settle (Rejected e) (promise w)) (conditionPending w) (timer w)
            false (checks w)
      else w
  end.

Definition run (conditionThrows : option Error) (events : list Event) : Wait :=
  fold_left step events (waitForConditionOrAtCapacity conditionThrows).

(** The flag says that the promise has settled, and at most one of the
    timer and the check is active. *)
Definition consistent (w : Wait) : Prop :=
  (resolved w = true -> promise w <> Pending) /\
  (timer w && inFlight w = false).

End Waiting.

(** * Theorems *)

Module DecoderFacts.
Import Decoder.

Lemma colonIndex_nonneg line j : colonIndex line = Some j -> 0 <= j < Z.of_nat (length line).
Proof.
  revert j. induction line as [|c l IH]; intros j; simpl; [discriminate|].
  destruct (Ascii.eqb c COLON).
  - intros [= <-]. lia.
  - destruct (colonIndex l) as [k|]; simpl; [|discriminate].
    intros [= <-]. specialize (IH k eq_refl). lia.
Qed.

Lemma colonIndex_app_Some a b j :
  colonIndex a = Some j -> colonIndex (a ++ b) = Some j.
Proof.
  revert j. induction a as [|c a IH]; intros j; simpl; [discriminate|].
  destruct (Ascii.eqb c COLON); [auto|].
  destruct (colonIndex a) as [k|]; simpl; [|discriminate].
  intros [= <-]. now rewrite (IH k eq_refl).
Qed.

Lemma colonIndex_app_None a b :
  colonIndex a = None ->
  colonIndex (a ++ b) = (fun j => Z.of_nat (length a) + j) <$> colonIndex b.
Proof.
  induction a as [|c a IH]; simpl.
  - intros _. destruct (colonIndex b); reflexivity.
  - destruct (Ascii.eqb c COLON); [discriminate|].
    destruct (colonIndex a) as [k|]; simpl; [discriminate|].
    intros _. rewrite IH by reflexivity.
    destruct (colonIndex b); simpl; f_equal; lia.
Qed.

Lemma fieldLengthOk_snoc F a c :
  fieldLengthOk F a ->
  fieldLengthOk
    (if Ascii.eqb c COLON && (F <? 0) then Z.of_nat (length a) else F) (a ++ [c]).
Proof.
  unfold fieldLengthOk. destruct (colonIndex a) as [j|] eqn:E.
  - intros ->. rewrite (colonIndex_app_Some _ _ _ E).
    apply colonIndex_nonneg in E.
    replace (j <? 0) with false by (symmetry; apply Z.ltb_ge; lia).
    now rewrite andb_false_r.
  - intros HF. rewrite (colonIndex_app_None _ _ E). simpl.
    replace (F <? 0) with true by (symmetry; apply Z.ltb_lt; lia).
    rewrite andb_true_r. destruct (Ascii.eqb c COLON); simpl; [lia|assumption].
Qed.

Lemma fieldLengthOk_neg F : F < 0 -> fieldLengthOk F [].
Proof. intros H. exact H. Qed.

(** *** The inner loop *)

Lemma scanLine_done rest index pos L F d :
  0 <= L -> scanLine rest index pos L F d = (L, F, d).
Proof.
  intros H. destruct rest; simpl;
    replace (L <? 0) with false by (symmetry; apply Z.ltb_ge; lia); reflexivity.
Qed.

Lemma scanLine_nil index pos L F d : scanLine [] index pos L F d = (L, F, d).
Proof. simpl. destruct (L <? 0); reflexivity. Qed.

Lemma scanLine_LF rest index pos L F d :
  L < 0 -> pos <= index ->
  scanLine (LF :: rest) index pos L F d = (index - pos, F, d).
Proof.
  intros HL Hp. simpl.
  replace (L <? 0) with true by (symmetry; apply Z.ltb_lt; lia).
  apply scanLine_done. lia.
Qed.

(** Characters of the line itself: only the first colon is recorded. *)
Lemma scanLine_within b : forall a F L d pos tail,
  L < 0 -> fieldLengthOk F a -> noLF b -> noCR b ->
  exists F', fieldLengthOk F' (a ++ b) /\
    scanLine (b ++ tail) (pos + Z.of_nat (length a)) pos L F d =
    scanLine tail (pos + Z.of_nat (length (a ++ b))) pos L F' d.
Proof.
  induction b as [|c b IH]; intros a F L d pos tail HL HF Hlf Hcr.
  - exists F. rewrite app_nil_r. split; [assumption|reflexivity].
  - inversion Hlf as [|? ? Hc1 Hlf']; inversion Hcr as [|? ? Hc2 Hcr']; subst.
    pose proof (fieldLengthOk_snoc F a c HF) as HF'.
    destruct (IH (a ++ [c])
                (if Ascii.eqb c COLON && (F <? 0) then Z.of_nat (length a) else F)
                L d pos tail HL HF' Hlf' Hcr') as (F' & HF'' & Heq).
    exists F'. rewrite <- app_assoc in HF'', Heq. simpl in HF'', Heq.
    split; [assumption|]. rewrite <- Heq. simpl.
    replace (L <? 0) with true by (symmetry; apply Z.ltb_lt; lia).
    rewrite length_app. simpl length.
    replace (pos + Z.of_nat (length a + 1)) with (pos + Z.of_nat (length a) + 1) by lia.
    replace (pos + Z.of_nat (length a) - pos) with (Z.of_nat (length a)) by lia.
    destruct (Ascii.eqb c COLON && (F <? 0)) eqn:E; [reflexivity|].
    destruct (Ascii.eqb_spec c CR); [contradiction|].
    destruct (Ascii.eqb_spec c LF); [contradiction|]. reflexivity.
Qed.

(** Characters before the start of the line, which the loop scans again
    when it restarts from index 0: they leave both lengths negative. *)
Lemma scanLine_before r1 : forall index pos L F d r2,
  L < 0 -> F < 0 -> index + Z.of_nat (length r1) <= pos -> noCR r1 ->
  exists L' F', L' < 0 /\ F' < 0 /\
    scanLine (r1 ++ r2) index pos L F d =
    scanLine r2 (index + Z.of_nat (length r1)) pos L' F' d.
Proof.
  induction r1 as [|c r1 IH]; intros index pos L F d r2 HL HF Hle Hcr.
  - exists L, F. simpl. rewrite Z.add_0_r. auto.
  - inversion Hcr as [|? ? Hc Hcr']; subst. simpl length in *.
    simpl. replace (L <? 0) with true by (symmetry; apply Z.ltb_lt; lia).
    replace (F <? 0) with true by (symmetry; apply Z.ltb_lt; lia).
    rewrite andb_true_r.
    replace (index + Z.of_nat (S (length r1))) with (index + 1 + Z.of_nat (length r1)) by lia.
    destruct (Ascii.eqb c COLON).
    { apply IH; try assumption; lia. }
    destruct (Ascii.eqb_spec c CR); [contradiction|].
    destruct (Ascii.eqb c LF); apply IH; try assumption; lia.
Qed.

(** *** Slices of a buffer that holds the line at [length pre] *)

Lemma js_slice_mid {A} (pre line post : list A) a b :
  0 <= a <= b -> b <= Z.of_nat (length line) ->
  js_slice (pre ++ line ++ post) (Z.of_nat (length pre) + a) (Z.of_nat (length pre) + b)
  = firstn (Z.to_nat (b - a)) (skipn (Z.to_nat a) line).
Proof.
  intros Hab Hb. unfold js_slice. rewrite !length_app.
  replace (Z.of_nat (length pre) + a <? 0) with false by (symmetry; apply Z.ltb_ge; lia).
  replace (Z.of_nat (length pre) + b <? 0) with false by (symmetry; apply Z.ltb_ge; lia).
  rewrite !Z.min_l by lia.
  replace (Z.to_nat (Z.of_nat (length pre) + a)) with (length pre + Z.to_nat a)%nat by lia.
  replace (Z.of_nat (length pre) + b - (Z.of_nat (length pre) + a)) with (b - a) by lia.
  rewrite List.skipn_app, List.skipn_all2 by lia. simpl.
  replace (length pre + Z.to_nat a - length pre)%nat with (Z.to_nat a) by lia.
  rewrite List.skipn_app, List.firstn_app.
  rewrite List.length_skipn.
  replace (Z.to_nat (b - a) - (length line - Z.to_nat a))%nat with 0%nat by lia.
  simpl. now rewrite app_nil_r.
Qed.

Lemma js_slice_from_skipn {A} (s : list A) n :
  0 <= n <= Z.of_nat (length s) -> js_slice_from s n = skipn (Z.to_nat n) s.
Proof.
  intros H. unfold js_slice_from, js_slice.
  replace (n <? 0) with false by (symmetry; apply Z.ltb_ge; lia).
  replace (Z.of_nat (length s) <? 0) with false by (symmetry; apply Z.ltb_ge; lia).
  rewrite !Z.min_l by lia.
  apply List.firstn_all2. rewrite List.length_skipn. lia.
Qed.

Lemma js_index_mid {A} (pre line post : list A) a :
  0 <= a ->
  js_index (pre ++ line ++ post) (Z.of_nat (length pre) + a)
  = nth_error (line ++ post) (Z.to_nat a).
Proof.
  intros Ha. unfold js_index.
  replace (Z.of_nat (length pre) + a <? 0) with false by (symmetry; apply Z.ltb_ge; lia).
  replace (Z.to_nat (Z.of_nat (length pre) + a)) with (length pre + Z.to_nat a)%nat by lia.
  rewrite List.nth_error_app2 by lia. f_equal. lia.
Qed.

Lemma js_slice_field {A} (pre line post : list A) k :
  0 <= k <= Z.of_nat (length line) ->
  js_slice (pre ++ line ++ post) (Z.of_nat (length pre)) (Z.of_nat (length pre) + k)
  = firstn (Z.to_nat k) line.
Proof.
  intros Hk. rewrite <- (Z.add_0_r (Z.of_nat (length pre))) at 1.
  rewrite js_slice_mid by lia. now rewrite Z.sub_0_r.
Qed.

Lemma js_slice_value {A} (pre line post : list A) k :
  0 <= k <= Z.of_nat (length line) ->
  js_slice (pre ++ line ++ post) (Z.of_nat (length pre) + k)
    (Z.of_nat (length pre) + k + (Z.of_nat (length line) - k))
  = skipn (Z.to_nat k) line.
Proof.
  intros Hk.
  replace (Z.of_nat (length pre) + k + (Z.of_nat (length line) - k))
    with (Z.of_nat (length pre) + Z.of_nat (length line)) by lia.
  rewrite js_slice_mid by lia.
  apply List.firstn_all2. rewrite List.length_skipn. lia.
Qed.

Lemma nth_error_after_colon (line rest : list ascii) n :
  (n <= length line)%nat ->
  nth_error (line ++ LF :: rest) n =
  match skipn n line with
  | c :: _ => Some c
  | [] => Some LF
  end.
Proof.
  intros Hn. destruct (skipn n line) as [|c v] eqn:Es.
  - assert (length (skipn n line) = 0%nat) as Hl by now rewrite Es.
    rewrite List.length_skipn in Hl.
    rewrite List.nth_error_app2 by lia.
    replace (n - length line)%nat with 0%nat by lia. reflexivity.
  - assert (length (skipn n line) = S (length v)) as Hl by now rewrite Es.
    rewrite List.length_skipn in Hl.
    rewrite List.nth_error_app1 by lia.
    rewrite <- (List.firstn_skipn n line) at 1.
    rewrite List.nth_error_app2 by (rewrite List.length_firstn; lia).
    rewrite List.length_firstn, Es.
    replace (n - Nat.min n (length line))%nat with 0%nat by lia.
    reflexivity.
Qed.

(** [parseEventStreamLine] reads nothing but the line it is pointed at,
    and of [fieldLength] only where the first colon is. *)
Lemma parseEventStreamLine_line p pre line rest F :
  fieldLengthOk F line ->
  parseEventStreamLine p (pre ++ line ++ LF :: rest) (Z.of_nat (length pre)) F
    (Z.of_nat (length line))
  = dispatchLine p line.
Proof.
  intros HF. unfold parseEventStreamLine, dispatchLine.
  destruct (list_eq_dec line []) as [->|Hne]; [reflexivity|].
  assert (Hlen : 0 < Z.of_nat (length line)) by (destruct line; [congruence|simpl; lia]).
  replace (Z.of_nat (length line) =? 0) with false by (symmetry; apply Z.eqb_neq; lia).
  transitivity (applyField p (fst (splitField line)) (snd (splitField line)));
    [|destruct line; [congruence|reflexivity]].
  unfold fieldLengthOk in HF. unfold splitField.
  destruct (colonIndex line) as [j|] eqn:Ej.
  - subst F. pose proof (colonIndex_nonneg _ _ Ej) as Hj.
    replace (j <? 0) with false by (symmetry; apply Z.ltb_ge; lia).
    replace (Z.of_nat (length pre) + j + 1) with (Z.of_nat (length pre) + (j + 1)) by lia.
    rewrite js_index_mid by lia.
    rewrite nth_error_after_colon by lia.
    rewrite js_slice_field by lia. simpl fst. simpl snd. f_equal.
    destruct (skipn (Z.to_nat (j + 1)) line) as [|c v] eqn:Es.
    + assert (length (skipn (Z.to_nat (j + 1)) line) = 0%nat) as Hl by now rewrite Es.
      rewrite List.length_skipn in Hl.
      change (Ascii.eqb LF SPACE) with false. cbv iota.
      rewrite js_slice_value by lia. exact Es.
    + assert (length (skipn (Z.to_nat (j + 1)) line) = S (length v)) as Hl by now rewrite Es.
      rewrite List.length_skipn in Hl.
      destruct (Ascii.eqb c SPACE).
      * rewrite js_slice_value by lia.
        replace (Z.to_nat (j + 2)) with (1 + Z.to_nat (j + 1))%nat by lia.
        rewrite <- List.skipn_skipn. rewrite Es. reflexivity.
      * rewrite js_slice_value by lia. exact Es.
  - replace (F <? 0) with true by (symmetry; apply Z.ltb_lt; lia).
    rewrite js_slice_field by lia. rewrite js_slice_value by lia.
    rewrite Nat2Z.id, List.firstn_all, List.skipn_all. reflexivity.
Qed.

(** *** The line-by-line reading *)

Lemma dispatchLine_withFrame p first buf sp sfl line :
  dispatchLine (withFrame p first buf sp sfl) line =
  (withFrame (dispatchLine p line).1 first buf sp sfl, (dispatchLine p line).2).
Proof.
  unfold dispatchLine, dispatchEvent, applyField, withFrame. destruct p; simpl.
  destruct line; simpl.
  - destruct (0 <? _); reflexivity.
  - repeat match goal with
           | |- context [if ?b then _ else _] => destruct b
           | |- context [match parseInt10 ?v with _ => _ end] => destruct (parseInt10 v)
           end; reflexivity.
Qed.

Lemma runText_withFrame first buf sp sfl text : forall p pending,
  runText (withFrame p first buf sp sfl) pending text =
  (withFrame (runText p pending text).1.1 first buf sp sfl,
   (runText p pending text).1.2, (runText p pending text).2).
Proof.
  induction text as [|c text IH]; intros p pending; simpl; [reflexivity|].
  destruct (Ascii.eqb c LF); [|apply IH].
  rewrite dispatchLine_withFrame.
  destruct (dispatchLine p pending) as [p1 out1]. simpl.
  rewrite IH. destruct (runText p1 [] text) as [[q pend] out]. reflexivity.
Qed.

Lemma withFrame_id p :
  withFrame p (isFirstChunk p) (buffer p) (startingPosition p) (startingFieldLength p) = p.
Proof. destruct p; reflexivity. Qed.

Lemma runText_frame p pending text :
  isFirstChunk (runText p pending text).1.1 = isFirstChunk p /\
  buffer (runText p pending text).1.1 = buffer p.
Proof.
  pose proof (runText_withFrame (isFirstChunk p) (buffer p) (startingPosition p)
                (startingFieldLength p) text p pending) as H.
  rewrite withFrame_id in H.
  split.
  - apply (f_equal (fun r => isFirstChunk r.1.1)) in H. exact H.
  - apply (f_equal (fun r => buffer r.1.1)) in H. exact H.
Qed.

Lemma dispatchLine_frame p line :
  isFirstChunk (dispatchLine p line).1 = isFirstChunk p /\
  buffer (dispatchLine p line).1 = buffer p.
Proof.
  pose proof (dispatchLine_withFrame p (isFirstChunk p) (buffer p) (startingPosition p)
                (startingFieldLength p) line) as H.
  rewrite withFrame_id in H.
  split.
  - apply (f_equal (fun r => isFirstChunk r.1)) in H. exact H.
  - apply (f_equal (fun r => buffer r.1)) in H. exact H.
Qed.

Lemma runText_noLF text : forall p pending,
  noLF text -> runText p pending text = (p, pending ++ text, []).
Proof.
  induction text as [|c text IH]; intros p pending H; simpl.
  - now rewrite app_nil_r.
  - inversion H as [|? ? Hc H']; subst.
    destruct (Ascii.eqb_spec c LF); [contradiction|].
    rewrite IH by assumption. now rewrite <- app_assoc.
Qed.

Lemma runText_line line : forall p pending rest,
  noLF line ->
  runText p pending (line ++ LF :: rest) =
  ((runText (dispatchLine p (pending ++ line)).1 [] rest).1,
   (dispatchLine p (pending ++ line)).2 ++
   (runText (dispatchLine p (pending ++ line)).1 [] rest).2).
Proof.
  induction line as [|c line IH]; intros p pending rest H; simpl.
  - rewrite app_nil_r. destruct (dispatchLine p pending) as [p1 out1]. simpl.
    destruct (runText p1 [] rest) as [r out]. reflexivity.
  - inversion H as [|? ? Hc H']; subst.
    destruct (Ascii.eqb_spec c LF); [contradiction|].
    rewrite IH by assumption. now rewrite <- app_assoc.
Qed.

Lemma runText_app t1 : forall p pending t2,
  runText p pending (t1 ++ t2) =
  ((runText (runText p pending t1).1.1 (runText p pending t1).1.2 t2).1,
   (runText p pending t1).2 ++
   (runText (runText p pending t1).1.1 (runText p pending t1).1.2 t2).2).
Proof.
  induction t1 as [|c t1 IH]; intros p pending t2; simpl.
  - destruct (runText p pending t2) as [r out]. reflexivity.
  - destruct (Ascii.eqb c LF); [|apply IH].
    destruct (dispatchLine p pending) as [p1 out1].
    rewrite IH. destruct (runText p1 [] t1) as [[q pend] out]. simpl.
    now rewrite <- app_assoc.
Qed.

Lemma runText_pending text : forall p pending,
  noLF pending -> noCR pending -> noCR text ->
  noLF (runText p pending text).1.2 /\ noCR (runText p pending text).1.2.
Proof.
  induction text as [|c text IH]; intros p pending H1 H2 H3; simpl; [auto|].
  inversion H3 as [|? ? Hc H3']; subst.
  destruct (Ascii.eqb_spec c LF) as [->|Hne].
  - destruct (dispatchLine p pending) as [p1 out1].
    specialize (IH p1 [] ltac:(constructor) ltac:(constructor) H3').
    destruct (runText p1 [] text) as [[q pend] out]. exact IH.
  - apply IH; try assumption; apply Forall_app; split; auto;
      constructor; auto; constructor.
Qed.

Lemma split_at_LF (text : list ascii) :
  noLF text \/ exists line rest, text = line ++ LF :: rest /\ noLF line.
Proof.
  induction text as [|c text IH]; [left; constructor|].
  destruct (Ascii.eqb_spec c LF) as [->|Hne].
  - right. exists [], text. split; [reflexivity|constructor].
  - destruct IH as [IH|(line & rest & -> & IH)].
    + left. constructor; assumption.
    + right. exists (c :: line), rest. split; [reflexivity|constructor; assumption].
Qed.

Lemma align_line (a : list ascii) : forall todo line rest,
  a ++ todo = line ++ LF :: rest -> noLF a -> noLF line ->
  exists line2, line = a ++ line2 /\ todo = line2 ++ LF :: rest.
Proof.
  induction a as [|c a IH]; intros todo line rest E Ha Hl.
  - exists line. auto.
  - inversion Ha as [|? ? Hc Ha']; subst.
    destruct line as [|c' line]; simpl in E.
    + injection E as -> _. contradiction.
    + injection E as <- E. inversion Hl; subst.
      destruct (IH _ _ _ E Ha' ltac:(assumption)) as (line2 & -> & ->).
      exists line2. auto.
Qed.

(** *** The outer loop *)

Lemma Forall_split {A} (P : A -> Prop) n (l : list A) :
  Forall P l -> Forall P (firstn n l) /\ Forall P (skipn n l).
Proof.
  intros H. rewrite <- (List.firstn_skipn n l) in H.
  now apply Forall_app in H.
Qed.

Lemma setScanStart_withFrame p a b :
  setScanStart p a b = withFrame p (isFirstChunk p) (buffer p) a b.
Proof. reflexivity. Qed.

Lemma setScanStart_id p : setScanStart p (startingPosition p) (startingFieldLength p) = p.
Proof. destruct p; reflexivity. Qed.

(** Where the inner loop stands once it reaches unscanned text: [a] is the
    part of the current line it has seen in an earlier call. *)
Lemma scan_start buf p pos :
  0 <= pos <= Z.of_nat (length buf) -> noCR buf ->
  (startingPosition p = 0 /\ startingFieldLength p < 0) \/
  (pos = 0 /\ exists a todo, buf = a ++ todo /\
     startingPosition p = Z.of_nat (length a) /\ noLF a /\
     fieldLengthOk (startingFieldLength p) a) ->
  exists a todo L F,
    skipn (Z.to_nat pos) buf = a ++ todo /\ noLF a /\ L < 0 /\ fieldLengthOk F a /\
    scanLine (skipn (Z.to_nat (startingPosition p)) buf) (startingPosition p) pos
      (-1) (startingFieldLength p) false
    = scanLine todo (pos + Z.of_nat (length a)) pos L F false.
Proof.
  intros Hpos Hcr [[Hsp Hsfl]|(-> & a & todo & -> & Hsp & Ha & Hf)].
  - rewrite Hsp. change (skipn (Z.to_nat 0) buf) with buf.
    destruct (Forall_split _ (Z.to_nat pos) buf Hcr) as [Hcr1 _].
    destruct (scanLine_before (firstn (Z.to_nat pos) buf) 0 pos (-1)
                (startingFieldLength p) false (skipn (Z.to_nat pos) buf))
      as (L & F & HL & HF & Heq); try assumption; try lia.
    { rewrite List.length_firstn. lia. }
    rewrite List.firstn_skipn in Heq.
    exists [], (skipn (Z.to_nat pos) buf), L, F.
    repeat split; try assumption; try constructor.
    rewrite Heq. f_equal. rewrite List.length_firstn. simpl. lia.
  - exists a, todo, (-1), (startingFieldLength p). rewrite Hsp, Nat2Z.id.
    change (skipn (Z.to_nat 0) (a ++ todo)) with (a ++ todo).
    assert (skipn (length a) (a ++ todo) = todo) as ->.
    { rewrite List.skipn_app, List.skipn_all, Nat.sub_diag. reflexivity. }
    repeat split; try assumption; lia.
Qed.

Lemma feedLoop_runText fuel : forall buf p pos,
  (Z.to_nat (Z.of_nat (length buf) - pos) < fuel)%nat ->
  0 <= pos <= Z.of_nat (length buf) -> noCR buf ->
  (startingPosition p = 0 /\ startingFieldLength p < 0) \/
  (pos = 0 /\ exists a todo, buf = a ++ todo /\
     startingPosition p = Z.of_nat (length a) /\ noLF a /\
     fieldLengthOk (startingFieldLength p) a) ->
  exists sfl',
    fieldLengthOk sfl' (runText p [] (skipn (Z.to_nat pos) buf)).1.2 /\
    feedLoop fuel buf p pos false =
    Some (setScanStart (runText p [] (skipn (Z.to_nat pos) buf)).1.1
            (Z.of_nat (length (runText p [] (skipn (Z.to_nat pos) buf)).1.2)) sfl',
          Z.of_nat (length buf) -
          Z.of_nat (length (runText p [] (skipn (Z.to_nat pos) buf)).1.2),
          (runText p [] (skipn (Z.to_nat pos) buf)).2).
Proof.
  induction fuel as [|fuel IH]; intros buf p pos Hfuel Hpos Hcr Hgood; [lia|].
  cbn [feedLoop].
  destruct (Z.ltb_spec pos (Z.of_nat (length buf))) as [Hlt|Hge].
  2:{ assert (pos = Z.of_nat (length buf)) as -> by lia.
      rewrite Nat2Z.id, List.skipn_all. simpl.
      exists (startingFieldLength p).
      assert (startingPosition p = 0 /\ startingFieldLength p < 0) as [Hsp Hsfl].
      { destruct Hgood as [?|(H0 & a & todo & -> & Hsp & Ha & Hf)]; [assumption|].
        rewrite length_app in H0. destruct a; simpl in *; [|lia].
        split; [assumption|exact Hf]. }
      split; [exact Hsfl|].
      change (Z.of_nat 0) with 0.
      rewrite Z.sub_0_r. rewrite <- (setScanStart_id p) at 1.
      rewrite Hsp. reflexivity. }
  destruct (scan_start buf p pos Hpos Hcr Hgood)
    as (a & todo & L & F & Hsuf & Ha & HL & HF & Hscan).
  rewrite Hscan. clear Hscan.
  destruct (Forall_split _ (Z.to_nat pos) buf Hcr) as [_ Hcr2].
  rewrite Hsuf in Hcr2. apply Forall_app in Hcr2 as [Hcra Hcrt].
  assert (Hlen : length (skipn (Z.to_nat pos) buf) = Z.to_nat (Z.of_nat (length buf) - pos))
    by (rewrite List.length_skipn; lia).
  destruct (split_at_LF todo) as [Hno|(line2 & rest & -> & Hl2)].
  - (* the buffer ends inside the line: break *)
    destruct (scanLine_within todo a F L false pos [] HL HF Hno Hcrt)
      as (F' & HF' & Heq).
    rewrite app_nil_r in Heq. rewrite Heq, scanLine_nil.
    replace (L <? 0) with true by (symmetry; apply Z.ltb_lt; lia).
    rewrite Hsuf. rewrite runText_noLF by (apply Forall_app; auto). simpl.
    exists F'. split; [exact HF'|].
    rewrite Hsuf in Hlen.
    replace (Z.of_nat (length (a ++ todo))) with (Z.of_nat (length buf) - pos) by lia.
    replace (Z.of_nat (length buf) - (Z.of_nat (length buf) - pos)) with pos by lia.
    reflexivity.
  - (* a complete line: dispatch it and go on *)
    apply Forall_app in Hcrt as [Hcr2 Hcrr]. inversion Hcrr as [|? ? _ Hcrr']; subst.
    destruct (scanLine_within line2 a F L false pos (LF :: rest) HL HF Hl2 Hcr2)
      as (F' & HF' & Heq).
    rewrite Heq, scanLine_LF by lia.
    set (line := a ++ line2) in *.
    replace (pos + Z.of_nat (length line) - pos) with (Z.of_nat (length line)) by lia.
    replace (Z.of_nat (length line) <? 0) with false by (symmetry; apply Z.ltb_ge; lia).
    assert (Hbuf : buf = firstn (Z.to_nat pos) buf ++ line ++ LF :: rest).
    { rewrite <- (List.firstn_skipn (Z.to_nat pos) buf) at 1. rewrite Hsuf.
      subst line. now rewrite <- app_assoc. }
    assert (Hpre : Z.of_nat (length (firstn (Z.to_nat pos) buf)) = pos)
      by (rewrite List.length_firstn; lia).
    assert (Hparse : parseEventStreamLine (setScanStart p 0 (-1)) buf pos F'
                       (Z.of_nat (length line))
                     = dispatchLine (setScanStart p 0 (-1)) line).
    { pose proof (parseEventStreamLine_line (setScanStart p 0 (-1))
                    (firstn (Z.to_nat pos) buf) line rest F' HF') as H.
      rewrite Hpre in H. rewrite <- Hbuf in H. exact H. }
    rewrite Hparse. clear Hparse.
    destruct (dispatchLine (setScanStart p 0 (-1)) line) as [p1 out1] eqn:Ed.
    assert (Hlen' : Z.of_nat (length buf) = pos + Z.of_nat (length line) + 1 + Z.of_nat (length rest)).
    { rewrite Hbuf at 1. rewrite !length_app. simpl length. lia. }
    assert (Hrest : skipn (Z.to_nat (pos + Z.of_nat (length line) + 1)) buf = rest).
    { rewrite Hbuf.
      replace (Z.to_nat (pos + Z.of_nat (length line) + 1))
        with (length (firstn (Z.to_nat pos) buf) + (length line + 1))%nat by lia.
      rewrite List.skipn_app, List.skipn_all2 by lia. simpl.
      replace (length (firstn (Z.to_nat pos) buf) + (length line + 1) -
               length (firstn (Z.to_nat pos) buf))%nat with (length line + 1)%nat by lia.
      rewrite List.skipn_app, List.skipn_all2 by lia. simpl.
      replace (length line + 1 - length line)%nat with 1%nat by lia. reflexivity. }
    destruct (IH buf p1 (pos + Z.of_nat (length line) + 1)) as (sfl' & Hsfl' & Hloop);
      try assumption; try lia.
    { left. rewrite setScanStart_withFrame, dispatchLine_withFrame in Ed.
      injection Ed as <- _. simpl. lia. }
    rewrite Hloop. rewrite Hrest in *. clear Hloop.
    rewrite Hsuf. rewrite (app_assoc a line2). fold line.
    rewrite runText_line by (subst line; apply Forall_app; auto). simpl app.
    rewrite setScanStart_withFrame, dispatchLine_withFrame in Ed.
    injection Ed as <- <-.
    rewrite runText_withFrame in *. simpl in *.
    exists sfl'. split; [exact Hsfl'|].
    destruct (runText_frame (dispatchLine p line).1 [] rest) as [H1 H2].
    destruct (dispatchLine_frame p line) as [H3 H4].
    unfold setScanStart, withFrame. simpl. rewrite H1, H2, H3, H4. reflexivity.
Qed.

(** *** One call of [feed], and a sequence of calls *)

Lemma runText_suffix text : forall p pending,
  exists pre, pending ++ text = pre ++ (runText p pending text).1.2.
Proof.
  induction text as [|c text IH]; intros p pending; simpl.
  - exists []. now rewrite app_nil_r.
  - destruct (Ascii.eqb_spec c LF) as [->|Hne].
    + destruct (dispatchLine p pending) as [p1 out1].
      destruct (IH p1 []) as [pre Hpre].
      destruct (runText p1 [] text) as [[q pend] out]. simpl in *.
      exists (pending ++ LF :: pre). rewrite <- app_assoc. simpl. now rewrite Hpre.
    + destruct (IH p (pending ++ [c])) as [pre Hpre].
      exists pre. rewrite <- Hpre, <- app_assoc. reflexivity.
Qed.

Lemma runText_shift a : forall p text,
  noLF a -> runText p [] (a ++ text) = runText p a text.
Proof.
  intros p text Ha. rewrite runText_app.
  rewrite !(runText_noLF a p []) by assumption. simpl.
  destruct (runText p a text) as [r out]. reflexivity.
Qed.

Lemma hasBom_length text : hasBom text = true -> (3 <= length text)%nat.
Proof.
  unfold hasBom. simpl. destruct text as [|c1 [|c2 [|c3 text]]]; simpl;
    rewrite ?andb_false_r; try discriminate; intros; lia.
Qed.

Lemma stripBom_noCR text : noCR text -> noCR (stripBom text).
Proof.
  intros H. unfold stripBom. destruct (hasBom text); [|assumption].
  now apply Forall_split.
Qed.

Lemma feedBuffer_scanned p chunk :
  scanned p ->
  feedBuffer p chunk = buffer p ++ (if isFirstChunk p then stripBom chunk else chunk).
Proof.
  intros (_ & _ & _ & _ & Hfirst). unfold feedBuffer.
  assert (match buffer p with [] => chunk | _ :: _ => buffer p ++ chunk end
          = buffer p ++ chunk) as -> by (destruct (buffer p); reflexivity).
  destruct (isFirstChunk p); [|reflexivity].
  rewrite (Hfirst eq_refl). simpl. unfold stripBom.
  destruct (hasBom chunk) eqn:E; [|reflexivity].
  apply hasBom_length in E. apply js_slice_from_skipn. simpl. lia.
Qed.

(** The three-way update of [buffer] that ends [feed] keeps the
    unconsumed tail. *)
Lemma kept_tail {A} (pre pend : list A) :
  (if Z.of_nat (length (pre ++ pend)) - Z.of_nat (length pend)
      =? Z.of_nat (length (pre ++ pend))
   then []
   else if 0 <? Z.of_nat (length (pre ++ pend)) - Z.of_nat (length pend)
        then js_slice_from (pre ++ pend)
               (Z.of_nat (length (pre ++ pend)) - Z.of_nat (length pend))
        else pre ++ pend) = pend.
Proof.
  rewrite length_app.
  destruct (Z.eqb_spec (Z.of_nat (length pre + length pend) - Z.of_nat (length pend))
              (Z.of_nat (length pre + length pend))) as [E|E].
  - destruct pend; [reflexivity|simpl in E; lia].
  - destruct (Z.ltb_spec 0 (Z.of_nat (length pre + length pend) - Z.of_nat (length pend)))
      as [E'|E'].
    + rewrite js_slice_from_skipn by (rewrite length_app; lia).
      replace (Z.to_nat (Z.of_nat (length pre + length pend) - Z.of_nat (length pend)))
        with (length pre) by lia.
      rewrite List.skipn_app, List.skipn_all, Nat.sub_diag. reflexivity.
    + destruct pre; [reflexivity|simpl in E'; lia].
Qed.

(** What one call of [feed] does to a stream without carriage returns. *)
Lemma feed_runText p chunk :
  scanned p -> noCR chunk ->
  exists sfl',
    fieldLengthOk sfl'
      (runText p (buffer p) (if isFirstChunk p then stripBom chunk else chunk)).1.2 /\
    feed p chunk =
    (withFrame
       (runText p (buffer p) (if isFirstChunk p then stripBom chunk else chunk)).1.1
       false
       (runText p (buffer p) (if isFirstChunk p then stripBom chunk else chunk)).1.2
       (Z.of_nat (length
          (runText p (buffer p) (if isFirstChunk p then stripBom chunk else chunk)).1.2))
       sfl',
     (runText p (buffer p) (if isFirstChunk p then stripBom chunk else chunk)).2).
Proof.
  intros Hsc Hcr. pose proof (feedBuffer_scanned p chunk Hsc) as Hbuf.
  destruct Hsc as (Hlf & Hcrb & Hsp & Hsfl & Hfirst).
  set (x := if isFirstChunk p then stripBom chunk else chunk) in *.
  assert (Hcrx : noCR x) by (subst x; destruct (isFirstChunk p); auto using stripBom_noCR).
  unfold feed, feedFuel. rewrite Hbuf.
  set (buf := buffer p ++ x).
  destruct (feedLoop_runText (S (length buf)) buf (setBuffer p buf) 0)
    as (sfl' & Hok & Hloop); try lia.
  { apply Forall_app; auto. }
  { right. split; [reflexivity|]. exists (buffer p), x. simpl. auto. }
  rewrite Hloop. clear Hloop. change (skipn (Z.to_nat 0) buf) with buf in *.
  assert (Hrun : runText (setBuffer p buf) [] buf =
                 (withFrame (runText p (buffer p) x).1.1 false buf
                    (startingPosition p) (startingFieldLength p),
                  (runText p (buffer p) x).1.2, (runText p (buffer p) x).2)).
  { unfold buf at 2. rewrite runText_shift by assumption.
    change (setBuffer p buf) with
      (withFrame p false buf (startingPosition p) (startingFieldLength p)).
    apply runText_withFrame. }
  rewrite Hrun in *. simpl in *.
  destruct (runText_suffix x p (buffer p)) as [pre Hpre]. fold buf in Hpre.
  set (pend := (runText p (buffer p) x).1.2) in *.
  exists sfl'. split; [exact Hok|]. f_equal.
  clearbody pend. clear Hrun Hok. subst buf. rewrite Hpre.
  rewrite kept_tail. reflexivity.
Qed.

Lemma feed_scanned p chunk :
  scanned p -> noCR chunk ->
  scanned (feed p chunk).1 /\ isFirstChunk (feed p chunk).1 = false.
Proof.
  intros Hsc Hcr. destruct (feed_runText p chunk Hsc Hcr) as (sfl' & Hok & ->).
  destruct Hsc as (Hlf & Hcrb & _).
  set (x := if isFirstChunk p then stripBom chunk else chunk) in *.
  assert (Hcrx : noCR x) by (subst x; destruct (isFirstChunk p); auto using stripBom_noCR).
  destruct (runText_pending x p (buffer p) Hlf Hcrb Hcrx) as [H1 H2].
  simpl. repeat split; try assumption; try reflexivity. discriminate.
Qed.

Lemma streamText_false chunks : streamText false chunks = concat chunks.
Proof. destruct chunks; reflexivity. Qed.

Lemma feedAll_runText chunks : forall p,
  scanned p -> Forall noCR chunks ->
  (feedAll p chunks).2 =
  (runText p (buffer p) (streamText (isFirstChunk p) chunks)).2.
Proof.
  induction chunks as [|chunk chunks IH]; intros p Hsc Hcr; [reflexivity|].
  inversion Hcr as [|? ? Hc Hcr']; subst.
  cbn [feedAll streamText].
  destruct (feed_scanned p chunk Hsc Hc) as [Hsc' Hfirst'].
  destruct (feed_runText p chunk Hsc Hc) as (sfl' & Hok & Hfeed).
  specialize (IH (feed p chunk).1 Hsc' Hcr').
  rewrite Hfirst', streamText_false in IH.
  destruct (feed p chunk) as [p1 out1]. simpl in IH.
  destruct (feedAll p1 chunks) as [p2 out2]. simpl in IH. simpl.
  injection Hfeed as -> ->. subst out2.
  rewrite runText_app. simpl. f_equal.
  now rewrite runText_withFrame.
Qed.

Lemma scanned_fresh : scanned createParser2.
Proof. repeat split; simpl; try constructor; try lia. Qed.

Lemma Forall_concat_noCR chunks : noCR (concat chunks) -> Forall noCR chunks.
Proof.
  induction chunks as [|c chunks IH]; simpl; intros H; [constructor|].
  apply Forall_app in H as [H1 H2]. constructor; auto.
Qed.

Lemma streamText_stripBom chunks :
  hasBom (hd [] chunks) = hasBom (concat chunks) ->
  streamText true chunks = stripBom (concat chunks).
Proof.
  destruct chunks as [|c chunks]; simpl; [reflexivity|].
  unfold stripBom. intros <-. destruct (hasBom c) eqn:E; [|reflexivity].
  apply hasBom_length in E.
  rewrite List.skipn_app.
  replace (length BOM - length c)%nat with 0%nat by (simpl; lia). reflexivity.
Qed.

(** The events of a stream without carriage returns are those of the
    line-by-line reading of its text. *)
Lemma decode_runText chunks :
  noCR (concat chunks) ->
  decode chunks = (runText createParser2 [] (streamText true chunks)).2.
Proof.
  intros H. unfold decode.
  now rewrite feedAll_runText by auto using scanned_fresh, Forall_concat_noCR.
Qed.

(** The loop of [feed] ends within the turns it is given, for every
    buffer: the default in [feed] is never used. *)
Lemma feedLoop_total fuel : forall buf p pos d,
  (Z.to_nat (Z.of_nat (length buf) - pos) < fuel)%nat ->
  exists r, feedLoop fuel buf p pos d = Some r.
Proof.
  induction fuel as [|fuel IH]; intros buf p pos d Hfuel; [lia|].
  cbn [feedLoop].
  destruct (Z.ltb_spec pos (Z.of_nat (length buf))) as [Hlt|Hge]; [|eauto].
  set (position1 := if d then _ else pos).
  assert (Hp1 : pos <= position1).
  { subst position1. destruct d; [|lia].
    destruct (js_index buf pos); [|lia]. destruct (Ascii.eqb _ LF); lia. }
  destruct (scanLine _ _ _ _ _ _) as [[lineLength fieldLength] discard'].
  destruct (Z.ltb_spec lineLength 0) as [Hneg|Hnn]; [eauto|].
  destruct (parseEventStreamLine _ _ _ _ _) as [p' out].
  destruct (IH buf p' (position1 + lineLength + 1) discard') as [[[p'' pos'] out'] ->];
    [lia|eauto].
Qed.

Lemma feedFuel_total p chunk :
  exists r, feedFuel (S (length (feedBuffer p chunk))) p chunk = Some r.
Proof.
  unfold feedFuel.
  destruct (feedLoop_total (S (length (feedBuffer p chunk))) (feedBuffer p chunk)
              (setBuffer p (feedBuffer p chunk)) 0 false) as [[[p' pos] out] ->];
    [lia|eauto].
Qed.

Lemma js_slice_drop_last {A} (d : list A) : js_slice d 0 (-1) = removelast d.
Proof.
  destruct d as [|a0 d0]; [reflexivity|].
  assert (Hne : a0 :: d0 <> []) by discriminate.
  revert Hne. generalize (a0 :: d0). clear a0 d0. intros d Hne.
  unfold js_slice. change (0 <? 0) with false. change (-1 <? 0) with true. cbv iota.
  assert (0 < Z.of_nat (length d)) by (destruct d; [congruence|simpl; lia]).
  replace (Z.to_nat (Z.min 0 (Z.of_nat (length d)))) with 0%nat by lia.
  replace (Z.to_nat (Z.max (Z.of_nat (length d) + -1) 0 - Z.min 0 (Z.of_nat (length d))))
    with (length d - 1)%nat by lia.
  change (skipn 0 d) with d.
  destruct (exists_last Hne) as (d' & x & ->).
  rewrite removelast_last, length_app. simpl.
  replace (length d' + 1 - 1)%nat with (length d') by lia.
  rewrite List.firstn_app, List.firstn_all, Nat.sub_diag. simpl. now rewrite app_nil_r.
Qed.

Lemma text_eqb_refl a : text_eqb a a = true.
Proof. unfold text_eqb. now apply bool_decide_eq_true_2. Qed.

Lemma js_slice_snoc {A} (d : list A) x : js_slice (d ++ [x]) 0 (-1) = d.
Proof. rewrite js_slice_drop_last. apply removelast_last. Qed.

(** One data line and a blank line, fed whole. *)
Lemma data_value_unsplit value :
  noCR value -> noLF value ->
  decode [str "data: " ++ value ++ [LF; LF]] = [Event None None value].
Proof.
  intros Hcr Hlf.
  rewrite decode_runText
    by (simpl; rewrite app_nil_r; repeat constructor; try discriminate;
        apply Forall_app; split; [assumption|repeat constructor; discriminate]).
  assert (Hs : streamText true [str "data: " ++ value ++ [LF; LF]]
               = (str "data: " ++ value) ++ LF :: [LF]).
  { unfold streamText, stripBom. simpl concat. rewrite app_nil_r.
    change (hasBom (str "data: " ++ value ++ [LF; LF])) with false. cbv iota.
    now rewrite app_assoc. }
  rewrite Hs.
  rewrite runText_line
    by (repeat constructor; try discriminate; assumption).
  change ([] ++ str "data: " ++ value) with (str "data: " ++ value).
  assert (Hd : dispatchLine createParser2 (str "data: " ++ value)
               = (mkParser true [] 0 (-1) None None (value ++ [LF]), [])).
  { unfold dispatchLine. change (str "data: " ++ value)
      with ("d"%char :: "a"%char :: "t"%char :: "a"%char :: ":"%char :: " "%char :: value).
    cbv beta iota. unfold splitField. simpl colonIndex. cbv beta iota.
    simpl fst. simpl snd. unfold applyField.
    change ["d"%char; "a"%char; "t"%char; "a"%char] with (str "data").
    rewrite text_eqb_refl. reflexivity. }
  rewrite Hd. simpl. unfold dispatchLine, dispatchEvent. simpl data.
  rewrite length_app. simpl length.
  replace (0 <? Z.of_nat (length value + 1)) with true
    by (symmetry; apply Z.ltb_lt; lia).
  simpl. now rewrite js_slice_snoc.
Qed.

(** C1, as the code has it: for a text without carriage returns, cut into
    chunks at any offsets such that the first chunk shows the byte-order
    mark exactly when the text starts with one, a fresh decoder emits the
    same events and reconnect-interval notifications, in the same order, as
    for the whole text fed as one chunk; in particular, when the text is
    one data field followed by a blank line, it emits the one event that
    holds the value. *)
Theorem chunking_without_carriage_return (chunks : list (list ascii)) :
  noCR (concat chunks) ->
  hasBom (hd [] chunks) = hasBom (concat chunks) ->
  decode chunks = decode [concat chunks] /\
  (forall value,
     concat chunks = str "data: " ++ value ++ [LF; LF] -> noLF value ->
     decode chunks = [Event None None value]).
Proof.
  intros Hcr Hbom.
  assert (Heq : decode chunks = decode [concat chunks]).
  { rewrite (decode_runText chunks Hcr).
    rewrite (decode_runText [concat chunks]) by (simpl; now rewrite app_nil_r).
    rewrite (streamText_stripBom chunks Hbom). simpl. now rewrite app_nil_r. }
  split; [exact Heq|].
  intros value Htext Hlf. rewrite Heq, Htext. apply data_value_unsplit; [|assumption].
  rewrite Htext in Hcr. unfold noCR in Hcr.
  apply Forall_app in Hcr as [_ Hcr]. now apply Forall_app in Hcr as [Hcr _].
Qed.

Lemma chunking_without_carriage_return_witness :
  decode [str "data: he"; str "llo" ++ [LF]; [LF]] = [Event None None (str "hello")].
Proof.
  apply (chunking_without_carriage_return [str "data: he"; str "llo" ++ [LF]; [LF]]).
  - unfold noCR. repeat constructor; discriminate.
  - reflexivity.
  - reflexivity.
  - repeat constructor; discriminate.
Defined.

(** C1 as stated fails: a line end "\r\n" cut between its two characters
    yields two events where the uncut text yields one; a byte-order mark
    cut by the first chunk boundary is not removed; and two lines, the first
    ended by "\r" alone, yield their event only when a chunk boundary
    follows the "\r". *)
Lemma chunking_counterexample :
  (decode [str "data: a" ++ [CR]; [LF] ++ str "data: b" ++ [CR; LF; CR; LF]]
     = [Event None None (str "a"); Event None None (str "b")] /\
   decode [concat [str "data: a" ++ [CR]; [LF] ++ str "data: b" ++ [CR; LF; CR; LF]]]
     = [Event None None (str "a" ++ [LF] ++ str "b")]) /\
  (decode [[ascii_of_nat 239];
           [ascii_of_nat 187; ascii_of_nat 191] ++ str "data: a" ++ [LF; LF]]
     = [] /\
   decode [concat [[ascii_of_nat 239];
           [ascii_of_nat 187; ascii_of_nat 191] ++ str "data: a" ++ [LF; LF]]]
     = [Event None None (str "a")]) /\
  (decode [str "data: x" ++ [CR]; str "data: y" ++ [LF; LF]]
     = [Event None None (str "x" ++ [LF] ++ str "y")] /\
   decode [concat [str "data: x" ++ [CR]; str "data: y" ++ [LF; LF]]] = []).
Proof. repeat split; vm_compute; reflexivity. Qed.

(** The same cause makes the grouping of lines depend on the chunking even
    when no line end is cut: after a "\r\n" line end, a blank line made of
    "\n" alone is lost when it arrives in the same chunk. *)
Lemma mixed_line_ends_example :
  decode [str "data: a" ++ [CR; LF]; str "data: b" ++ [LF; LF]]
    = [Event None None (str "a" ++ [LF] ++ str "b")] /\
  decode [concat [str "data: a" ++ [CR; LF]; str "data: b" ++ [LF; LF]]] = [].
Proof. split; vm_compute; reflexivity. Qed.

(** C8: on a blank line the pending event name is reset in every case; the
    pending id is kept when no data has accumulated and cleared, with the
    data, when an event is dispatched; the event carries the data without
    its last character, the line feed that ends every data line.  For the
    two chunks of the example the events are the two listed, the second
    without an id. *)
Theorem blank_line_dispatch :
  (forall p lineBuffer index fieldLength,
     let r := parseEventStreamLine p lineBuffer index fieldLength 0 in
     eventName r.1 = None /\
     match data p with
     | [] => eventId r.1 = eventId p /\ data r.1 = [] /\ r.2 = []
     | _ :: _ =>
         eventId r.1 = None /\ data r.1 = [] /\
         r.2 = [Event (eventId p) (orUndefined (eventName p)) (removelast (data p))]
     end) /\
  (forall p value, removelast (data p ++ value ++ [LF]) = data p ++ value) /\
  decode [str "id: 1" ++ [LF] ++ str "data: {" ++ ["034"%char] ++ str "a" ++
            ["034"%char] ++ str ":1}" ++ [LF];
          [LF] ++ str "data: done" ++ [LF; LF]]
  = [Event (Some (str "1")) None
       (str "{" ++ ["034"%char] ++ str "a" ++ ["034"%char] ++ str ":1}");
     Event None None (str "done")].
Proof.
  split; [|split].
  - intros p lineBuffer index fieldLength. simpl.
    unfold parseEventStreamLine, dispatchEvent. simpl (0 =? 0). cbv iota.
    rewrite js_slice_drop_last.
    destruct (data p) as [|c d] eqn:E; simpl; auto.
  - intros p value. rewrite app_assoc. apply removelast_last.
  - vm_compute. reflexivity.
Qed.

(** *** Events need a blank line *)

Lemma applyField_notices p field value : Forall isNotice (applyField p field value).2.
Proof.
  unfold applyField.
  repeat match goal with
         | |- context [if ?b then _ else _] => destruct b
         | |- context [match parseInt10 ?v with _ => _ end] => destruct (parseInt10 v)
         end; simpl; repeat constructor.
Qed.

Lemma dispatchEvent_empty p :
  data p = [] -> (dispatchEvent p).2 = [] /\ data (dispatchEvent p).1 = [].
Proof. intros H. unfold dispatchEvent. rewrite H. simpl. auto. Qed.

Lemma runText_no_event text : forall p pending,
  noDoubleLF text ->
  hd_error text <> Some LF \/ pending <> [] \/ data p = [] ->
  Forall isNotice (runText p pending text).2.
Proof.
  induction text as [|c text IH]; intros p pending Hdbl Hstart; [constructor|].
  cbn [runText].
  assert (Hdbl' : noDoubleLF text) by (destruct text; [exact I|apply Hdbl]).
  destruct (Ascii.eqb_spec c LF) as [->|Hne].
  - assert (Hnext : hd_error text <> Some LF).
    { destruct text as [|c2 text']; [discriminate|]. simpl. intros [= ->].
      destruct Hdbl as [H _]. apply H. auto. }
    destruct (dispatchLine p pending) as [p1 out1] eqn:Ed.
    specialize (IH p1 [] Hdbl' (or_introl Hnext)).
    destruct (runText p1 [] text) as [r out]. simpl in *.
    apply Forall_app. split; [|exact IH].
    unfold dispatchLine in Ed. destruct pending as [|c0 pending0].
    + destruct Hstart as [H|[H|H]]; try (now destruct H).
      destruct (dispatchEvent_empty p H) as [H1 _]. rewrite Ed in H1. simpl in H1.
      subst out1. constructor.
    + pose proof (applyField_notices p (splitField (c0 :: pending0)).1
                    (splitField (c0 :: pending0)).2) as Hn.
      rewrite Ed in Hn. exact Hn.
  - apply IH; [exact Hdbl'|]. right. left. now destruct pending.
Qed.

(** For a stream without carriage returns, cut anywhere: as long as its
    text has no blank line, no event is emitted, whatever data has
    accumulated; only reconnect-interval notifications are. *)
Lemma no_event_without_blank_line chunks :
  noCR (concat chunks) ->
  noDoubleLF (streamText true chunks) ->
  Forall isNotice (decode chunks).
Proof.
  intros Hcr Hdbl. rewrite decode_runText by assumption.
  apply runText_no_event; [assumption|]. right. right. reflexivity.
Qed.

(** An event comes only from a line of length zero, when data has
    accumulated. *)
Lemma event_only_on_blank_line p lineBuffer index fieldLength lineLength :
  Forall isNotice (parseEventStreamLine p lineBuffer index fieldLength lineLength).2 \/
  (lineLength = 0 /\ data p <> []).
Proof.
  unfold parseEventStreamLine. destruct (Z.eqb_spec lineLength 0) as [->|Hne].
  - unfold dispatchEvent. destruct (data p) eqn:E; simpl.
    + left. constructor.
    + right. split; [reflexivity|discriminate].
  - left. apply applyField_notices.
Qed.

(** C6 at the failing input: the text is the single line "data: a" ended by
    "\r\n", with no blank line after it, and an event is emitted once the
    "\n" arrives in a chunk of its own. *)
Lemma event_for_unfinished_block :
  decode [str "data: a" ++ [CR]] = [] /\
  decode [str "data: a" ++ [CR]; [LF]] = [Event None None (str "a")] /\
  decode [str "data: a" ++ [CR; LF]] = [].
Proof. repeat split; vm_compute; reflexivity. Qed.

End DecoderFacts.

(** ** The deadline wrapper *)

Module PTimeoutFacts.
Import Js PTimeout.

Section Facts.

Variable ToString : Value -> list ascii.
Context {A : Type}.

#[local] Abbreviation Options := (Options (A := A)).
#[local] Abbreviation Wrapper := (Wrapper (A := A)).
#[local] Abbreviation Tick := (Tick (A := A)).
#[local] Abbreviation tick := (tick ToString (A := A)).
#[local] Abbreviation run := (run ToString (A := A)).

(** A settled promise stays as it is. *)
Lemma outcome_stable cancelable (options : Options) (ticks : list Tick) :
  forall w : Wrapper,
    isPending (outcome w) = false ->
    outcome (fold_left (tick cancelable options) ticks w) = outcome w.
Proof.
  induction ticks as [|t ticks IH]; intros w Hw; [reflexivity|].
  simpl. rewrite IH.
  - destruct t; simpl;
      repeat match goal with
             | |- context [if ?b then _ else _] => destruct b
             | |- context [match fallback ?o with _ => _ end] =>
                 destruct (fallback o) as [[?|?]|]
             end; simpl; try reflexivity;
      destruct (outcome w); simpl in *; congruence.
  - destruct t; simpl;
      repeat match goal with
             | |- context [if ?b then _ else _] => destruct b
             | |- context [match fallback ?o with _ => _ end] =>
                 destruct (fallback o) as [[?|?]|]
             end; simpl; try assumption;
      destruct (outcome w); simpl in *; congruence.
Qed.

(** Without an armed timer the cancellation hook is not called, and no
    timer is armed later. *)
Lemma no_timer_no_cancel cancelable (options : Options) (ticks : list Tick) :
  forall w : Wrapper,
    timer w = false ->
    timer (fold_left (tick cancelable options) ticks w) = false /\
    cancelCalls (fold_left (tick cancelable options) ticks w) = cancelCalls w.
Proof.
  induction ticks as [|t ticks IH]; intros w Hw; [auto|].
  simpl.
  assert (timer (tick cancelable options w t) = false /\
          cancelCalls (tick cancelable options w t) = cancelCalls w) as [H1 H2].
  { destruct t; simpl; rewrite ?Hw;
      repeat match goal with
             | |- context [if ?b then _ else _] => destruct b
             end; simpl; auto. }
  destruct (IH _ H1) as [H3 H4]. split; [assumption|congruence].
Qed.

(** A wrapper rejected at the call, with no timer and no subscription,
    never changes. *)
Lemma inert_wrapper cancelable (options : Options) (ticks : list Tick) e :
  fold_left (tick cancelable options) ticks (mkWrapper (Rejected e) false false false 0)
  = mkWrapper (Rejected e) false false false 0.
Proof. induction ticks as [|[r| | |r] ticks IH]; simpl; [reflexivity|assumption..]. Qed.

(** The duration is positive exactly when the rational that a finite
    number holds is above zero. *)
Lemma positive_finite q : positiveNumber (Num (Finite q)) = negb (Qle_bool q 0).
Proof.
  unfold positiveNumber, signIsOne, Qle_bool. cbn [Qnum Qden inject_Z].
  destruct (Z.ltb_spec 0 (Qnum q)), (Z.leb_spec (Qnum q * 1) (0 * QDen q));
    try reflexivity; lia.
Qed.

(** C5, as the code has it.  The wrapper is given the promise of an
    operation that its caller has started; for options without a fallback,
    with a message that is not an [Error], and a signal that is absent or
    not aborted at the call, by the value of [milliseconds]:
    - a finite number above zero: the wrapper is pending with its timer
      armed; if the operation is fulfilled first, the wrapper is fulfilled
      with the same value, if it is rejected first, the wrapper is rejected
      with the same value, and in both cases the hook is never called; if
      the timer fires first (and the hook, when there is one, returns), the
      wrapper is rejected with a [TimeoutError] and the hook has been called
      exactly once, whatever happens next;
    - infinite: no timer is ever armed, the hook is never called and the
      wrapper is fulfilled or rejected as the operation is;
    - anything else (zero, a negative number, [NaN], minus infinity, a
      value that is not a number): the wrapper is rejected with a
      [TypeError] by the call itself and, whatever happens next (the
      operation may well settle), stays so: it does not await the
      operation, arms no timer and never calls the hook. *)
Theorem deadline_wrapper (cancelable : bool) (options : Options) (ticks : list Tick) :
  fallback options = None ->
  (forall e, message options <> MessageError e) ->
  (forall sg, signal options = Some sg -> aborted sg = false) ->
  match milliseconds options with
  | Num PosInfinity =>
      outcome (pTimeout2 ToString options) = Pending /\
      timer (run cancelable options ticks) = false /\
      cancelCalls (run cancelable options ticks) = 0%nat /\
      (forall v : A,
         outcome (run cancelable options (OperationSettles (inl v) :: ticks))
         = Resolved v) /\
      (forall e : Raised,
         outcome (run cancelable options (OperationSettles (inr e) :: ticks))
         = Rejected e)
  | Num (Finite q) =>
      if Qle_bool q 0 then
        run cancelable options ticks
          = mkWrapper (Rejected (invalidMilliseconds ToString (Num (Finite q))))
              false false false 0 /\
        errName (invalidMilliseconds ToString (Num (Finite q))) = str "TypeError"
      else
        outcome (pTimeout2 ToString options) = Pending /\
        timer (pTimeout2 ToString options) = true /\
        (forall v : A,
           outcome (run cancelable options (OperationSettles (inl v) :: ticks))
           = Resolved v /\
           cancelCalls (run cancelable options (OperationSettles (inl v) :: ticks))
           = 0%nat) /\
        (forall e : Raised,
           outcome (run cancelable options (OperationSettles (inr e) :: ticks))
           = Rejected e /\
           cancelCalls (run cancelable options (OperationSettles (inr e) :: ticks))
           = 0%nat) /\
        outcome (run cancelable options (TimerFires :: ticks))
          = Rejected (timeoutError ToString options) /\
        errName (timeoutError ToString options) = str "TimeoutError" /\
        cancelCalls (run cancelable options (TimerFires :: ticks))
          = (if cancelable then 1%nat else 0%nat)
  | ms =>
      run cancelable options ticks
        = mkWrapper (Rejected (invalidMilliseconds ToString ms)) false false false 0 /\
      errName (invalidMilliseconds ToString ms) = str "TypeError"
  end.
Proof.
  intros Hfb Hmsg Hsig.
  assert (Hinvalid : forall ms, milliseconds options = ms -> positiveNumber ms = false ->
            run cancelable options ticks
              = mkWrapper (Rejected (invalidMilliseconds ToString ms)) false false false 0 /\
            errName (invalidMilliseconds ToString ms) = str "TypeError").
  { intros ms Hms Hpos. split; [|reflexivity].
    unfold run, pTimeout2. rewrite Hms, Hpos. simpl. apply inert_wrapper. }
  assert (Hfirst : forall (r : A + Raised) l,
            outcome (fold_left (tick cancelable options) (OperationSettles r :: ticks)
                       (mkWrapper Pending true true l 0)) = settledAs r /\
            cancelCalls (fold_left (tick cancelable options) (OperationSettles r :: ticks)
                           (mkWrapper Pending true true l 0)) = 0%nat).
  { intros r l. simpl. split.
    - rewrite outcome_stable by (destruct r; reflexivity). destruct r; reflexivity.
    - match goal with
      | |- cancelCalls (fold_left _ _ ?w) = _ =>
          destruct (no_timer_no_cancel cancelable options ticks w eq_refl) as [_ ->]
      end. reflexivity. }
  destruct (milliseconds options) as [| |b|[| | |q]|s|l|f] eqn:Ems;
    cbv zeta; try (apply Hinvalid; reflexivity).
  - (* +Infinity *)
    assert (Hinit : pTimeout2 ToString options = mkWrapper Pending false true false 0)
      by (unfold pTimeout2; rewrite Ems; reflexivity).
    unfold run. rewrite Hinit.
    destruct (no_timer_no_cancel cancelable options ticks
                (mkWrapper Pending false true false 0) eq_refl) as [H1 H2].
    repeat split; try assumption.
    + intros v. simpl. now rewrite outcome_stable.
    + intros e. simpl. now rewrite outcome_stable.
  - (* a finite number *)
    pose proof (positive_finite q) as Hpos.
    destruct (Qle_bool q 0); cbn [negb] in Hpos.
    + apply (Hinvalid (Num (Finite q))); [reflexivity|assumption].
    + assert (Hinit : exists l,
                 pTimeout2 ToString options = mkWrapper Pending true true l 0).
      { unfold pTimeout2. rewrite Ems, Hpos. simpl.
        destruct (signal options) as [sg|] eqn:Esg;
          [rewrite (Hsig sg eq_refl)|]; eauto. }
      destruct Hinit as [l Hinit].
      split; [now rewrite Hinit|]. split; [now rewrite Hinit|].
      split; [|split; [|split; [|split]]].
      * intros v. unfold run. rewrite Hinit. apply (Hfirst (inl v)).
      * intros e. unfold run. rewrite Hinit. apply (Hfirst (inr e)).
      * unfold run. rewrite Hinit. simpl. rewrite Hfb.
        now rewrite outcome_stable by reflexivity.
      * unfold timeoutError. destruct (message options) eqn:E; try reflexivity.
        now destruct (Hmsg e).
      * unfold run. rewrite Hinit. simpl. rewrite Hfb.
        match goal with
        | |- cancelCalls (fold_left _ _ ?w) = _ =>
            destruct (no_timer_no_cancel cancelable options ticks w eq_refl) as [_ ->]
        end. reflexivity.
Qed.

(** When the hook throws, the exception leaves the timer callback before
    [reject] is reached: the hook has been called once and the wrapper goes
    on waiting for the operation. *)
Lemma hook_that_throws (options : Options) l :
  fallback options = None ->
  tick true options (mkWrapper Pending true true l 0) TimerFiresHookThrows
  = mkWrapper Pending false true l 1.
Proof. intros Hfb. cbn. now rewrite Hfb. Qed.

End Facts.

End PTimeoutFacts.

(** ** One exchange inside the page *)

Module PageFacts.
Import Js Decoder Page.

Section Facts.

Variable ToString : Value -> list ascii.
Variable JSON_parse : list ascii -> Value + Error.

#[local] Abbreviation onMessage := (onMessage JSON_parse).
#[local] Abbreviation onParse := (onParse JSON_parse).
#[local] Abbreviation handle := (handle ToString JSON_parse).
#[local] Abbreviation step := (step ToString JSON_parse).
#[local] Abbreviation await := (await ToString JSON_parse).
#[local] Abbreviation knownIds := (knownIds JSON_parse).
#[local] Abbreviation suppliedIds := (suppliedIds JSON_parse).

#[local] Abbreviation coherent := (coherent JSON_parse).

Lemma knownIds_snoc body payloads data :
  knownIds body (payloads ++ [data]) = suppliedIds (knownIds body payloads) data.
Proof. unfold Page.knownIds. now rewrite fold_left_app. Qed.

Lemma onMessage_ids hasSink orig v data :
  idsOf (onMessage hasSink orig v data).1 = suppliedIds (idsOf v) data.
Proof.
  unfold Page.onMessage, Page.suppliedIds, idsOf.
  destruct (text_eqb data DONE); [reflexivity|].
  destruct (JSON_parse data) as [ev|e]; [|reflexivity].
  destruct (truthy ev); simpl; [|reflexivity].
  destruct (truthy (optFirst _)); reflexivity.
Qed.

(** [onMessage] resolves only on [[DONE]], with the variables as they
    are, and leaves them as they are. *)
Lemma onMessage_resolve hasSink orig v data r :
  In (Resolve r) (onMessage hasSink orig v data).2 ->
  data = DONE /\ (onMessage hasSink orig v data).1 = v /\
  r = Snapshot (response v) (conversationId v) (messageId v).
Proof.
  unfold Page.onMessage, text_eqb.
  destruct (bool_decide_reflect (data = DONE)) as [->|Hne]; simpl.
  - intros [[= <-]|[]]. auto.
  - destruct (JSON_parse data) as [ev|e]; [|intros []].
    destruct (truthy ev); simpl; [|intros []].
    destruct (truthy (optFirst _)); simpl; [|intros []].
    destruct hasSink; simpl; [intros [[=]|[]]|intros []].
Qed.

Lemma prefix_grows {B} n (l : list B) d :
  (n <= length l)%nat -> firstn n (l ++ [d]) = firstn n l.
Proof.
  intros H. rewrite List.firstn_app.
  replace (n - length l)%nat with 0%nat by lia. simpl. apply app_nil_r.
Qed.

Lemma applyEffects_coherent body effects : forall x,
  coherent body x ->
  (forall r, In (Resolve r) effects -> resultIds r = knownIds body (seen x)) ->
  coherent body (fold_left applyEffect effects x).
Proof.
  induction effects as [|e effects IH]; intros x Hx Hres; [assumption|].
  simpl. apply IH.
  - destruct Hx as (H1 & H2 & H3). destruct e as [r|p]; simpl.
    + split; [assumption|]. split; [|assumption].
      intros r' Hr'. destruct (responseP x) as [|r0|e0] eqn:E; simpl in Hr'.
      * injection Hr' as <-. exists (length (seen x)). split; [simpl; lia|].
        simpl. rewrite List.firstn_all. apply Hres. now left.
      * apply H2. assumption.
      * discriminate.
    + split; [assumption|]. split; assumption.
  - intros r Hr. destruct e; simpl; apply Hres; now right.
Qed.

Lemma onParse_coherent body hasSink orig x ev :
  coherent body x -> coherent body (onParse hasSink orig x ev).
Proof.
  intros Hx. destruct ev as [id name data|n]; [|assumption].
  unfold Page.onParse.
  pose proof (onMessage_ids hasSink orig (vars x) data) as Hids.
  pose proof (onMessage_resolve hasSink orig (vars x) data) as Hres.
  destruct (onMessage hasSink orig (vars x) data) as [v effects]. simpl in *.
  destruct Hx as (H1 & H2 & H3).
  apply applyEffects_coherent.
  - split; [|split]; simpl.
    + rewrite knownIds_snoc, <- H1. exact Hids.
    + intros r Hr. destruct (H2 r Hr) as (n & Hn & Hk).
      exists n. rewrite length_app, prefix_grows by assumption. split; [lia|assumption].
    + intros w r Hw Hr. destruct (H3 w r Hw Hr) as (n & Hn & Hk).
      exists n. rewrite length_app, prefix_grows by assumption. split; [lia|assumption].
  - intros r Hr. destruct (Hres r Hr) as (-> & -> & ->). simpl.
    rewrite knownIds_snoc, <- H1.
    unfold Page.suppliedIds, text_eqb. rewrite bool_decide_eq_true_2 by reflexivity.
    reflexivity.
Qed.

Lemma onParse_fold_coherent body hasSink orig parsed : forall x,
  coherent body x -> coherent body (fold_left (onParse hasSink orig) parsed x).
Proof.
  induction parsed as [|ev parsed IH]; intros x Hx; [assumption|].
  simpl. apply IH. now apply onParse_coherent.
Qed.

(** The wrapper of a call is resolved only with the value with which
    [responseP] was. *)
Lemma tick_resolved cancelable timeoutMs (w : PTimeout.Wrapper) t r :
  PTimeout.outcome (PTimeout.tick ToString cancelable (timeoutOptions timeoutMs) w t)
    = Resolved r ->
  PTimeout.outcome w = Resolved r \/ t = PTimeout.OperationSettles (inl r).
Proof.
  destruct t as [[v|e]| | |reason]; simpl.
  - destruct (PTimeout.following w); simpl; [|auto].
    destruct (PTimeout.outcome w); simpl; [intros [= ->]; auto|auto|auto].
  - destruct (PTimeout.following w); simpl; [|auto].
    destruct (PTimeout.outcome w); simpl; auto; discriminate.
  - destruct (PTimeout.timer w); simpl; [|auto].
    destruct (PTimeout.outcome w); simpl; auto; discriminate.
  - destruct (PTimeout.timer w); simpl; [|auto].
    destruct cancelable; simpl; [auto|].
    destruct (PTimeout.outcome w); simpl; auto; discriminate.
  - destruct (PTimeout.listening w); simpl; [|auto].
    destruct (PTimeout.outcome w); simpl; auto; discriminate.
Qed.

Lemma deliver_coherent body timeoutMs x :
  coherent body x -> coherent body (deliver ToString timeoutMs x).
Proof.
  intros Hx. unfold deliver.
  destruct (deadline x) as [w|] eqn:Ew; [|exact Hx].
  destruct (responseP x) as [|r|e] eqn:Er; [exact Hx| |];
    destruct Hx as (H1 & H2 & H3); (split; [assumption|]);
    (split; [cbn [responseP seen]; rewrite <- Er; assumption|cbn [deadline seen]]).
  - intros w' r' Hw' Hr'.
    assert (Hw : PTimeout.tick ToString true (timeoutOptions timeoutMs) w
                   (PTimeout.OperationSettles (inl r)) = w') by congruence.
    subst w'. apply tick_resolved in Hr' as [Hr'|[= <-]].
    + now apply (H3 w).
    + now apply H2.
  - intros w' r' Hw' Hr'.
    assert (Hw : PTimeout.tick ToString true (timeoutOptions timeoutMs) w
                   (PTimeout.OperationSettles (inr e)) = w') by congruence.
    subst w'. apply tick_resolved in Hr' as [Hr'|[=]].
    now apply (H3 w).
Qed.

Lemma handle_coherent body hasSink orig timeoutMs x ev :
  coherent body x -> coherent body (handle hasSink orig timeoutMs x ev).
Proof.
  intros Hx. destruct ev as [text| |e|e|]; unfold Page.handle.
  - destruct (reading x); [|assumption].
    destruct (feed (parser x) text) as [parser' parsed].
    apply onParse_fold_coherent. exact Hx.
  - exact Hx.
  - exact Hx.
  - destruct (awaiting x); [assumption|].
    destruct Hx as (H1 & H2 & H3). split; [assumption|]. split; [|assumption].
    simpl. intros r Hr. apply H2. destruct (responseP x); simpl in Hr; congruence.
  - destruct (deadline x) as [w|] eqn:Ew; [|assumption].
    destruct Hx as (H1 & H2 & H3). split; [assumption|]. split; [assumption|].
    cbn [deadline seen]. intros w' r Hw' Hr.
    assert (Hw : PTimeout.tick ToString true (timeoutOptions timeoutMs) w
                   PTimeout.TimerFires = w') by congruence.
    subst w'. apply tick_resolved in Hr as [Hr|[=]].
    now apply (H3 w).
Qed.

Lemma await_coherent body hasSink orig timeoutMs timeline : forall x,
  coherent body x ->
  coherent body (await hasSink orig timeoutMs x timeline).2 /\
  match (await hasSink orig timeoutMs x timeline).1 with
  | Return r => awaited (await hasSink orig timeoutMs x timeline).2 = Resolved r
  | Throw e => awaited (await hasSink orig timeoutMs x timeline).2 = Rejected e
  | Suspended => awaited (await hasSink orig timeoutMs x timeline).2 = Pending
  end.
Proof.
  induction timeline as [|ev timeline IH]; intros x Hx; simpl.
  - destruct (awaited x) eqn:E; simpl; auto.
  - destruct (awaited x) eqn:E; simpl; auto.
    apply IH. apply deliver_coherent, handle_coherent, Hx.
Qed.

Lemma initial_coherent body timeoutMs :
  coherent body (initialExchange ToString body timeoutMs).
Proof.
  split; [reflexivity|]. split; [discriminate|].
  unfold initialExchange. simpl. intros w r.
  destruct (truthy timeoutMs); [|discriminate].
  intros [= <-]. unfold PTimeout.pTimeout2. simpl.
  destruct (PTimeout.positiveNumber timeoutMs); simpl; [|discriminate].
  destruct timeoutMs as [| |b|[| | |q]|s|l|f]; discriminate.
Qed.

Lemma catchBlock_ids v e r :
  catchBlock ToString v e = inl r -> resultIds r = idsOf v.
Proof.
  unfold catchBlock. destruct (raisedToString ToString e); [|discriminate].
  destruct (_ && _); now intros [= <-].
Qed.

(** The end of the body, or its failure, settles nothing: [responseP] is
    left as it was. *)
Lemma end_of_stream_settles_nothing hasSink orig timeoutMs x ev :
  ev = ReadDone \/ (exists e, ev = ReadFails e) ->
  responseP (handle hasSink orig timeoutMs x ev) = responseP x /\
  vars (handle hasSink orig timeoutMs x ev) = vars x.
Proof. intros [->|[e ->]]; split; reflexivity. Qed.

(** *** Without a deadline, only [[DONE]] makes the call return *)

Lemma applyEffects_settledByDone effects : forall x,
  settledByDone x ->
  (forall r, In (Resolve r) effects ->
     In DONE (seen x) /\ exists a b c, r = Snapshot a b c) ->
  settledByDone (fold_left applyEffect effects x).
Proof.
  induction effects as [|e effects IH]; intros x Hx Hres; [assumption|].
  simpl. apply IH.
  - destruct Hx as [Hd Hp]. destruct e as [r|p]; (split; [exact Hd|]); simpl.
    + destruct (Hres r (or_introl eq_refl)) as [Hin (a & b & c & ->)].
      right. split; [|exact Hin].
      destruct Hp as [->|[(a0 & b0 & c0 & ->) _]]; simpl; eauto.
    + exact Hp.
  - intros r Hr. destruct e; simpl; apply (Hres r); now right.
Qed.

Lemma onParse_settledByDone hasSink orig x ev :
  settledByDone x -> settledByDone (onParse hasSink orig x ev).
Proof.
  intros Hx. destruct ev as [id name data|n]; [|assumption].
  unfold Page.onParse.
  pose proof (onMessage_resolve hasSink orig (vars x) data) as Hres.
  destruct (onMessage hasSink orig (vars x) data) as [v effects]. simpl in Hres.
  apply applyEffects_settledByDone.
  - destruct Hx as [Hd Hp]. split; [exact Hd|]. simpl.
    destruct Hp as [Hp|[Hp Hin]]; [now left|].
    right. split; [exact Hp|]. apply in_or_app. now left.
  - intros r Hr. destruct (Hres r Hr) as (-> & _ & ->). simpl.
    split; [apply in_or_app; right; now left|eauto].
Qed.

Lemma onParse_fold_settledByDone hasSink orig parsed : forall x,
  settledByDone x -> settledByDone (fold_left (onParse hasSink orig) parsed x).
Proof.
  induction parsed as [|ev parsed IH]; intros x Hx; [assumption|].
  simpl. apply IH. now apply onParse_settledByDone.
Qed.

Lemma step_settledByDone hasSink orig timeoutMs x ev :
  settledByDone x -> ~ isProgressRejection ev ->
  settledByDone (step hasSink orig timeoutMs x ev).
Proof.
  intros Hx Hev. unfold Page.step.
  assert (H : settledByDone (handle hasSink orig timeoutMs x ev)).
  { destruct ev as [text| |e|e|]; unfold Page.handle.
    - destruct (reading x); [|assumption].
      destruct (feed (parser x) text) as [parser' parsed].
      apply onParse_fold_settledByDone. exact Hx.
    - exact Hx.
    - exact Hx.
    - now destruct Hev.
    - destruct Hx as [Hd Hp]. rewrite Hd. split; assumption. }
  unfold deliver. destruct H as [Hd Hp]. rewrite Hd. split; assumption.
Qed.

(** For an ok response and no timeout, as long as no call of the progress
    sink is rejected: if the call returns at all, it returns a snapshot
    and a [[DONE]] payload has been seen.  The end of the body, however it
    ends, therefore leaves the call unsettled. *)
Lemma returns_only_after_done body timeoutMs status statusText hasSink timeline r :
  truthy timeoutMs = false ->
  Forall (fun ev => ~ isProgressRejection ev) timeline ->
  (browserPostEventStream ToString JSON_parse body timeoutMs
     (Responds true status statusText) hasSink timeline).1 = Returns r ->
  In DONE (seen (browserPostEventStream ToString JSON_parse body timeoutMs
                   (Responds true status statusText) hasSink timeline).2) /\
  exists a b c, r = Snapshot a b c.
Proof.
  intros Hms Htl. unfold browserPostEventStream, tryBlock. simpl negb. cbv iota.
  assert (H0 : settledByDone (initialExchange ToString body timeoutMs)).
  { unfold initialExchange. rewrite Hms. split; [reflexivity|now left]. }
  revert H0. generalize (initialExchange ToString body timeoutMs).
  generalize (messageId (initialVars body)) as orig.
  induction Htl as [|ev timeline Hev Htl IH]; intros orig x Hx; simpl.
  - destruct Hx as [Hd Hp]. unfold awaited. rewrite Hd.
    destruct Hp as [->|[(a & b & c & Hr0) Hin]]; [discriminate|]. rewrite Hr0.
    cbn [fst snd]. intros [= <-]. split; [exact Hin|eauto].
  - pose proof Hx as [Hd Hp]. unfold awaited. rewrite Hd.
    destruct Hp as [Hp|[(a & b & c & Hr0) Hin]].
    + rewrite Hp. apply IH. now apply step_settledByDone.
    + rewrite Hr0. cbn [fst snd]. intros [= <-]. split; [exact Hin|eauto].
Qed.

(** The browser variant skips a payload that [JSON.parse] rejects: nothing
    changes and nothing is signalled. *)
Lemma unparsable_payload_skipped hasSink orig v data e :
  data <> DONE -> JSON_parse data = inr e ->
  onMessage hasSink orig v data = (v, []).
Proof.
  intros Hne He. unfold Page.onMessage, text_eqb.
  rewrite bool_decide_eq_false_2 by assumption. now rewrite He.
Qed.

(** A payload that parses to a truthy value replaces the ids it supplies
    and, when it holds a non-empty first part, the whole response text,
    which is then reported to the progress sink. *)
Lemma parsed_payload_applied hasSink orig v data ev :
  data <> DONE -> JSON_parse data = inl ev -> truthy ev = true ->
  let part := optFirst (optProp (optProp (getProp ev "message") "content") "parts") in
  let v' := (onMessage hasSink orig v data).1 in
  idsOf v' = suppliedIds (idsOf v) data /\
  response v' = (if truthy part then part else response v) /\
  (onMessage hasSink orig v data).2 =
    (if truthy part && hasSink
     then [Notify (mkPartial orig part (conversationId v') (messageId v'))]
     else []).
Proof.
  intros Hne He Ht. simpl. split; [apply onMessage_ids|].
  unfold Page.onMessage, text_eqb.
  rewrite bool_decide_eq_false_2 by assumption. rewrite He, Ht. simpl.
  destruct (truthy (optFirst _)); simpl; [|auto].
  destruct hasSink; auto.
Qed.

End Facts.

End PageFacts.

(** ** Examples of one exchange *)

Module PageExamples.
Import Js Page Examples.

(** C3 at the failing input: two progress snapshots, then the body ends
    without [[DONE]], or is cut with "TypeError: terminated".  Without a
    timeout the call never settles, although the variables hold the second
    snapshot; with a timeout it returns the timeout as an error object.
    Only [[DONE]] makes it return the last snapshot. *)
Theorem no_snapshot_at_end_of_stream :
  let call := browserPostEventStream exampleToString exampleParse exampleBody in
  let ok := Responds true (Int 200) (Str (str "OK")) in
  (call Undefined ok true (twoSnapshots ++ [ReadDone])).1 = NeverSettles /\
  (call Undefined ok true (twoSnapshots ++ [ReadFails terminated])).1 = NeverSettles /\
  vars (call Undefined ok true (twoSnapshots ++ [ReadFails terminated])).2
    = mkVars (Str (str "Hello")) (Str (str "c1")) (Str (str "m2")) /\
  (call (Int 1000) ok true (twoSnapshots ++ [ReadFails terminated; DeadlineElapses])).1
    = Returns (Failure (str "TimeoutError: ChatGPT timed out waiting for response")
                 Undefined Undefined (Str (str "c1")) (Str (str "m2"))) /\
  (call Undefined ok true (twoSnapshots ++ [Chunk (sse DONE)])).1
    = Returns (Snapshot (Str (str "Hello")) (Str (str "c1")) (Str (str "m2"))).
Proof. repeat split; vm_compute; reflexivity. Qed.

(** The [catch] block does return the last snapshot for that error, when it
    is given it: it is the executor that never passes it on. *)
Lemma catchBlock_terminated :
  catchBlock exampleToString
    (mkVars (Str (str "Hello")) (Str (str "c1")) (Str (str "m2"))) terminated
  = inl (Snapshot (Str (str "Hello")) (Str (str "c1")) (Str (str "m2"))).
Proof. vm_compute. reflexivity. Qed.

(** C10 at the failing input: a progress payload has been given to the
    sink and the call of the sink is rejected with [null], or with
    [undefined].  The executor passes the value to [reject], the [catch]
    block calls [err.toString()] on it, and the [TypeError] of that call
    leaves the function: it throws to its caller, with or without a timeout.
    When the sink is rejected with an [Error] object the same path returns
    an error object with the ids known at that time. *)
Theorem rejection_with_null_is_thrown :
  let call := browserPostEventStream exampleToString exampleParse exampleBody in
  let ok := Responds true (Int 200) (Str (str "OK")) in
  let progress := Chunk (sse (payload "c1" "m1" "Hel")) in
  (call Undefined ok true [progress; ProgressRejects (RaisedValue Null)]).1
    = Throws (plainError (str "TypeError")
                (str "Cannot read properties of null (reading 'toString')")) /\
  (call (Int 1000) ok true [progress; ProgressRejects (RaisedValue Undefined)]).1
    = Throws (plainError (str "TypeError")
                (str "Cannot read properties of undefined (reading 'toString')")) /\
  (call Undefined ok true
     [progress; ProgressRejects (RaisedError (plainError (str "Error") (str "no handler")))]).1
    = Returns (Failure (str "Error: no handler") Undefined Undefined
                 (Str (str "c1")) (Str (str "m1"))).
Proof. repeat split; vm_compute; reflexivity. Qed.

End PageExamples.

(** ** The deadline wrapper at concrete inputs *)

Module PTimeoutExamples.
Import Js PTimeout Examples.

(** The wrapper at concrete inputs: an operation that is fulfilled, and
    one that is rejected, before a deadline of one second; the deadline
    elapsing first, with a hook; an infinite duration; and a duration of
    zero. *)
Lemma deadline_wrapper_witness :
  (outcome (run exampleToString true oneSecond [OperationSettles (inl 7%nat); TimerFires])
     = Resolved 7%nat /\
   cancelCalls (run exampleToString true oneSecond
                  [OperationSettles (inl 7%nat); TimerFires]) = 0%nat) /\
  (outcome (run exampleToString true oneSecond
              [OperationSettles (inr (RaisedError terminated)); TimerFires])
     = Rejected terminated /\
   cancelCalls (run exampleToString true oneSecond
                  [OperationSettles (inr (RaisedError terminated)); TimerFires]) = 0%nat) /\
  (outcome (run exampleToString true oneSecond [TimerFires; OperationSettles (inl 7%nat)])
     = Rejected (plainError (str "TimeoutError") (str "too late")) /\
   cancelCalls (run exampleToString true oneSecond
                  [TimerFires; OperationSettles (inl 7%nat)]) = 1%nat) /\
  (outcome (run exampleToString true unbounded [OperationSettles (inl 7%nat); TimerFires])
     = Resolved 7%nat /\
   outcome (run exampleToString true unbounded
              [OperationSettles (inr (RaisedError terminated)); TimerFires])
     = Rejected terminated /\
   timer (pTimeout2 exampleToString unbounded) = false /\
   cancelCalls (run exampleToString true unbounded [TimerFires]) = 0%nat) /\
  run exampleToString true noTime [OperationSettles (inl 7%nat); TimerFires]
    = mkWrapper
        (Rejected (plainError (str "TypeError")
                     (str "Expected `milliseconds` to be a positive number, got `0`")))
        false false false 0.
Proof.
  pose proof (PTimeoutFacts.deadline_wrapper exampleToString true oneSecond
                [TimerFires] eq_refl ltac:(discriminate) ltac:(discriminate)) as H1.
  pose proof (PTimeoutFacts.deadline_wrapper exampleToString true oneSecond
                [OperationSettles (inl 7%nat)] eq_refl
                ltac:(discriminate) ltac:(discriminate)) as H2.
  pose proof (PTimeoutFacts.deadline_wrapper exampleToString true unbounded
                [TimerFires] eq_refl ltac:(discriminate) ltac:(discriminate)) as H3.
  pose proof (PTimeoutFacts.deadline_wrapper exampleToString true unbounded
                [] eq_refl ltac:(discriminate) ltac:(discriminate)) as H4.
  pose proof (PTimeoutFacts.deadline_wrapper exampleToString true noTime
                [OperationSettles (inl 7%nat); TimerFires] eq_refl
                ltac:(discriminate) ltac:(discriminate)) as H5.
  cbn [milliseconds oneSecond unbounded noTime Int] in H1, H2, H3, H4, H5.
  change (Qle_bool (inject_Z 1000) 0) with false in H1, H2.
  change (Qle_bool (inject_Z 0) 0) with true in H5.
  cbv iota in H1, H2, H5.
  destruct H1 as (_ & _ & Hv & He & _).
  destruct H2 as (_ & _ & _ & _ & Ht & _ & Hc).
  destruct H3 as (_ & _ & Hc3 & Hv3 & He3).
  destruct H4 as (_ & Ht4 & _).
  destruct H5 as [H5 _].
  split; [exact (Hv 7%nat)|]. split; [exact (He (RaisedError terminated))|].
  split; [split; [exact Ht|exact Hc]|].
  split; [|exact H5].
  split; [exact (Hv3 7%nat)|]. split; [exact (He3 (RaisedError terminated))|].
  split; [exact Ht4|exact Hc3].
Defined.

(** C5 as stated fails.  What the wrapper is given is the promise of an
    operation that is running.  With a duration of -1,
    [browserPostEventStream] returns the error of the invalid duration as
    soon as the response is there, but it has made the request (a failed
    [fetch] is what it reports then) and its loop is reading the body; the
    wrapper has not called the hook, so nothing stops it.  And a hook that
    throws is called once, but the wrapper is not rejected with the
    TimeoutError: it goes on waiting, and is fulfilled when the operation
    is. *)
Lemma deadline_wrapper_counterexample :
  let call :=
    Page.browserPostEventStream exampleToString exampleParse exampleBody (Int (-1)) in
  let ok := Page.Responds true (Int 200) (Str (str "OK")) in
  ((call ok true twoSnapshots).1
     = Page.Returns
         (Page.Failure
            (str "TypeError: Expected `milliseconds` to be a positive number, got `-1`")
            Undefined Undefined Undefined (Str (str "m0"))) /\
   Page.reading (call ok true twoSnapshots).2 = true /\
   Page.deadline (call ok true twoSnapshots).2
     = Some (mkWrapper
               (Rejected (plainError (str "TypeError")
                            (str "Expected `milliseconds` to be a positive number, got `-1`")))
               false false false 0) /\
   (call (Page.FetchFails (RaisedError (plainError (str "TypeError") (str "Failed to fetch"))))
      true twoSnapshots).1
     = Page.Returns
         (Page.Failure (str "TypeError: Failed to fetch") Undefined Undefined Undefined
            (Str (str "m0")))) /\
  (outcome (run exampleToString true oneSecond [TimerFiresHookThrows]) = Pending /\
   cancelCalls (run exampleToString true oneSecond [TimerFiresHookThrows]) = 1%nat /\
   outcome (run exampleToString true oneSecond
              [TimerFiresHookThrows; OperationSettles (inl 7%nat)])
     = Resolved 7%nat).
Proof. repeat split; vm_compute; reflexivity. Qed.

(** A zero duration, and an infinite one. *)
Lemma zero_and_infinite_duration :
  run exampleToString true
    (mkOptions (Int 0) None (MessageText (str "too late")) None)
    [OperationSettles (inl 7%nat); TimerFires]
  = mkWrapper
      (Rejected (plainError (str "TypeError")
                   (str "Expected `milliseconds` to be a positive number, got `0`")))
      false false false 0 /\
  run exampleToString true
    (mkOptions (Num PosInfinity) None (MessageText (str "too late")) None)
    [TimerFires; OperationSettles (inl 7%nat)]
  = mkWrapper (Resolved 7%nat) false false false 0.
Proof. split; vm_compute; reflexivity. Qed.

End PTimeoutExamples.

(** ** The direct client *)

Module ApiFacts.
Import Js Api.

(** C9: [get] gives a value only while the time is before the entry's
    expiry; once the time-to-live has elapsed since a [set], with no write
    in between, [get] gives [undefined] and [refreshSession] answers as with
    an empty cache, from the reply of the service; and whenever
    [refreshSession] answers from the cache, the entry has not expired. *)
Theorem expired_credential_is_absent (ToString : Value -> list ascii)
    (t0 now later : Z) (token : Value) (c : Client) (reply : SessionReply) :
  t0 + maxAge (_accessTokenCache c) <= now ->
  (forall t m v, get t m = v -> v <> Undefined ->
     exists expiry, entry m = Some (v, expiry) /\ t < expiry) /\
  get now (set t0 token (_accessTokenCache c)) = Undefined /\
  (refreshSession ToString now later
     (mkClient (set t0 token (_accessTokenCache c)) (_user c)) reply).1
  = (refreshSession ToString now later (closeSession c) reply).1 /\
  (forall t c1, truthy (get t (_accessTokenCache c1)) = true ->
     (refreshSession ToString t later c1 reply).1 = inl (get t (_accessTokenCache c1)) /\
     exists expiry,
       entry (_accessTokenCache c1) = Some (get t (_accessTokenCache c1), expiry) /\
       t < expiry).
Proof.
  intros Hexp.
  assert (Hget : forall t m v, get t m = v -> v <> Undefined ->
                   exists expiry, entry m = Some (v, expiry) /\ t < expiry).
  { intros t m v Hv Hne. unfold get in Hv.
    destruct (entry m) as [[v' expiry]|]; [|congruence].
    destruct (Z.ltb_spec t expiry); [|congruence].
    exists expiry. split; [congruence|assumption]. }
  assert (Hgone : get now (set t0 token (_accessTokenCache c)) = Undefined).
  { unfold get, set. simpl.
    destruct (Z.ltb_spec now (t0 + maxAge (_accessTokenCache c))); [lia|reflexivity]. }
  split; [exact Hget|]. split; [exact Hgone|]. split.
  - unfold refreshSession. simpl _accessTokenCache. rewrite Hgone.
    unfold closeSession, get at 2. simpl.
    destruct (requestToken ToString reply) as [[tok user]|err]; reflexivity.
  - intros t c1 Ht. unfold refreshSession. rewrite Ht. split; [reflexivity|].
    apply Hget; [reflexivity|]. intros E. rewrite E in Ht. discriminate.
Qed.

Lemma expired_credential_is_absent_witness :
  get 3600000 (set 0 (Str (str "token")) (newExpiryMap 3600000)) = Undefined.
Proof.
  exact (proj1 (proj2 (expired_credential_is_absent Examples.exampleToString
                         0 3600000 3600001 (Str (str "token"))
                         (construct 0 3600000 Undefined)
                         (RequestFails Examples.terminated)
                         ltac:(simpl; lia)))).
Defined.

Section OnMessageFacts.

Variable JSON_parse : list ascii -> Value + Error.
Variable markdownToText : Value -> Value.

(** In the direct client a payload that [JSON.parse] rejects is passed to
    [reject]: it ends the call. *)
Lemma unparsable_payload_rejects markdown hasProgress result data e :
  data <> str "[DONE]" -> JSON_parse data = inr e ->
  onMessage JSON_parse markdownToText markdown hasProgress result data
  = (result, [Reject e]).
Proof.
  intros Hne He. unfold onMessage, text_eqb.
  rewrite bool_decide_eq_false_2 by assumption. now rewrite He.
Qed.

End OnMessageFacts.

(** C7 at the failing input: the payload "oops" is not JSON.  The [onMessage]
    of [ChatGPTAPI.sendMessage] rejects the call with the [SyntaxError];
    the [onMessage] of [browserPostEventStream] skips it. *)
Theorem unparsable_payload_is_fatal_in_direct_client :
  let result := mkSendResult Undefined (Str (str "m0")) (Str []) in
  onMessage Examples.exampleParse (fun v => v) true true result (str "oops")
    = (result, [Reject Examples.syntaxError]) /\
  Page.onMessage Examples.exampleParse true (Str (str "m0"))
    (Page.initialVars Examples.exampleBody) (str "oops")
    = (Page.initialVars Examples.exampleBody, []).
Proof. split; vm_compute; reflexivity. Qed.

End ApiFacts.

(** ** The browser client *)

Module BrowserFacts.
Import Js Browser Examples.

Section Facts.

Context {Handler : Type}.
Variable markdownToText : Value -> Value.

#[local] Abbreviation turn := (turn (Handler := Handler) markdownToText).
#[local] Abbreviation doWhile := (doWhile (Handler := Handler) markdownToText).
#[local] Abbreviation sendMessage := (sendMessage (Handler := Handler) markdownToText).

(** A turn that ends in [continue] has counted one more try, the first. *)
Lemma turn_continue w markdown messageId c l c' l' :
  turn w markdown messageId c l = (Continue, c', l') ->
  numTries l' = S (numTries l) /\ (numTries l' < 2)%nat.
Proof.
  unfold Browser.turn.
  repeat match goal with
         | |- context [let '(_, _) := ?e in _] => destruct e
         | |- context [if ?b then _ else _] => destruct b eqn:?
         | |- context [match ?e with EvalThrows _ => _ | _ => _ end] => destruct e
         | |- context [match ?r with Page.Snapshot _ _ _ => _ | _ => _ end] => destruct r
         end;
    intros [= <- <-] || intros [=]; cbn [numTries] in *;
    repeat match goal with
           | H : (_ <=? _)%nat = false |- _ => apply Nat.leb_gt in H
           end; split; lia.
Qed.

(** The loop ends within two turns. *)
Lemma doWhile_total w markdown messageId c l :
  numTries l = 0%nat ->
  exists r, doWhile 2 w markdown messageId c l = Some r.
Proof.
  intros Hl. simpl.
  destruct (turn w markdown messageId c l) as [[[| r | e] c1] l1] eqn:E1; eauto.
  destruct (turn_continue _ _ _ _ _ _ _ E1) as [H1 _].
  destruct (result l1); eauto.
  destruct (turn w markdown messageId c1 l1) as [[[| r | e] c2] l2] eqn:E2; eauto.
  destruct (turn_continue _ _ _ _ _ _ _ E2) as [H2 H3]. lia.
Qed.

Lemma sendMessage_total w markdown messageId onProgress c :
  exists r,
    Browser.doWhile markdownToText 2 w markdown messageId
      (match onProgress with
       | Some h =>
           mkClient (<[messageId := h]> (_messageOnProgressHandlers c))
             (authCalls c) (evalCalls c) (trace c)
       | None => c
       end) (mkLocals 0 false None) = Some r /\
    sendMessage w markdown messageId onProgress c = r.
Proof.
  unfold Browser.sendMessage.
  destruct (doWhile_total w markdown messageId
              (match onProgress with
               | Some h =>
                   mkClient (<[messageId := h]> (_messageOnProgressHandlers c))
                     (authCalls c) (evalCalls c) (trace c)
               | None => c
               end) (mkLocals 0 false None) eq_refl) as [r Hr].
  exists r. rewrite Hr. auto.
Qed.

(** When the first attempt of a signed-in client reports status 401, the
    call makes no other attempt and does not re-authenticate: the
    [continue] reaches the test of the loop with [result] set, the loop
    ends, and the call returns [undefined]. *)
Lemma first_401_ends_the_call w markdown messageId onProgress c
    message statusCode statusText cid mid :
  isAuthenticated w (authCalls c) = true ->
  evaluate w (evalCalls c) = EvalReturns (Page.Failure message statusCode statusText cid mid) ->
  isNumber statusCode 401 = true ->
  (sendMessage w markdown messageId onProgress c).1 = Returned None /\
  trace (sendMessage w markdown messageId onProgress c).2
    = trace c ++ [Evaluate; Cleanup].
Proof.
  intros Hauth Heval H401. unfold Browser.sendMessage, Browser.doWhile, Browser.turn.
  destruct onProgress as [h|]; simpl; rewrite Hauth; simpl; rewrite Heval, H401; simpl;
    (split; [reflexivity|]);
    match goal with
    | |- context [match ?m !! messageId with _ => _ end] => destruct (m !! messageId)
    end; simpl; rewrite <- app_assoc; reflexivity.
Qed.

(** When an attempt of a signed-in client reports a status other than 401
    and 403, the call throws and the handler registered for the message is
    still in the registry. *)
Lemma other_status_keeps_the_handler w markdown messageId h c
    message statusCode statusText cid mid :
  isAuthenticated w (authCalls c) = true ->
  evaluate w (evalCalls c) = EvalReturns (Page.Failure message statusCode statusText cid mid) ->
  isNumber statusCode 401 = false ->
  isNumber statusCode 403 = false ->
  (sendMessage w markdown messageId (Some h) c).1
    = Thrown (chatGPTError message statusCode statusText) /\
  _messageOnProgressHandlers (sendMessage w markdown messageId (Some h) c).2 !! messageId
    = Some h.
Proof.
  intros Hauth Heval H401 H403. unfold Browser.sendMessage, Browser.doWhile, Browser.turn.
  simpl. rewrite Hauth. simpl. rewrite Heval, H401, H403. simpl.
  split; [reflexivity|]. apply lookup_insert_eq.
Qed.


End Facts.

(** C2 at the failing input: a transport that reports 401 and would then
    answer.  The call returns [undefined] after one attempt and no
    re-authentication; the answer is never asked for.  With a transport that
    reports 401 every time the outcome is the same: no second attempt, no
    error. *)
Theorem no_retry_after_401 :
  let call script :=
    sendMessage (fun v => v) (signedIn script) true "m0" (Some 1%nat) freshClient in
  (call unauthorizedThenAnswered).1 = Returned None /\
  trace (call unauthorizedThenAnswered).2 = [Evaluate; Cleanup] /\
  attempts (call unauthorizedThenAnswered).2 = 1%nat /\
  reauthentications (call unauthorizedThenAnswered).2 = 0%nat /\
  (call alwaysUnauthorized).1 = Returned None /\
  attempts (call alwaysUnauthorized).2 = 1%nat.
Proof. repeat split; vm_compute; reflexivity. Qed.

(** C4 at the failing inputs: a transport that reports status 500, and one
    that reports status 403 twice.  The call throws and the registry still
    holds the handler of message "m0"; after a successful call it does
    not. *)
Theorem handler_left_registered :
  let call script :=
    sendMessage (fun v => v) (signedIn script) true "m0" (Some 1%nat) freshClient in
  (call alwaysServerError).1
    = Thrown (chatGPTError (str "ChatGPTAPI error 500") (Int 500)
                (Str (str "Internal Server Error"))) /\
  _messageOnProgressHandlers (call alwaysServerError).2 !! "m0"%string = Some 1%nat /\
  (call alwaysForbidden).1
    = Thrown (chatGPTError (str "ChatGPTAPI error 403") (Int 403) (Str (str "Forbidden"))) /\
  trace (call alwaysForbidden).2
    = [Evaluate; RefreshSession; Delay 1000; Evaluate; RefreshSession] /\
  _messageOnProgressHandlers (call alwaysForbidden).2 !! "m0"%string = Some 1%nat /\
  (call (fun _ => EvalReturns answered)).1 = Returned (Some answered) /\
  _messageOnProgressHandlers (call (fun _ => EvalReturns answered)).2 !! "m0"%string = None.
Proof. repeat split; vm_compute; reflexivity. Qed.

End BrowserFacts.

(** ** Further properties of the decoder *)

Module DecoderMore.
Import Decoder Lines DecoderFacts.

Lemma runText_unfinished text : forall p pending,
  (runText p pending text).1.2 = unfinished pending text.
Proof.
  induction text as [|c text IH]; intros p pending; [reflexivity|].
  cbn [runText unfinished]. destruct (Ascii.eqb c LF); [|apply IH].
  destruct (dispatchLine p pending) as [p1 out1].
  specialize (IH p1 []). destruct (runText p1 [] text) as [r out]. exact IH.
Qed.

Lemma unfinished_app a : forall pending b,
  unfinished pending (a ++ b) = unfinished (unfinished pending a) b.
Proof.
  induction a as [|c a IH]; intros pending b; [reflexivity|].
  simpl. destruct (Ascii.eqb c LF); apply IH.
Qed.

Lemma unfinished_complete text : completeLines text -> unfinished [] text = [].
Proof.
  intros [->|[t ->]]; [reflexivity|]. rewrite unfinished_app. reflexivity.
Qed.

(** The state of the decoder after a sequence of chunks without carriage
    return. *)
Lemma feedAll_state chunks : forall p,
  scanned p -> Forall noCR chunks ->
  scanned (feedAll p chunks).1 /\
  buffer (feedAll p chunks).1 =
    (runText p (buffer p) (streamText (isFirstChunk p) chunks)).1.2.
Proof.
  induction chunks as [|chunk chunks IH]; intros p Hsc Hcr.
  - split; [exact Hsc|reflexivity].
  - inversion Hcr as [|? ? Hc Hcr']; subst.
    cbn [feedAll streamText].
    destruct (feed_scanned p chunk Hsc Hc) as [Hsc' Hfirst'].
    destruct (feed_runText p chunk Hsc Hc) as (sfl' & Hok & Hfeed).
    specialize (IH (feed p chunk).1 Hsc' Hcr').
    rewrite Hfirst', streamText_false in IH.
    destruct (feed p chunk) as [p1 out1]. simpl in IH.
    destruct (feedAll p1 chunks) as [p2 out2]. simpl in IH. simpl.
    injection Hfeed as -> ->. destruct IH as [IH1 IH2]. split; [exact IH1|].
    rewrite IH2. rewrite runText_app. simpl. now rewrite runText_withFrame.
Qed.

(** X1. The [while] loop of [feed] ends: for every state of the decoder and
    every chunk, carriage returns included, one turn per character of the
    buffer and one more are enough, and [feed] returns what the loop
    computed. *)
Theorem feed_loop_terminates (p : Parser) (chunk : list ascii) :
  exists r,
    feedFuel (S (length (feedBuffer p chunk))) p chunk = Some r /\ feed p chunk = r.
Proof.
  destruct (feedFuel_total p chunk) as [r Hr]. exists r. split; [exact Hr|].
  unfold feed. now rewrite Hr.
Qed.

(** X2. For a stream without carriage returns, cut into chunks anywhere,
    what a fresh decoder emits is what reading its text line by line
    gives: the byte-order mark of the first chunk is dropped, a blank line
    dispatches the pending event, any other line is split at its first
    colon, one space after the colon is dropped, and the field is
    applied. *)
Theorem decoder_reads_line_by_line (chunks : list (list ascii)) :
  noCR (concat chunks) ->
  decode chunks = (runText createParser2 [] (streamText true chunks)).2.
Proof. apply decode_runText. Qed.

Lemma decoder_reads_line_by_line_witness :
  decode [str "event: a" ++ [LF] ++ str "da"; str "ta:x" ++ [LF; LF]]
  = (runText createParser2 []
       (str "event: a" ++ [LF] ++ str "data:x" ++ [LF; LF])).2.
Proof.
  apply (decoder_reads_line_by_line
           [str "event: a" ++ [LF] ++ str "da"; str "ta:x" ++ [LF; LF]]).
  unfold noCR. repeat constructor; discriminate.
Defined.

(** X3. Between two calls of [feed], for a stream without carriage
    returns, the buffer of the decoder is exactly the text that follows the
    last line feed received: no completed line is kept, and the next scan
    starts at the end of the buffer. *)
Theorem buffer_keeps_unfinished_line (chunks : list (list ascii)) :
  noCR (concat chunks) ->
  buffer (feedAll createParser2 chunks).1 = unfinished [] (streamText true chunks) /\
  startingPosition (feedAll createParser2 chunks).1
    = Z.of_nat (length (buffer (feedAll createParser2 chunks).1)) /\
  noLF (buffer (feedAll createParser2 chunks).1).
Proof.
  intros Hcr.
  destruct (feedAll_state chunks createParser2 scanned_fresh
              (Forall_concat_noCR chunks Hcr)) as [Hsc Hbuf].
  rewrite Hbuf, runText_unfinished. split; [reflexivity|].
  rewrite <- runText_unfinished with (p := createParser2). rewrite <- Hbuf.
  destruct Hsc as (Hlf & _ & Hsp & _). auto.
Qed.

Lemma buffer_keeps_unfinished_line_witness :
  buffer (feedAll createParser2
            [str "data: a" ++ [LF; LF] ++ str "da"; str "ta: b"]).1
  = str "data: b".
Proof.
  apply (buffer_keeps_unfinished_line
           [str "data: a" ++ [LF; LF] ++ str "da"; str "ta: b"]).
  unfold noCR. repeat constructor; discriminate.
Defined.

(** X4. For a stream without carriage returns, cut anywhere: as long as
    its text has no two line feeds in a row, no event is emitted, whatever
    fields have been read; only reconnect-interval notifications are. *)
Theorem no_event_before_blank_line (chunks : list (list ascii)) :
  noCR (concat chunks) ->
  noDoubleLF (streamText true chunks) ->
  Forall isNotice (decode chunks).
Proof. apply no_event_without_blank_line. Qed.

Lemma no_event_before_blank_line_witness :
  Forall isNotice
    (decode [str "id: 7" ++ [LF] ++ str "da"; str "ta: a" ++ [LF] ++ str "retry: 5" ++ [LF]]).
Proof.
  apply (no_event_before_blank_line
           [str "id: 7" ++ [LF] ++ str "da"; str "ta: a" ++ [LF] ++ str "retry: 5" ++ [LF]]).
  - unfold noCR. repeat constructor; discriminate.
  - vm_compute. repeat split; intros [H1 H2]; discriminate.
Defined.

Lemma dispatchLine_ignored p line :
  ignoredLine line = true -> dispatchLine p line = (p, []).
Proof.
  unfold ignoredLine, dispatchLine. destruct line as [|c line]; [discriminate|].
  set (field := (splitField (c :: line)).1). set (value := (splitField (c :: line)).2).
  unfold applyField.
  destruct (text_eqb field (str "data")); [discriminate|].
  destruct (text_eqb field (str "event")); [discriminate|].
  destruct (text_eqb field (str "id") && negb (includes value NUL)); [discriminate|].
  destruct (text_eqb field (str "retry")); [|reflexivity].
  destruct (parseInt10 value); [discriminate|reflexivity].
Qed.

Lemma completeLines_stripBom text : completeLines text -> completeLines (stripBom text).
Proof.
  intros H. unfold stripBom. destruct (hasBom text) eqn:E; [|exact H].
  apply hasBom_length in E. destruct H as [->|[t ->]]; [left; reflexivity|].
  rewrite length_app in E. simpl in E. rewrite List.skipn_app.
  destruct (Nat.le_gt_cases (length BOM) (length t)) as [Hle|Hgt].
  - right. exists (skipn (length BOM) t).
    replace (length BOM - length t)%nat with 0%nat by lia. reflexivity.
  - left. rewrite List.skipn_all2 by lia.
    replace (length BOM - length t)%nat with 1%nat by (simpl in *; lia). reflexivity.
Qed.

(** X5. A line that the decoder has no use for (a comment, an unknown
    field, an [id] whose value holds a NUL, a [retry] whose value is not a
    number), arriving as a chunk of its own after complete lines, changes
    nothing: the stream with the line and the stream without it emit the
    same events. *)
Theorem ignored_line_changes_nothing (pre line : list ascii) (rest : list (list ascii)) :
  noCR pre -> noCR line -> noCR (concat rest) -> noLF line ->
  completeLines pre ->
  ignoredLine line = true ->
  decode (pre :: (line ++ [LF]) :: rest) = decode (pre :: rest).
Proof.
  intros Hpre Hline Hrest Hlf Hcomplete Hign.
  rewrite !decode_runText.
  - cbn [streamText concat].
    rewrite !(runText_app (stripBom pre)).
    rewrite !runText_unfinished,
      (unfinished_complete _ (completeLines_stripBom pre Hcomplete)).
    cbn [snd]. f_equal. rewrite <- !app_assoc. cbn [app].
    rewrite runText_line by assumption.
    cbn [app snd]. now rewrite dispatchLine_ignored.
  - simpl. apply Forall_app. auto.
  - simpl. repeat (apply Forall_app; split); auto.
Qed.

Lemma ignored_line_changes_nothing_witness :
  decode [str "data: a" ++ [LF]; str ": keep-alive" ++ [LF]; str "data: b" ++ [LF; LF]]
  = decode [str "data: a" ++ [LF]; str "data: b" ++ [LF; LF]].
Proof.
  apply (ignored_line_changes_nothing (str "data: a" ++ [LF]) (str ": keep-alive")
           [str "data: b" ++ [LF; LF]]).
  - unfold noCR. repeat constructor; discriminate.
  - unfold noCR. repeat constructor; discriminate.
  - unfold noCR. repeat constructor; discriminate.
  - unfold noLF. repeat constructor; discriminate.
  - right. exists (str "data: a"). reflexivity.
  - reflexivity.
Defined.







(** X30. The byte-order mark.  When the first chunk starts with the three
    code units of the mark, the decoder drops them: for a stream without
    carriage returns whose first chunk has no mark of its own, putting the
    mark in front of the first chunk changes nothing in what is emitted. *)
Theorem leading_mark_is_dropped (chunk : list ascii) (rest : list (list ascii)) :
  noCR chunk -> noCR (concat rest) ->
  hasBom chunk = false ->
  decode ((map ascii_of_nat BOM ++ chunk) :: rest) = decode (chunk :: rest).
Proof.
  intros Hc Hrest Hbom.
  rewrite !decode_runText.
  - cbn [streamText]. unfold stripBom. rewrite Hbom.
    change (hasBom (map ascii_of_nat BOM ++ chunk)) with true.
    reflexivity.
  - simpl. apply Forall_app. auto.
  - cbn [concat]. rewrite <- app_assoc. apply Forall_app. split.
    + unfold noCR. repeat constructor; discriminate.
    + apply Forall_app. auto.
Qed.

Lemma leading_mark_is_dropped_witness :
  decode [map ascii_of_nat BOM ++ str "data: a" ++ [LF]; [LF]]
  = decode [str "data: a" ++ [LF]; [LF]].
Proof.
  apply (leading_mark_is_dropped (str "data: a" ++ [LF]) [[LF]]).
  - unfold noCR. repeat constructor; discriminate.
  - unfold noCR. repeat constructor; discriminate.
  - reflexivity.
Defined.

End DecoderMore.

(** ** Further properties of the deadline wrapper *)

Module PTimeoutMore.
Import Js PTimeout PTimeoutFacts.

Section Facts.

Variable ToString : Value -> list ascii.
Context {A : Type}.

#[local] Abbreviation Options := (Options (A := A)).
#[local] Abbreviation Wrapper := (Wrapper (A := A)).
#[local] Abbreviation Tick := (Tick (A := A)).
#[local] Abbreviation tick := (tick ToString (A := A)).
#[local] Abbreviation run := (run ToString (A := A)).
#[local] Abbreviation pTimeout2 := (pTimeout2 ToString (A := A)).
#[local] Abbreviation getAbortedReason := (getAbortedReason ToString).

(** The calls of the hook that the options allow: one, when the operation
    has a [cancel] function and no fallback is given. *)
Lemma hook_budget (cancelable : bool) (options : Options) (ticks : list Tick) :
  forall w : Wrapper,
    (timer w = true -> cancelCalls w = 0%nat) ->
    (cancelCalls w <=
       (if cancelable then match fallback options with None => 1 | Some _ => 0 end
        else 0))%nat ->
    (cancelCalls (fold_left (tick cancelable options) ticks w) <=
       (if cancelable then match fallback options with None => 1 | Some _ => 0 end
        else 0))%nat.
Proof.
  induction ticks as [|t ticks IH]; intros w Htimer Hle; [exact Hle|].
  cbn [fold_left]. apply IH.
  - destruct t; cbn [PTimeout.tick].
    + destruct (following w); [cbn [PTimeout.timer]; discriminate|exact Htimer].
    + destruct (timer w) eqn:E; [|rewrite E; discriminate].
      destruct (fallback options) as [[v|e]|]; cbn [PTimeout.timer]; discriminate.
    + destruct (timer w) eqn:E; [|rewrite E; discriminate].
      destruct (fallback options) as [[v|e]|]; [| |destruct cancelable];
        cbn [PTimeout.timer]; discriminate.
    + destruct (listening w); [|exact Htimer]. cbn [PTimeout.timer PTimeout.cancelCalls].
      exact Htimer.
  - destruct t; cbn [PTimeout.tick].
    + destruct (following w); [|exact Hle]. exact Hle.
    + destruct (timer w) eqn:E; [|exact Hle]. specialize (Htimer eq_refl).
      destruct (fallback options) as [[v|e]|]; cbn [PTimeout.cancelCalls];
        destruct cancelable; lia.
    + destruct (timer w) eqn:E; [|exact Hle]. specialize (Htimer eq_refl).
      destruct (fallback options) as [[v|e]|]; [| |destruct cancelable];
        cbn [PTimeout.cancelCalls]; try destruct cancelable; lia.
    + destruct (listening w); exact Hle.
Qed.

(** X7. Whatever the options and whatever happens after the call, the
    cancellation hook of the operation is called at most once, and never
    when the operation has no [cancel] function or a fallback is given. *)
Theorem cancel_at_most_once (cancelable : bool) (options : Options) (ticks : list Tick) :
  (cancelCalls (run cancelable options ticks) <=
     (if cancelable then match fallback options with None => 1 | Some _ => 0 end
      else 0))%nat.
Proof.
  unfold PTimeout.run. apply hook_budget.
  - intros _. unfold PTimeout.pTimeout2.
    destruct (negb _); [reflexivity|].
    destruct (milliseconds options) as [| | |[]|? |? |?]; try reflexivity;
      destruct (signal options); reflexivity.
  - unfold PTimeout.pTimeout2.
    destruct (negb _); [cbn; lia|].
    destruct (milliseconds options) as [| | |[]|? |? |?];
      try destruct (signal options); cbn; lia.
Qed.

(** What the call returns for a duration that is positive and finite. *)
Lemma armed (options : Options) :
  positiveNumber (milliseconds options) = true ->
  milliseconds options <> Num PosInfinity ->
  pTimeout2 options =
  match signal options with
  | Some sg =>
      mkWrapper (if aborted sg then Rejected (getAbortedReason (reason sg)) else Pending)
        true true true 0
  | None => mkWrapper Pending true true false 0
  end.
Proof.
  intros Hpos Hfin. unfold PTimeout.pTimeout2. rewrite Hpos. cbn [negb].
  destruct (milliseconds options) as [| | |[]|? |? |?]; try reflexivity. congruence.
Qed.

(** X8. With a [fallback] option, a positive finite duration and no signal
    aborted at the call: when the timer fires first the wrapper settles as
    the call of the fallback does (its result, or what it throws), it stays
    so whatever happens next, and the operation is not cancelled. *)
Theorem fallback_replaces_timeout (cancelable : bool) (options : Options)
    (ticks : list Tick) (f : A + Raised) :
  positiveNumber (milliseconds options) = true ->
  milliseconds options <> Num PosInfinity ->
  (forall sg, signal options = Some sg -> aborted sg = false) ->
  fallback options = Some f ->
  outcome (run cancelable options (TimerFires :: ticks)) = settledAs f /\
  cancelCalls (run cancelable options (TimerFires :: ticks)) = 0%nat.
Proof.
  intros Hpos Hfin Hsig Hf. unfold PTimeout.run. cbn [fold_left].
  rewrite (armed options Hpos Hfin).
  assert (Hw : exists l,
             tick cancelable options
               match signal options with
               | Some sg =>
                   mkWrapper
                     (if aborted sg then Rejected (getAbortedReason (reason sg))
                      else Pending) true true true 0
               | None => mkWrapper Pending true true false 0
               end TimerFires
             = mkWrapper (settledAs f) false true l 0).
  { destruct (signal options) as [sg|] eqn:E.
    - rewrite (Hsig sg eq_refl). cbn. rewrite Hf. destruct f; eauto.
    - cbn. rewrite Hf. destruct f; eauto. }
  destruct Hw as [l ->]. split.
  - rewrite outcome_stable; [reflexivity|]. destruct f; reflexivity.
  - now destruct (no_timer_no_cancel ToString cancelable options ticks
                    (mkWrapper (settledAs f) false true l 0) eq_refl) as [_ ->].
Qed.


End Facts.

Lemma fallback_replaces_timeout_witness :
  outcome
    (run Examples.exampleToString true
       (mkOptions (Int 1000) (Some (inl 7%nat)) NoMessage None)
       [TimerFires; OperationSettles (inl 1%nat)])
  = Resolved 7%nat.
Proof.
  apply (fallback_replaces_timeout Examples.exampleToString true
           (mkOptions (Int 1000) (Some (inl 7%nat)) NoMessage None)
           [OperationSettles (inl 1%nat)] (inl 7%nat)).
  - reflexivity.
  - discriminate.
  - discriminate.
  - reflexivity.
Defined.


End PTimeoutMore.

(** ** Further properties of one exchange inside the page *)

Module PageMore.
Import Js Decoder Page Provenance PageFacts.

Section Facts.

Variable ToString : Value -> list ascii.
Variable JSON_parse : list ascii -> Value + Error.

#[local] Abbreviation onMessage := (onMessage JSON_parse).
#[local] Abbreviation onParse := (onParse JSON_parse).
#[local] Abbreviation handle := (handle ToString JSON_parse).
#[local] Abbreviation step := (step ToString JSON_parse).
#[local] Abbreviation await := (await ToString JSON_parse).
#[local] Abbreviation settledFrom := (settledFrom ToString).
#[local] Abbreviation traced := (traced ToString).
#[local] Abbreviation readsAsTerminated := (readsAsTerminated ToString).
#[local] Abbreviation catchBlock := (catchBlock ToString).
#[local] Abbreviation browserPostEventStream :=
  (browserPostEventStream ToString JSON_parse).

(** *** Where a returned snapshot comes from *)

Lemma settledFrom_settle ms P done late now s :
  settledFrom ms P done late s -> settledFrom ms P done late now ->
  settledFrom ms P done late (settle now s).
Proof. destruct s; simpl; auto. Qed.

Lemma settledFrom_mono ms P (done done' : Prop) late s :
  (done -> done') -> settledFrom ms P done late s -> settledFrom ms P done' late s.
Proof. intros H. destruct s; simpl; tauto. Qed.

Lemma settledFrom_late ms P done s :
  settledFrom ms P done false s -> settledFrom ms P done true s.
Proof. destruct s; simpl; tauto. Qed.

Lemma applyEffects_traced ms P effects : forall x,
  traced ms P x ->
  (forall r, In (Resolve r) effects -> isSnapshot r /\ In DONE (seen x)) ->
  traced ms P (fold_left applyEffect effects x).
Proof.
  induction effects as [|e effects IH]; intros x Hx Hres; [assumption|].
  cbn [fold_left]. apply IH.
  - destruct Hx as [Hr Hd]. destruct e as [r|p]; (split; [|exact Hd]); cbn.
    + apply settledFrom_settle; [exact Hr|]. apply (Hres r). now left.
    + exact Hr.
  - intros r Hr. destruct e; cbn; apply (Hres r); now right.
Qed.

Lemma onParse_traced ms P hasSink orig x ev :
  traced ms P x -> traced ms P (onParse hasSink orig x ev).
Proof.
  intros Hx. destruct ev as [id name data|n]; [|assumption].
  unfold Page.onParse.
  pose proof (onMessage_resolve JSON_parse hasSink orig (vars x) data) as Hres.
  destruct (onMessage hasSink orig (vars x) data) as [v effects]. cbn [snd fst] in Hres.
  apply applyEffects_traced.
  - destruct Hx as [Hr Hd]. split; cbn.
    + eapply settledFrom_mono; [|exact Hr]. intros H. apply in_or_app. now left.
    + destruct (deadline x); [|exact I].
      eapply settledFrom_mono; [|exact Hd]. intros H. apply in_or_app. now left.
  - intros r Hr. destruct (Hres r Hr) as (-> & _ & ->). cbn.
    split; [exact I|]. apply in_or_app. right. now left.
Qed.

Lemma onParse_fold_traced ms P hasSink orig parsed : forall x,
  traced ms P x -> traced ms P (fold_left (onParse hasSink orig) parsed x).
Proof.
  induction parsed as [|ev parsed IH]; intros x Hx; [assumption|].
  cbn [fold_left]. apply IH. now apply onParse_traced.
Qed.

Lemma handle_traced ms (P : Raised -> Prop) hasSink orig x ev :
  traced ms P x -> (forall e, ev = ProgressRejects e -> P e) ->
  traced ms P (handle hasSink orig ms x ev).
Proof.
  intros Hx Hev. destruct ev as [text| |e|e|]; unfold Page.handle.
  - destruct (reading x); [|assumption].
    destruct (feed (parser x) text) as [parser' parsed].
    apply onParse_fold_traced. exact Hx.
  - exact Hx.
  - exact Hx.
  - destruct (awaiting x); [assumption|]. destruct Hx as [Hr Hd]. split; [|exact Hd].
    cbn. apply settledFrom_settle; [exact Hr|]. left. now apply Hev.
  - destruct Hx as [Hr Hd]. destruct (deadline x) as [w|] eqn:E; [|split; [exact Hr|]].
    2:{ now rewrite E. }
    split; [exact Hr|]. cbn [deadline seen]. unfold PTimeout.tick.
    destruct (PTimeout.timer w); [|exact Hd]. cbn.
    apply settledFrom_settle; [exact Hd|]. right. split; [reflexivity|]. now left.
Qed.

Lemma deliver_traced ms P x :
  traced ms P x -> traced ms P (deliver ToString ms x).
Proof.
  intros [Hr Hd]. unfold deliver.
  destruct (deadline x) as [w|] eqn:E; [|split; [exact Hr|now rewrite E]].
  destruct (responseP x) as [|r|e] eqn:Er.
  - split; [now rewrite Er|now rewrite E].
  - split; [exact Hr|]. cbn [deadline seen]. unfold PTimeout.tick.
    destruct (PTimeout.following w); [|exact Hd]. cbn.
    apply settledFrom_settle; [exact Hd|exact Hr].
  - split; [exact Hr|]. cbn [deadline seen]. unfold PTimeout.tick.
    destruct (PTimeout.following w); [|exact Hd]. cbn.
    apply settledFrom_settle; [exact Hd|]. now apply settledFrom_late.
Qed.

Lemma await_traced ms (P : Raised -> Prop) hasSink orig timeline : forall x,
  traced ms P x ->
  Forall (fun ev => forall e, ev = ProgressRejects e -> P e) timeline ->
  traced ms P (await hasSink orig ms x timeline).2.
Proof.
  induction timeline as [|ev timeline IH]; intros x Hx Htl; cbn [Page.await].
  - destruct (awaited x); exact Hx.
  - destruct (awaited x); [|exact Hx..]. inversion Htl as [|? ? Hev Htl']; subst.
    apply IH; [|exact Htl']. apply deliver_traced, handle_traced; assumption.
Qed.

Lemma initial_traced body ms P :
  traced ms P (initialExchange ToString body ms).
Proof.
  split; [exact I|]. unfold initialExchange. cbn [deadline seen].
  destruct (truthy ms); [|exact I].
  unfold PTimeout.pTimeout2. cbn [PTimeout.milliseconds timeoutOptions PTimeout.signal].
  destruct (PTimeout.positiveNumber ms); cbn [negb].
  - destruct ms as [| |b|[| | |q]|s|l|f]; exact I.
  - cbn. right. split; [reflexivity|]. now right.
Qed.

Lemma timeout_is_not_terminated ms :
  readsAsTerminated (PTimeout.timeoutError ToString (timeoutOptions ms)) = false.
Proof. reflexivity. Qed.

Lemma invalid_is_not_terminated ms :
  readsAsTerminated (PTimeout.invalidMilliseconds ToString ms) = false.
Proof.
  unfold Provenance.readsAsTerminated, raisedToString, text_eqb.
  rewrite !bool_decide_eq_false_2; [reflexivity| |]; cbn; discriminate.
Qed.

Lemma catchBlock_timeout v ms :
  catchBlock v (PTimeout.timeoutError ToString (timeoutOptions ms))
  = inl (Failure (str "TimeoutError: ChatGPT timed out waiting for response")
           Undefined Undefined (conversationId v) (messageId v)).
Proof.
  pose proof (timeout_is_not_terminated ms) as H.
  unfold Provenance.readsAsTerminated in H. unfold Page.catchBlock.
  cbn [raisedToString] in H |- *. cbv zeta. rewrite H, andb_false_r. reflexivity.
Qed.

Lemma catchBlock_snapshot v e a b c :
  catchBlock v e = inl (Snapshot a b c) ->
  truthy a = true /\ readsAsTerminated e = true /\ a = response v.
Proof.
  unfold Page.catchBlock, Provenance.readsAsTerminated.
  destruct (raisedToString ToString e) as [text|typeError]; [|discriminate].
  cbv zeta.
  destruct (truthy (response v)) eqn:Et; cbn [andb]; [|discriminate].
  destruct (_ || _); [|discriminate].
  intros [= <- _ _]. auto.
Qed.

(** X10. Where a returned snapshot comes from.  Whatever [fetch] does and
    whatever the page delivers, with or without a deadline: when the call
    returns a snapshot, either a [[DONE]] payload has been seen, or the
    response text is not empty and a call of the progress sink was
    rejected with an error that reads as "TypeError: terminated".  The end
    or the failure of the body, a failed [fetch] and the deadline never
    yield a snapshot. *)
Theorem snapshot_comes_from_done (body timeoutMs : Value) (fetched : FetchOutcome)
    (hasSink : bool) (timeline : list PageEvent) (a b c : Value) :
  (browserPostEventStream body timeoutMs fetched hasSink timeline).1
    = Returns (Snapshot a b c) ->
  In DONE (seen (browserPostEventStream body timeoutMs fetched hasSink timeline).2) \/
  (truthy a = true /\
   exists e, In (ProgressRejects e) timeline /\ readsAsTerminated e = true).
Proof.
  unfold Page.browserPostEventStream, tryBlock.
  destruct fetched as [e|ok status statusText].
  - destruct (catchBlock _ e) as [r|typeError] eqn:Ec; cbn [fst snd]; [|discriminate].
    intros [= ->]. apply catchBlock_snapshot in Ec as (Ha & _ & ->). discriminate Ha.
  - destruct ok; cbn [negb]; cbv iota; [|discriminate].
    pose proof (await_traced timeoutMs (fun e => In (ProgressRejects e) timeline)
                  hasSink (messageId (initialVars body)) timeline _
                  (initial_traced body timeoutMs _)) as Ht.
    pose proof (await_coherent ToString JSON_parse body hasSink
                  (messageId (initialVars body)) timeoutMs timeline _
                  (initial_coherent ToString JSON_parse body timeoutMs)) as [_ Hw].
    destruct (await hasSink (messageId (initialVars body)) timeoutMs
                (initialExchange ToString body timeoutMs) timeline) as [t x].
    cbn [fst snd] in *.
    assert (Htl : Forall (fun ev => forall e, ev = ProgressRejects e ->
                                    In (ProgressRejects e) timeline) timeline).
    { apply List.Forall_forall. intros ev Hin e ->. exact Hin. }
    specialize (Ht Htl). destruct Ht as [Hr Hd]. unfold awaited in Hw.
    destruct t as [r|e|]; [| |discriminate].
    + intros [= ->]. left. destruct (deadline x) as [w|].
      * rewrite Hw in Hd. apply Hd.
      * rewrite Hw in Hr. apply Hr.
    + destruct (catchBlock (vars x) e) as [r|typeError] eqn:Ec; [|discriminate].
      intros [= ->]. apply catchBlock_snapshot in Ec as (Ha & He & _). right.
      split; [exact Ha|]. exists e. split; [|exact He].
      destruct (deadline x) as [w|].
      * rewrite Hw in Hd. destruct Hd as [Hd|[_ [->| ->]]]; [exact Hd| |].
        -- now rewrite timeout_is_not_terminated in He.
        -- now rewrite invalid_is_not_terminated in He.
      * rewrite Hw in Hr. destruct Hr as [Hr|[Hr _]]; [exact Hr|discriminate].
Qed.

(** *** The deadline *)

Lemma await_settled hasSink orig ms x timeline :
  awaited x <> Pending ->
  await hasSink orig ms x timeline = await hasSink orig ms x [].
Proof.
  intros H. destruct timeline; cbn [Page.await]; [reflexivity|].
  destruct (awaited x); congruence.
Qed.

Lemma await_app hasSink orig ms pre : forall x post,
  await hasSink orig ms x (pre ++ post) =
  match (await hasSink orig ms x pre).1 with
  | Suspended => await hasSink orig ms (await hasSink orig ms x pre).2 post
  | _ => await hasSink orig ms x pre
  end.
Proof.
  induction pre as [|ev pre IH]; intros x post.
  - cbn [app]. destruct (awaited x) eqn:E.
    + cbn [Page.await]. rewrite E. reflexivity.
    + rewrite await_settled by congruence. cbn [Page.await]. rewrite E. reflexivity.
    + rewrite await_settled by congruence. cbn [Page.await]. rewrite E. reflexivity.
  - cbn [app Page.await]. destruct (awaited x); [apply IH|reflexivity..].
Qed.

Lemma applyEffects_deadline effects : forall x,
  deadline (fold_left applyEffect effects x) = deadline x.
Proof.
  induction effects as [|e effects IH]; intros x; [reflexivity|].
  cbn [fold_left]. rewrite IH. now destruct e.
Qed.

Lemma onParse_fold_deadline hasSink orig parsed : forall x,
  deadline (fold_left (onParse hasSink orig) parsed x) = deadline x.
Proof.
  induction parsed as [|ev parsed IH]; intros x; [reflexivity|].
  cbn [fold_left]. rewrite IH. destruct ev as [id name data|n]; [|reflexivity].
  unfold Page.onParse. destruct (onMessage hasSink orig (vars x) data) as [v effects].
  now rewrite applyEffects_deadline.
Qed.

(** The hook of the page, [abortController.abort()], does not throw. *)
Lemma tick_ticking ms (w : PTimeout.Wrapper (A := Result)) t :
  t <> PTimeout.TimerFiresHookThrows ->
  (PTimeout.outcome w = Pending ->
   PTimeout.timer w = true /\ PTimeout.cancelCalls w = 0%nat) ->
  PTimeout.outcome (PTimeout.tick ToString true (timeoutOptions ms) w t) = Pending ->
  PTimeout.timer (PTimeout.tick ToString true (timeoutOptions ms) w t) = true /\
  PTimeout.cancelCalls (PTimeout.tick ToString true (timeoutOptions ms) w t) = 0%nat.
Proof.
  intros Ht Hw. destruct t as [r| | |r]; cbn [PTimeout.tick]; [| |congruence|].
  - destruct (PTimeout.following w); [|exact Hw]. cbn.
    destruct (PTimeout.outcome w), r; discriminate.
  - destruct (PTimeout.timer w) eqn:E; [|rewrite E; exact Hw]. cbn.
    destruct (PTimeout.outcome w); discriminate.
  - destruct (PTimeout.listening w); [|exact Hw]. cbn.
    destruct (PTimeout.outcome w); discriminate.
Qed.

Lemma step_ticking hasSink orig ms x ev :
  ticking x -> ticking (step hasSink orig ms x ev).
Proof.
  intros (w & Hd & Hw).
  assert (H : ticking (handle hasSink orig ms x ev)).
  { destruct ev as [text| |e|e|]; unfold Page.handle.
    - destruct (reading x); [|exists w; auto].
      destruct (feed (parser x) text) as [parser' parsed].
      exists w. rewrite onParse_fold_deadline. auto.
    - exists w. auto.
    - exists w. auto.
    - destruct (awaiting x); exists w; auto.
    - rewrite Hd. eexists. split; [reflexivity|]. now apply tick_ticking. }
  clear w Hd Hw. destruct H as (w & Hd & Hw). unfold Page.step, deliver. rewrite Hd.
  destruct (responseP (handle hasSink orig ms x ev));
    [exists w; auto| |];
    (eexists; split; [reflexivity|]; apply tick_ticking; [discriminate|exact Hw]).
Qed.

Lemma await_ticking hasSink orig ms timeline : forall x,
  ticking x -> ticking (await hasSink orig ms x timeline).2.
Proof.
  induction timeline as [|ev timeline IH]; intros x Hx; cbn [Page.await].
  - destruct (awaited x); exact Hx.
  - destruct (awaited x); [|exact Hx..]. apply IH. now apply step_ticking.
Qed.

Lemma positive_truthy ms : PTimeout.positiveNumber ms = true -> truthy ms = true.
Proof.
  destruct ms as [| |b|[| | |q]|s|l|f]; try discriminate; try reflexivity.
  cbn. intros H. apply Z.ltb_lt in H. destruct (Z.eqb_spec (Qnum q) 0); [lia|reflexivity].
Qed.

Lemma deadline_fires hasSink orig ms x w :
  deadline x = Some w -> PTimeout.outcome w = Pending -> PTimeout.timer w = true ->
  PTimeout.cancelCalls w = 0%nat ->
  exists w',
    deadline (step hasSink orig ms x DeadlineElapses) = Some w' /\
    PTimeout.outcome w' = Rejected (PTimeout.timeoutError ToString (timeoutOptions ms)) /\
    PTimeout.cancelCalls w' = 1%nat /\
    vars (step hasSink orig ms x DeadlineElapses) = vars x.
Proof.
  intros Hd Ho Ht Hc. unfold Page.step, Page.handle, deliver. rewrite Hd.
  cbn [deadline responseP vars PTimeout.tick]. rewrite Ht, Ho, Hc. cbn.
  destruct (responseP x); [eauto| |];
    (destruct (PTimeout.following w); cbn; eauto).
Qed.

(** X11. The deadline bounds the wait.  With a positive finite
    [timeoutMs] and an ok response: if the call is still waiting after the
    events [pre], then the elapse of the deadline makes it return, whatever
    follows, an error object that holds the message of the TimeoutError, no
    status, and the ids known at that time; and the hook that aborts the
    request has been called once. *)
Theorem deadline_ends_a_pending_call (body timeoutMs status statusText : Value)
    (hasSink : bool) (pre post : list PageEvent) :
  PTimeout.positiveNumber timeoutMs = true ->
  timeoutMs <> Num PosInfinity ->
  (browserPostEventStream body timeoutMs (Responds true status statusText) hasSink pre).1
    = NeverSettles ->
  (browserPostEventStream body timeoutMs (Responds true status statusText) hasSink
     (pre ++ DeadlineElapses :: post)).1
  = Returns
      (Failure (str "TimeoutError: ChatGPT timed out waiting for response")
         Undefined Undefined
         (conversationId
            (vars (browserPostEventStream body timeoutMs
                     (Responds true status statusText) hasSink pre).2))
         (messageId
            (vars (browserPostEventStream body timeoutMs
                     (Responds true status statusText) hasSink pre).2))) /\
  exists w,
    deadline (browserPostEventStream body timeoutMs (Responds true status statusText)
                hasSink (pre ++ DeadlineElapses :: post)).2 = Some w /\
    PTimeout.cancelCalls w = 1%nat.
Proof.
  intros Hpos Hfin. unfold Page.browserPostEventStream, tryBlock. cbn [negb]. cbv iota.
  set (orig := messageId (initialVars body)).
  assert (H0 : ticking (initialExchange ToString body timeoutMs)).
  { unfold initialExchange. rewrite (positive_truthy _ Hpos).
    eexists. split; [reflexivity|]. intros _.
    rewrite (PTimeoutMore.armed ToString (timeoutOptions timeoutMs) Hpos Hfin).
    split; reflexivity. }
  pose proof (await_ticking hasSink orig timeoutMs pre _ H0) as Ht.
  pose proof (await_coherent ToString JSON_parse body hasSink orig timeoutMs pre _
                (initial_coherent ToString JSON_parse body timeoutMs)) as [_ Hw].
  rewrite await_app.
  destruct (await hasSink orig timeoutMs (initialExchange ToString body timeoutMs) pre)
    as [t x].
  cbn [fst snd] in *.
  destruct t as [r|e|]; [discriminate|destruct (catchBlock (vars x) e); discriminate|].
  intros _.
  destruct Ht as (w & Hd & Hpending). unfold awaited in Hw. rewrite Hd in Hw.
  destruct (Hpending Hw) as [Htimer Hcalls].
  destruct (deadline_fires hasSink orig timeoutMs x w Hd Hw Htimer Hcalls)
    as (w' & Hd' & Ho' & Hc' & Hv').
  assert (Heq : await hasSink orig timeoutMs x (DeadlineElapses :: post)
                = (Throw (PTimeout.timeoutError ToString (timeoutOptions timeoutMs)),
                   step hasSink orig timeoutMs x DeadlineElapses)).
  { cbn [Page.await]. unfold awaited at 1. rewrite Hd, Hw.
    rewrite await_settled by (unfold awaited; rewrite Hd', Ho'; discriminate).
    cbn [Page.await]. unfold awaited. rewrite Hd', Ho'. reflexivity. }
  rewrite Heq. cbn [fst snd]. rewrite Hv'.
  rewrite catchBlock_timeout. split; [|eauto]. reflexivity.
Qed.

(** X12. A [timeoutMs] that is truthy but not a positive number (a negative
    number, a string) is reported at once: for an ok response the call
    returns an error object with the message of the TypeError that the
    wrapper throws, no status and the ids of the request, and no chunk has
    been given to the decoder. *)
Theorem invalid_timeout_is_reported (body timeoutMs status statusText : Value)
    (hasSink : bool) (timeline : list PageEvent) :
  truthy timeoutMs = true ->
  PTimeout.positiveNumber timeoutMs = false ->
  browserPostEventStream body timeoutMs (Responds true status statusText) hasSink timeline
  = (Returns
       (Failure
          (str "TypeError: Expected `milliseconds` to be a positive number, got `"
             ++ ToString timeoutMs ++ str "`")
          Undefined Undefined
          (optProp body "conversation_id")
          (optProp (optFirst (optProp body "messages")) "id")),
     initialExchange ToString body timeoutMs).
Proof.
  intros Ht Hpos. unfold Page.browserPostEventStream, tryBlock. cbn [negb]. cbv iota.
  assert (Hw : awaited (initialExchange ToString body timeoutMs)
               = Rejected (PTimeout.invalidMilliseconds ToString timeoutMs)).
  { unfold awaited, initialExchange. rewrite Ht. cbn [deadline].
    unfold PTimeout.pTimeout2. cbn [PTimeout.milliseconds timeoutOptions].
    rewrite Hpos. reflexivity. }
  rewrite await_settled by (rewrite Hw; discriminate).
  cbn [Page.await]. rewrite Hw. cbn [fst snd]. f_equal.
Qed.

(** X13. For an ok response without a timeout, as long as no call of the
    progress sink is rejected: if the call returns at all, it returns a
    snapshot, and a [[DONE]] payload has been seen.  The end of the body,
    clean or not, never makes it return. *)
Theorem only_done_makes_it_return (body timeoutMs status statusText : Value)
    (hasSink : bool) (timeline : list PageEvent) (r : Result) :
  truthy timeoutMs = false ->
  Forall (fun ev => ~ isProgressRejection ev) timeline ->
  (browserPostEventStream body timeoutMs (Responds true status statusText) hasSink
     timeline).1 = Returns r ->
  In DONE (seen (browserPostEventStream body timeoutMs
                   (Responds true status statusText) hasSink timeline).2) /\
  exists a b c, r = Snapshot a b c.
Proof. apply returns_only_after_done. Qed.

(** *** The ids *)

Lemma suppliedIds_truthy ids data :
  (truthy ids.1 = true -> truthy (suppliedIds JSON_parse ids data).1 = true) /\
  (truthy ids.2 = true -> truthy (suppliedIds JSON_parse ids data).2 = true).
Proof.
  unfold suppliedIds. destruct (text_eqb data DONE); [auto|].
  destruct (JSON_parse data) as [ev|e]; [|auto].
  destruct (truthy ev); [|auto]. cbn [fst snd].
  destruct (truthy (getProp ev "conversation_id")) eqn:E1,
           (truthy (optProp (getProp ev "message") "id")) eqn:E2; auto.
  - split; [auto|]. intros _. unfold optProp in E2.
    destruct (nullish (getProp ev "message")); [discriminate|exact E2].
  - split; [auto|]. intros _. unfold optProp in E2.
    destruct (nullish (getProp ev "message")); [discriminate|exact E2].
Qed.

Lemma knownIds_truthy payloads : forall ids,
  (truthy ids.1 = true ->
   truthy (fold_left (suppliedIds JSON_parse) payloads ids).1 = true) /\
  (truthy ids.2 = true ->
   truthy (fold_left (suppliedIds JSON_parse) payloads ids).2 = true).
Proof.
  induction payloads as [|data payloads IH]; intros ids; [auto|].
  cbn [fold_left]. destruct (suppliedIds_truthy ids data) as [H1 H2].
  destruct (IH (suppliedIds JSON_parse ids data)) as [H3 H4]. auto.
Qed.

Lemma beforeDone_clean payloads :
  ~ In DONE payloads -> beforeDone payloads = payloads.
Proof.
  induction payloads as [|data payloads IH]; [reflexivity|]. intros Hno.
  cbn [beforeDone]. unfold text_eqb.
  rewrite bool_decide_eq_false_2 by (intros ->; apply Hno; now left).
  rewrite IH; [reflexivity|]. intros H. apply Hno. now right.
Qed.

Lemma beforeDone_app payloads more :
  In DONE payloads -> beforeDone (payloads ++ more) = beforeDone payloads.
Proof.
  induction payloads as [|data payloads IH]; [intros []|]. intros Hin.
  cbn [app beforeDone]. unfold text_eqb.
  destruct (bool_decide_reflect (data = DONE)) as [_|Hne]; [reflexivity|].
  rewrite IH; [reflexivity|]. destruct Hin as [Hin|Hin]; [contradiction|exact Hin].
Qed.

Lemma beforeDone_at_done payloads :
  ~ In DONE payloads -> beforeDone (payloads ++ [DONE]) = payloads.
Proof.
  induction payloads as [|data payloads IH]; [reflexivity|]. intros Hno.
  cbn [app beforeDone]. unfold text_eqb.
  rewrite bool_decide_eq_false_2 by (intros ->; apply Hno; now left).
  rewrite IH; [reflexivity|]. intros H. apply Hno. now right.
Qed.

Lemma beforeDone_incl payloads data :
  In data (beforeDone payloads) -> In data payloads /\ data <> DONE.
Proof.
  induction payloads as [|d payloads IH]; [intros []|].
  cbn [beforeDone]. unfold text_eqb.
  destruct (bool_decide_reflect (d = DONE)) as [_|Hne]; [intros []|].
  intros [<-|Hin]; [split; [now left|exact Hne]|].
  destruct (IH Hin). split; [now right|assumption].
Qed.

Lemma onParse_resolvedAtDone body hasSink orig x ev :
  coherent JSON_parse body x -> resolvedAtDone JSON_parse body x ->
  resolvedAtDone JSON_parse body (onParse hasSink orig x ev).
Proof.
  intros (Hids & _) (Hp & Hr & Hw). destruct ev as [id name data|n]; [|now split].
  unfold Page.onParse, Page.onMessage, text_eqb.
  destruct (bool_decide_reflect (data = DONE)) as [->|Hne].
  - cbn [fold_left applyEffect parser vars responseP reading awaiting notified seen
           deadline].
    assert (Hin : In DONE (seen x ++ [DONE])) by (apply in_or_app; right; now left).
    split; [|split]; cbn [responseP seen deadline].
    + destruct (responseP x) as [|r0|e0] eqn:E; cbn [settle]; [discriminate|..].
      * discriminate.
      * discriminate.
    + intros r. destruct (responseP x) as [|r0|e0] eqn:E; cbn [settle].
      * intros [= <-]. split; [exact Hin|].
        rewrite beforeDone_at_done by (apply Hp; reflexivity). exact Hids.
      * intros [= <-]. destruct (Hr r0 eq_refl) as [Hd Hk]. split; [exact Hin|].
        now rewrite beforeDone_app.
      * discriminate.
    + intros w r Hd Ho. destruct (Hw w r Hd Ho) as [Hd' Hk]. split; [exact Hin|].
      now rewrite beforeDone_app.
  - assert (Hstay : forall effects v,
              (effects = [] \/ exists p, effects = [Notify p]) ->
              resolvedAtDone JSON_parse body
                (fold_left applyEffect effects
                   (mkExchange (parser x) v (responseP x) (reading x) (awaiting x)
                      (notified x) (seen x ++ [data]) (deadline x)))).
    { intros effects v [->|[p ->]];
        cbn [fold_left applyEffect parser vars responseP reading awaiting notified
               seen deadline];
        (split; [|split]; cbn [responseP seen deadline]).
      - intros E H. apply in_app_or in H as [H|[H|[]]]; [now apply Hp|congruence].
      - intros r E. destruct (Hr r E) as [Hd Hk]. split; [apply in_or_app; now left|].
        now rewrite beforeDone_app.
      - intros w r Hd Ho. destruct (Hw w r Hd Ho) as [Hd' Hk].
        split; [apply in_or_app; now left|]. now rewrite beforeDone_app.
      - intros E H. apply in_app_or in H as [H|[H|[]]]; [now apply Hp|congruence].
      - intros r E. destruct (Hr r E) as [Hd Hk]. split; [apply in_or_app; now left|].
        now rewrite beforeDone_app.
      - intros w r Hd Ho. destruct (Hw w r Hd Ho) as [Hd' Hk].
        split; [apply in_or_app; now left|]. now rewrite beforeDone_app. }
    destruct (JSON_parse data) as [ev|e]; [|apply Hstay; now left].
    destruct (negb (truthy ev)); [apply Hstay; now left|].
    destruct (truthy (optFirst _)); [|apply Hstay; now left].
    destruct hasSink; apply Hstay; eauto.
Qed.

Lemma onParse_fold_resolvedAtDone body hasSink orig parsed : forall x,
  coherent JSON_parse body x -> resolvedAtDone JSON_parse body x ->
  resolvedAtDone JSON_parse body (fold_left (onParse hasSink orig) parsed x).
Proof.
  induction parsed as [|ev parsed IH]; intros x Hc Hx; [assumption|].
  cbn [fold_left]. apply IH.
  - now apply onParse_coherent.
  - now apply onParse_resolvedAtDone.
Qed.

Lemma handle_resolvedAtDone body hasSink orig timeoutMs x ev :
  coherent JSON_parse body x -> resolvedAtDone JSON_parse body x ->
  resolvedAtDone JSON_parse body (handle hasSink orig timeoutMs x ev).
Proof.
  intros Hc Hx. destruct ev as [text| |e|e|]; unfold Page.handle.
  - destruct (reading x); [|assumption].
    destruct (feed (parser x) text) as [parser' parsed].
    apply onParse_fold_resolvedAtDone; assumption.
  - exact Hx.
  - exact Hx.
  - destruct (awaiting x); [assumption|]. destruct Hx as (Hp & Hr & Hw).
    split; [|split]; cbn [responseP seen deadline].
    + destruct (responseP x); cbn [settle]; [discriminate|discriminate|discriminate].
    + intros r E. apply Hr. destruct (responseP x); cbn [settle] in E; congruence.
    + exact Hw.
  - destruct (deadline x) as [w|] eqn:Ew; [|assumption]. destruct Hx as (Hp & Hr & Hw).
    split; [exact Hp|]. split; [exact Hr|]. cbn [deadline seen]. intros w' r Hw' Ho.
    assert (Hw0 : PTimeout.tick ToString true (timeoutOptions timeoutMs) w
                    PTimeout.TimerFires = w') by congruence.
    subst w'. apply tick_resolved in Ho as [Ho|[=]]. now apply (Hw w).
Qed.

Lemma deliver_resolvedAtDone body timeoutMs x :
  resolvedAtDone JSON_parse body x ->
  resolvedAtDone JSON_parse body (deliver ToString timeoutMs x).
Proof.
  intros Hx. unfold deliver.
  destruct (deadline x) as [w|] eqn:Ew; [|exact Hx].
  destruct (responseP x) as [|r|e] eqn:Er; [exact Hx| |];
    destruct Hx as (Hp & Hr & Hw);
    (split; [cbn [responseP seen]; discriminate|]);
    (split; [cbn [responseP seen]; rewrite <- Er; exact Hr|cbn [deadline seen]]).
  - intros w' r' Hw' Ho.
    assert (Hw0 : PTimeout.tick ToString true (timeoutOptions timeoutMs) w
                    (PTimeout.OperationSettles (inl r)) = w') by congruence.
    subst w'. apply tick_resolved in Ho as [Ho|[= <-]].
    + now apply (Hw w).
    + now apply Hr.
  - intros w' r' Hw' Ho.
    assert (Hw0 : PTimeout.tick ToString true (timeoutOptions timeoutMs) w
                    (PTimeout.OperationSettles (inr e)) = w') by congruence.
    subst w'. apply tick_resolved in Ho as [Ho|[=]]. now apply (Hw w).
Qed.

Lemma await_resolvedAtDone body hasSink orig timeoutMs timeline : forall x,
  coherent JSON_parse body x -> resolvedAtDone JSON_parse body x ->
  resolvedAtDone JSON_parse body (await hasSink orig timeoutMs x timeline).2.
Proof.
  induction timeline as [|ev timeline IH]; intros x Hc Hx; cbn [Page.await].
  - destruct (awaited x); exact Hx.
  - destruct (awaited x); [|exact Hx..]. apply IH.
    + apply deliver_coherent, handle_coherent, Hc.
    + apply deliver_resolvedAtDone, handle_resolvedAtDone; assumption.
Qed.

Lemma initial_resolvedAtDone body timeoutMs :
  resolvedAtDone JSON_parse body (initialExchange ToString body timeoutMs).
Proof.
  split; [intros _ []|]. split; [discriminate|].
  unfold initialExchange. cbn [deadline seen]. intros w r.
  destruct (truthy timeoutMs); [|discriminate].
  intros [= <-]. unfold PTimeout.pTimeout2.
  cbn [PTimeout.milliseconds timeoutOptions PTimeout.signal].
  destruct (PTimeout.positiveNumber timeoutMs); cbn [negb]; [|discriminate].
  destruct timeoutMs as [| |b|[| | |q]|s|l|f]; discriminate.
Qed.

(** The ids of the value that the call returns.  An error object holds
    the ids known from all the payloads given to [onMessage]; so does a
    snapshot that the [catch] block returns; a snapshot taken at [[DONE]]
    holds the ids known from the payloads before the first [[DONE]]. *)
Lemma returned_ids body timeoutMs fetched hasSink timeline r :
  (browserPostEventStream body timeoutMs fetched hasSink timeline).1 = Returns r ->
  match r with
  | Failure _ _ _ c m =>
      (c, m) = knownIds JSON_parse body
                 (seen (browserPostEventStream body timeoutMs fetched hasSink timeline).2)
  | Snapshot _ c m =>
      (In DONE (seen (browserPostEventStream body timeoutMs fetched hasSink timeline).2) /\
       (c, m) = knownIds JSON_parse body
                  (beforeDone
                     (seen (browserPostEventStream body timeoutMs fetched hasSink
                              timeline).2))) \/
      (c, m) = knownIds JSON_parse body
                 (seen (browserPostEventStream body timeoutMs fetched hasSink timeline).2)
  end.
Proof.
  assert (Hcatch : forall v e r0 (l : list (list ascii)),
            catchBlock v e = inl r0 -> idsOf v = knownIds JSON_parse body l ->
            match r0 with
            | Failure _ _ _ c m => (c, m) = knownIds JSON_parse body l
            | Snapshot _ c m =>
                (In DONE l /\ (c, m) = knownIds JSON_parse body (beforeDone l)) \/
                (c, m) = knownIds JSON_parse body l
            end).
  { intros v e r0 l Hc Hv. apply catchBlock_ids in Hc. rewrite Hv in Hc.
    destruct r0; cbn [resultIds] in Hc; auto. }
  unfold Page.browserPostEventStream, tryBlock.
  destruct fetched as [e|ok status statusText].
  - destruct (catchBlock _ e) as [r0|typeError] eqn:Ec; cbn [fst snd]; [|discriminate].
    intros [= <-]. apply (Hcatch _ _ _ [] Ec). reflexivity.
  - destruct ok; cbn [negb]; cbv iota.
    2:{ cbn [fst snd]. intros [= <-]. reflexivity. }
    pose proof (await_coherent ToString JSON_parse body hasSink
                  (messageId (initialVars body)) timeoutMs timeline _
                  (initial_coherent ToString JSON_parse body timeoutMs)) as [Hc Hw].
    pose proof (await_resolvedAtDone body hasSink (messageId (initialVars body))
                  timeoutMs timeline _
                  (initial_coherent ToString JSON_parse body timeoutMs)
                  (initial_resolvedAtDone body timeoutMs)) as (_ & Hr & Hd).
    pose proof (await_traced timeoutMs (fun _ => True)
                  hasSink (messageId (initialVars body)) timeline _
                  (initial_traced body timeoutMs _)) as Ht.
    destruct (await hasSink (messageId (initialVars body)) timeoutMs
                (initialExchange ToString body timeoutMs) timeline) as [t x].
    cbn [fst snd] in *. destruct Hc as (H1 & _).
    destruct t as [r0|e|]; cbn [fst snd]; [| |discriminate].
    + intros [= <-].
      assert (Htl : Forall (fun ev => forall e, ev = ProgressRejects e -> True) timeline)
        by (apply List.Forall_forall; auto).
      specialize (Ht Htl). destruct Ht as [Ht1 Ht2].
      unfold awaited in Hw. destruct (deadline x) as [w|] eqn:Ew.
      * rewrite Hw in Ht2. destruct Ht2 as [Hsnap _].
        destruct (Hd w r0 eq_refl Hw) as [Hin Hk].
        destruct r0; [|destruct Hsnap]. left. split; [exact Hin|exact Hk].
      * rewrite Hw in Ht1. destruct Ht1 as [Hsnap _].
        destruct (Hr r0 Hw) as [Hin Hk].
        destruct r0; [|destruct Hsnap]. left. split; [exact Hin|exact Hk].
    + destruct (catchBlock (vars x) e) as [r0|typeError] eqn:Ec; [|discriminate].
      intros [= <-]. apply (Hcatch _ _ _ _ Ec H1).
Qed.

(** What the call throws.  It throws only the [TypeError] of the call
    [err.toString()] in its [catch] block, on a value that is not an [Error]
    object and with which [fetch] or a call of the progress sink was
    rejected. *)
Lemma throws_only_from_toString body timeoutMs fetched hasSink timeline typeError :
  (browserPostEventStream body timeoutMs fetched hasSink timeline).1 = Throws typeError ->
  exists v,
    (fetched = FetchFails (RaisedValue v) \/
     In (ProgressRejects (RaisedValue v)) timeline) /\
    raisedToString ToString (RaisedValue v) = inr typeError /\
    (v = Undefined \/ v = Null \/ exists fields, v = Obj fields).
Proof.
  assert (Hv : forall e v0 r,
            catchBlock v0 e = inr r ->
            exists v, e = RaisedValue v /\
              raisedToString ToString (RaisedValue v) = inr r /\
              (v = Undefined \/ v = Null \/ exists fields, v = Obj fields)).
  { intros e v0 r. unfold Page.catchBlock.
    destruct (raisedToString ToString e) as [text|t] eqn:E.
    - cbv zeta. destruct (_ && _); discriminate.
    - intros [= <-]. destruct e as [e|v]; [discriminate|]. exists v.
      split; [reflexivity|]. split; [exact E|].
      destruct v; try discriminate; eauto. }
  unfold Page.browserPostEventStream, tryBlock.
  destruct fetched as [e|ok status statusText].
  - destruct (catchBlock _ e) as [r0|t] eqn:Ec; cbn [fst snd]; [discriminate|].
    intros [= <-]. destruct (Hv _ _ _ Ec) as (v & -> & H1 & H2). eauto.
  - destruct ok; cbn [negb]; cbv iota; [|discriminate].
    pose proof (await_traced timeoutMs (fun e => In (ProgressRejects e) timeline)
                  hasSink (messageId (initialVars body)) timeline _
                  (initial_traced body timeoutMs _)) as Ht.
    pose proof (await_coherent ToString JSON_parse body hasSink
                  (messageId (initialVars body)) timeoutMs timeline _
                  (initial_coherent ToString JSON_parse body timeoutMs)) as [_ Hw].
    destruct (await hasSink (messageId (initialVars body)) timeoutMs
                (initialExchange ToString body timeoutMs) timeline) as [t x].
    cbn [fst snd] in *.
    assert (Htl : Forall (fun ev => forall e, ev = ProgressRejects e ->
                                    In (ProgressRejects e) timeline) timeline).
    { apply List.Forall_forall. intros ev Hin e ->. exact Hin. }
    specialize (Ht Htl). destruct Ht as [Hr Hd]. unfold awaited in Hw.
    destruct t as [r|e|]; [discriminate| |discriminate].
    destruct (catchBlock (vars x) e) as [r0|t] eqn:Ec; [discriminate|].
    intros [= <-]. destruct (Hv _ _ _ Ec) as (v & -> & H1 & H2).
    exists v. split; [right|auto].
    destruct (deadline x) as [w|].
    + rewrite Hw in Hd. destruct Hd as [Hd|[_ [Hd|Hd]]]; [exact Hd|discriminate..].
    + rewrite Hw in Hr. destruct Hr as [Hr|[Hr _]]; [exact Hr|discriminate].
Qed.

(** When [fetch] and the progress sink reject with [Error] objects only,
    the call throws nothing. *)
Lemma error_objects_are_not_thrown body timeoutMs fetched hasSink timeline e :
  (forall v, fetched <> FetchFails (RaisedValue v)) ->
  (forall v, ~ In (ProgressRejects (RaisedValue v)) timeline) ->
  (browserPostEventStream body timeoutMs fetched hasSink timeline).1 <> Throws e.
Proof.
  intros Hf Ht H. apply throws_only_from_toString in H as (v & [H|H] & _).
  - now apply (Hf v).
  - now apply (Ht v).
Qed.

(** Where the ids known after some payloads come from: the ids at the
    start, or a payload that parses to a truthy value and holds the id. *)
Lemma knownIds_from payloads : forall ids,
  ((fold_left (suppliedIds JSON_parse) payloads ids).1 = ids.1 \/
   exists data ev,
     In data payloads /\ data <> DONE /\ JSON_parse data = inl ev /\ truthy ev = true /\
     truthy (getProp ev "conversation_id") = true /\
     (fold_left (suppliedIds JSON_parse) payloads ids).1 = getProp ev "conversation_id") /\
  ((fold_left (suppliedIds JSON_parse) payloads ids).2 = ids.2 \/
   exists data ev,
     In data payloads /\ data <> DONE /\ JSON_parse data = inl ev /\ truthy ev = true /\
     truthy (getProp (getProp ev "message") "id") = true /\
     (fold_left (suppliedIds JSON_parse) payloads ids).2
       = getProp (getProp ev "message") "id").
Proof.
  induction payloads as [|data payloads IH]; intros ids; [auto|].
  cbn [fold_left]. destruct (IH (suppliedIds JSON_parse ids data)) as [H1 H2].
  assert (Hstep :
    ((suppliedIds JSON_parse ids data).1 = ids.1 \/
     exists ev, data <> DONE /\ JSON_parse data = inl ev /\ truthy ev = true /\
       truthy (getProp ev "conversation_id") = true /\
       (suppliedIds JSON_parse ids data).1 = getProp ev "conversation_id") /\
    ((suppliedIds JSON_parse ids data).2 = ids.2 \/
     exists ev, data <> DONE /\ JSON_parse data = inl ev /\ truthy ev = true /\
       truthy (getProp (getProp ev "message") "id") = true /\
       (suppliedIds JSON_parse ids data).2 = getProp (getProp ev "message") "id")).
  { unfold suppliedIds, text_eqb.
    destruct (bool_decide_reflect (data = DONE)) as [_|Hne]; [auto|].
    destruct (JSON_parse data) as [ev|e]; [|auto].
    destruct (truthy ev) eqn:Eev; [|auto]. cbn [fst snd]. split.
    - destruct (truthy (getProp ev "conversation_id")) eqn:E1; [|auto].
      right. exists ev. auto.
    - destruct (truthy (optProp (getProp ev "message") "id")) eqn:E2; [|auto].
      right. exists ev. repeat (split; [auto; fail|]). split; [|reflexivity].
      unfold optProp in E2.
      destruct (nullish (getProp ev "message")); [discriminate|exact E2]. }
  destruct Hstep as [S1 S2]. split.
  - destruct H1 as [H1|(d & ev & Hin & H)]; [|right; exists d, ev; split; [now right|exact H]].
    rewrite H1. destruct S1 as [S1|(ev & Hne & Hp & Ht & Hc & Hk)]; [now left|].
    right. exists data, ev. repeat (split; [auto; fail|]). split; [now left|auto].
  - destruct H2 as [H2|(d & ev & Hin & H)]; [|right; exists d, ev; split; [now right|exact H]].
    rewrite H2. destruct S2 as [S2|(ev & Hne & Hp & Ht & Hc & Hk)]; [now left|].
    right. exists data, ev. repeat (split; [auto; fail|]). split; [now left|auto].
Qed.

(** X14. An id that the request carries is never lost.  The conversation
    id (the message id) of the value that the call returns, snapshot or
    error object, is the one of the request body, or the [conversation_id]
    (the [message.id]) of a payload given to [onMessage] that parsed to a
    truthy value and held a truthy id; and when the request body has a
    conversation id (a message id) that is not empty, the returned one is
    not empty either. *)
Theorem request_ids_are_kept (body timeoutMs : Value) (fetched : FetchOutcome)
    (hasSink : bool) (timeline : list PageEvent) (r : Result) :
  (browserPostEventStream body timeoutMs fetched hasSink timeline).1 = Returns r ->
  match r with
  | Snapshot _ c m | Failure _ _ _ c m =>
      (c = optProp body "conversation_id" \/
       exists data ev,
         In data (seen (browserPostEventStream body timeoutMs fetched hasSink
                          timeline).2) /\
         data <> DONE /\ JSON_parse data = inl ev /\ truthy ev = true /\
         truthy (getProp ev "conversation_id") = true /\
         c = getProp ev "conversation_id") /\
      (m = optProp (optFirst (optProp body "messages")) "id" \/
       exists data ev,
         In data (seen (browserPostEventStream body timeoutMs fetched hasSink
                          timeline).2) /\
         data <> DONE /\ JSON_parse data = inl ev /\ truthy ev = true /\
         truthy (getProp (getProp ev "message") "id") = true /\
         m = getProp (getProp ev "message") "id") /\
      (truthy (optProp body "conversation_id") = true -> truthy c = true) /\
      (truthy (optProp (optFirst (optProp body "messages")) "id") = true ->
       truthy m = true)
  end.
Proof.
  intros Hr. apply returned_ids in Hr.
  set (x := (browserPostEventStream body timeoutMs fetched hasSink timeline).2) in *.
  assert (H : forall c m payloads,
            (c, m) = knownIds JSON_parse body payloads ->
            (forall data, In data payloads -> In data (seen x)) ->
            (c = optProp body "conversation_id" \/
             exists data ev,
               In data (seen x) /\
               data <> DONE /\ JSON_parse data = inl ev /\ truthy ev = true /\
               truthy (getProp ev "conversation_id") = true /\
               c = getProp ev "conversation_id") /\
            (m = optProp (optFirst (optProp body "messages")) "id" \/
             exists data ev,
               In data (seen x) /\
               data <> DONE /\ JSON_parse data = inl ev /\ truthy ev = true /\
               truthy (getProp (getProp ev "message") "id") = true /\
               m = getProp (getProp ev "message") "id") /\
            (truthy (optProp body "conversation_id") = true -> truthy c = true) /\
            (truthy (optProp (optFirst (optProp body "messages")) "id") = true ->
             truthy m = true)).
  { intros c m payloads Hk Hsub. unfold knownIds in Hk.
    destruct (knownIds_from payloads
                (conversationId (initialVars body), messageId (initialVars body)))
      as [F1 F2].
    destruct (knownIds_truthy payloads
                (conversationId (initialVars body), messageId (initialVars body)))
      as [T1 T2].
    rewrite <- Hk in F1, F2, T1, T2. cbn [fst snd initialVars conversationId messageId] in *.
    split; [|split; [|split; assumption]].
    - destruct F1 as [F1|(data & ev & Hin & F1)]; [now left|].
      right. exists data, ev. split; [now apply Hsub|exact F1].
    - destruct F2 as [F2|(data & ev & Hin & F2)]; [now left|].
      right. exists data, ev. split; [now apply Hsub|exact F2]. }
  destruct r as [a c m|msg code text c m].
  - destruct Hr as [[_ Hk]|Hk].
    + apply (H c m _ Hk). intros data Hin. now apply beforeDone_incl in Hin.
    + apply (H c m _ Hk). auto.
  - apply (H c m _ Hr). auto.
Qed.

(** *** The progress sink *)

Lemma onMessage_notifies hasSink orig v data :
  (length (onMessage hasSink orig v data).2 <= 1)%nat /\
  forall p, In (Notify p) (onMessage hasSink orig v data).2 ->
    hasSink = true /\ origMessageId p = orig /\ truthy (partResponse p) = true.
Proof.
  unfold Page.onMessage. destruct (text_eqb data DONE).
  { cbn. split; [lia|]. intros p [H|[]]. discriminate. }
  destruct (JSON_parse data) as [ev|e]; [|cbn; split; [lia|tauto]].
  destruct (negb (truthy ev)); [cbn; split; [lia|tauto]|].
  destruct (truthy (optFirst _)) eqn:E; [|cbn; split; [lia|tauto]].
  destruct hasSink; cbn; (split; [lia|]); [|tauto].
  intros p [[= <-]|[]]. auto.
Qed.

Lemma applyEffects_sink effects : forall x,
  seen (fold_left applyEffect effects x) = seen x /\
  (length (notified (fold_left applyEffect effects x))
     <= length (notified x) + length effects)%nat /\
  forall Q : PartialChatResponse -> Prop,
    Forall Q (notified x) -> (forall p, In (Notify p) effects -> Q p) ->
    Forall Q (notified (fold_left applyEffect effects x)).
Proof.
  induction effects as [|e effects IH]; intros x.
  - cbn. repeat split; [lia|auto].
  - cbn [fold_left]. destruct (IH (applyEffect x e)) as (H1 & H2 & H3).
    split; [rewrite H1; now destruct e|]. split.
    + etransitivity; [exact H2|]. destruct e; cbn; [lia|]. rewrite length_app. cbn. lia.
    + intros Q HQ Heff. apply H3.
      * destruct e as [r|p]; cbn; [exact HQ|]. apply Forall_app. split; [exact HQ|].
        constructor; [|constructor]. apply Heff. now left.
      * intros p Hp. apply Heff. now right.
Qed.

Lemma onParse_sinkUse hasSink orig x ev :
  sinkUse hasSink orig x -> sinkUse hasSink orig (onParse hasSink orig x ev).
Proof.
  intros Hx. destruct ev as [id name data|n]; [|assumption].
  unfold Page.onParse.
  destruct (onMessage_notifies hasSink orig (vars x) data) as [Hlen Hq].
  destruct (onMessage hasSink orig (vars x) data) as [v effects]. cbn [fst snd] in *.
  destruct Hx as (HQ & Hle & Hnone).
  match goal with
  | |- sinkUse _ _ (fold_left _ _ ?x0) =>
      destruct (applyEffects_sink effects x0) as (H1 & H2 & H3)
  end.
  cbn [seen notified] in *. split; [|split].
  - apply H3; [exact HQ|]. intros p Hp. now destruct (Hq p Hp) as (_ & ? & ?).
  - rewrite H1, length_app. cbn. lia.
  - destruct hasSink; [exact I|].
    assert (Hno : forall p, ~ In (Notify p) effects)
      by (intros p Hp; now destruct (Hq p Hp) as [? _]).
    specialize (H3 (fun _ => False)). rewrite Hnone in H3 |- *.
    specialize (H3 ltac:(constructor) Hno).
    destruct H3 as [|p l []]. reflexivity.
Qed.

Lemma onParse_fold_sinkUse hasSink orig parsed : forall x,
  sinkUse hasSink orig x -> sinkUse hasSink orig (fold_left (onParse hasSink orig) parsed x).
Proof.
  induction parsed as [|ev parsed IH]; intros x Hx; [assumption|].
  cbn [fold_left]. apply IH. now apply onParse_sinkUse.
Qed.

Lemma step_sinkUse hasSink orig ms x ev :
  sinkUse hasSink orig x -> sinkUse hasSink orig (step hasSink orig ms x ev).
Proof.
  intros Hx.
  assert (H : sinkUse hasSink orig (handle hasSink orig ms x ev)).
  { destruct ev as [text| |e|e|]; unfold Page.handle.
    - destruct (reading x); [|assumption].
      destruct (feed (parser x) text) as [parser' parsed].
      apply onParse_fold_sinkUse. exact Hx.
    - exact Hx.
    - exact Hx.
    - destruct (awaiting x); exact Hx.
    - destruct (deadline x); exact Hx. }
  unfold Page.step, deliver.
  destruct (deadline _); [|exact H]. destruct (responseP _); exact H.
Qed.

Lemma await_sinkUse hasSink orig ms timeline : forall x,
  sinkUse hasSink orig x -> sinkUse hasSink orig (await hasSink orig ms x timeline).2.
Proof.
  induction timeline as [|ev timeline IH]; intros x Hx; cbn [Page.await].
  - destruct (awaited x); exact Hx.
  - destruct (awaited x); [|exact Hx..]. apply IH. now apply step_sinkUse.
Qed.

Lemma final_sinkUse body timeoutMs fetched hasSink timeline :
  sinkUse hasSink (messageId (initialVars body))
    (browserPostEventStream body timeoutMs fetched hasSink timeline).2.
Proof.
  assert (H0 : forall ms,
             sinkUse hasSink (messageId (initialVars body))
               (initialExchange ToString body ms)).
  { intros ms. split; [constructor|]. split; [cbn; lia|]. now destruct hasSink. }
  unfold Page.browserPostEventStream, tryBlock.
  destruct fetched as [e|ok status statusText];
    [destruct (catchBlock _ e); apply H0|].
  destruct ok; cbn [negb]; cbv iota; [|apply H0].
  pose proof (await_sinkUse hasSink (messageId (initialVars body)) timeoutMs timeline _
                (H0 timeoutMs)) as H.
  destruct (await hasSink (messageId (initialVars body)) timeoutMs
              (initialExchange ToString body timeoutMs) timeline) as [t x].
  destruct t as [r|e|]; [|destruct (catchBlock (vars x) e)|]; exact H.
Qed.

(** X15. What the progress sink receives.  Whatever [fetch] does and
    whatever the page delivers, every partial response given to
    [window.ChatGPTAPIBrowserOnProgress] carries as [origMessageId] the id
    of the first message of the request body and a response text that is
    not empty; there is at most one of them for each payload given to
    [onMessage], and none when the page has no sink. *)
Theorem progress_carries_the_request_id (body timeoutMs : Value)
    (fetched : FetchOutcome) (hasSink : bool) (timeline : list PageEvent) :
  Forall (fun p =>
            origMessageId p = optProp (optFirst (optProp body "messages")) "id" /\
            truthy (partResponse p) = true)
    (notified (browserPostEventStream body timeoutMs fetched hasSink timeline).2) /\
  (length (notified (browserPostEventStream body timeoutMs fetched hasSink timeline).2)
   <= length (seen (browserPostEventStream body timeoutMs fetched hasSink timeline).2))%nat /\
  (if hasSink then True
   else notified (browserPostEventStream body timeoutMs fetched hasSink timeline).2 = []).
Proof. exact (final_sinkUse body timeoutMs fetched hasSink timeline). Qed.

End Facts.

Lemma snapshot_comes_from_done_witness :
  In DONE
    (seen (browserPostEventStream Examples.exampleToString Examples.exampleParse
             Examples.exampleBody Undefined (Responds true (Int 200) (Str (str "OK")))
             true (Examples.twoSnapshots ++ [Chunk (Examples.sse DONE)])).2) \/
  (truthy (Str (str "Hello")) = true /\
   exists e,
     In (ProgressRejects e) (Examples.twoSnapshots ++ [Chunk (Examples.sse DONE)]) /\
     readsAsTerminated Examples.exampleToString e = true).
Proof.
  apply (snapshot_comes_from_done Examples.exampleToString Examples.exampleParse
           Examples.exampleBody Undefined (Responds true (Int 200) (Str (str "OK")))
           true (Examples.twoSnapshots ++ [Chunk (Examples.sse DONE)])
           (Str (str "Hello")) (Str (str "c1")) (Str (str "m2"))).
  vm_compute. reflexivity.
Defined.

Lemma deadline_ends_a_pending_call_witness :
  (browserPostEventStream Examples.exampleToString Examples.exampleParse
     Examples.exampleBody (Int 1000) (Responds true (Int 200) (Str (str "OK"))) true
     ((Examples.twoSnapshots ++ [ReadDone]) ++ DeadlineElapses :: [Chunk (Examples.sse DONE)])).1
  = Returns
      (Failure (str "TimeoutError: ChatGPT timed out waiting for response")
         Undefined Undefined (Str (str "c1")) (Str (str "m2"))).
Proof.
  apply (deadline_ends_a_pending_call Examples.exampleToString Examples.exampleParse
           Examples.exampleBody (Int 1000) (Int 200) (Str (str "OK")) true
           (Examples.twoSnapshots ++ [ReadDone]) [Chunk (Examples.sse DONE)]).
  - reflexivity.
  - discriminate.
  - vm_compute. reflexivity.
Defined.

Lemma invalid_timeout_is_reported_witness :
  (browserPostEventStream Examples.exampleToString Examples.exampleParse
     Examples.exampleBody (Str (str "1000")) (Responds true (Int 200) (Str (str "OK")))
     true Examples.twoSnapshots).1
  = Returns
      (Failure
         (str "TypeError: Expected `milliseconds` to be a positive number, got `1000`")
         Undefined Undefined Undefined (Str (str "m0"))).
Proof.
  rewrite (invalid_timeout_is_reported Examples.exampleToString Examples.exampleParse
             Examples.exampleBody (Str (str "1000")) (Int 200) (Str (str "OK")) true
             Examples.twoSnapshots); reflexivity.
Defined.

Lemma only_done_makes_it_return_witness :
  In DONE
    (seen (browserPostEventStream Examples.exampleToString Examples.exampleParse
             Examples.exampleBody Undefined (Responds true (Int 200) (Str (str "OK")))
             true (Examples.twoSnapshots ++ [Chunk (Examples.sse DONE)])).2) /\
  exists a b c,
    Snapshot (Str (str "Hello")) (Str (str "c1")) (Str (str "m2")) = Snapshot a b c.
Proof.
  apply (only_done_makes_it_return Examples.exampleToString Examples.exampleParse
           Examples.exampleBody Undefined (Int 200) (Str (str "OK")) true
           (Examples.twoSnapshots ++ [Chunk (Examples.sse DONE)])).
  - reflexivity.
  - repeat constructor; intros [].
  - vm_compute. reflexivity.
Defined.

(** A follow-up request, which carries both ids: when the answer is
    [[DONE]] alone, the snapshot holds the ids of the request; when two
    payloads come first, it holds the ids that they supplied. *)
Lemma request_ids_are_kept_witness :
  let call :=
    browserPostEventStream Examples.exampleToString Examples.exampleParse
      Examples.followUpBody Undefined (Responds true (Int 200) (Str (str "OK"))) true in
  truthy (optProp Examples.followUpBody "conversation_id") = true /\
  truthy (optProp (optFirst (optProp Examples.followUpBody "messages")) "id") = true /\
  ((call [Chunk (Examples.sse DONE)]).1
     = Returns (Snapshot (Str []) (Str (str "c0")) (Str (str "m5"))) /\
   Str (str "c0") = optProp Examples.followUpBody "conversation_id" /\
   Str (str "m5") = optProp (optFirst (optProp Examples.followUpBody "messages")) "id") /\
  ((call (Examples.twoSnapshots ++ [Chunk (Examples.sse DONE)])).1
     = Returns (Snapshot (Str (str "Hello")) (Str (str "c1")) (Str (str "m2"))) /\
   (exists data ev,
      In data (seen (call (Examples.twoSnapshots ++ [Chunk (Examples.sse DONE)])).2) /\
      data <> DONE /\ Examples.exampleParse data = inl ev /\ truthy ev = true /\
      truthy (getProp ev "conversation_id") = true /\
      Str (str "c1") = getProp ev "conversation_id") /\
   (exists data ev,
      In data (seen (call (Examples.twoSnapshots ++ [Chunk (Examples.sse DONE)])).2) /\
      data <> DONE /\ Examples.exampleParse data = inl ev /\ truthy ev = true /\
      truthy (getProp (getProp ev "message") "id") = true /\
      Str (str "m2") = getProp (getProp ev "message") "id") /\
   truthy (Str (str "c1")) = true /\ truthy (Str (str "m2")) = true).
Proof.
  cbv zeta.
  pose proof (request_ids_are_kept Examples.exampleToString Examples.exampleParse
                Examples.followUpBody Undefined
                (Responds true (Int 200) (Str (str "OK"))) true
                [Chunk (Examples.sse DONE)]
                (Snapshot (Str []) (Str (str "c0")) (Str (str "m5")))
                ltac:(vm_compute; reflexivity)) as H1.
  pose proof (request_ids_are_kept Examples.exampleToString Examples.exampleParse
                Examples.followUpBody Undefined
                (Responds true (Int 200) (Str (str "OK"))) true
                (Examples.twoSnapshots ++ [Chunk (Examples.sse DONE)])
                (Snapshot (Str (str "Hello")) (Str (str "c1")) (Str (str "m2")))
                ltac:(vm_compute; reflexivity)) as H2.
  cbv beta iota in H1, H2.
  destruct H1 as (_ & _ & _ & _).
  destruct H2 as (Hc & Hm & Tc & Tm).
  split; [reflexivity|]. split; [reflexivity|].
  split; [split; [vm_compute; reflexivity|split; reflexivity]|].
  split; [vm_compute; reflexivity|].
  split; [destruct Hc as [Hc|Hc]; [discriminate Hc|exact Hc]|].
  split; [destruct Hm as [Hm|Hm]; [discriminate Hm|exact Hm]|].
  split; [apply Tc; reflexivity|apply Tm; reflexivity].
Defined.

End PageMore.

(** ** Further properties of the browser client *)

Module BrowserMore.
Import Js Browser Routing BrowserFacts.

Section Facts.

Context {Handler : Type}.
Variable markdownToText : Value -> Value.

#[local] Abbreviation Client := (Client (Handler := Handler)).
#[local] Abbreviation turn := (turn (Handler := Handler) markdownToText).
#[local] Abbreviation doWhile := (doWhile (Handler := Handler) markdownToText).
#[local] Abbreviation sendMessage := (sendMessage (Handler := Handler) markdownToText).

Ltac turn_cases :=
  unfold Browser.turn, getIsAuthenticated, pageEvaluate;
  cbv beta iota zeta;
  repeat (match goal with
          | |- context [if ?b then _ else _] => destruct b eqn:?
          | |- context [match ?e with EvalThrows _ => _ | _ => _ end] => destruct e eqn:?
          | |- context [match ?r with Page.Snapshot _ _ _ => _ | _ => _ end] => destruct r
          end; cbv beta iota zeta).

Lemma attempts_cleanup messageId (c : Client) :
  attempts (cleanup messageId c) = attempts c /\
  reauthentications (cleanup messageId c) = reauthentications c /\
  authCalls (cleanup messageId c) = authCalls c /\
  evalCalls (cleanup messageId c) = evalCalls c.
Proof.
  unfold cleanup, attempts, reauthentications, log.
  destruct (_messageOnProgressHandlers c !! messageId); cbn;
    rewrite !List.filter_app, !length_app; cbn; repeat split; lia.
Qed.

(** What one turn of the loop adds to the counters. *)
Lemma turn_counts w markdown messageId (c : Client) l :
  (attempts (turn w markdown messageId c l).1.2 <= attempts c + 1)%nat /\
  (reauthentications (turn w markdown messageId c l).1.2
     <= reauthentications c + 1)%nat /\
  (authCalls (turn w markdown messageId c l).1.2 <= authCalls c + 2)%nat /\
  (evalCalls (turn w markdown messageId c l).1.2 <= evalCalls c + 1)%nat.
Proof.
  turn_cases; cbn [fst snd];
    repeat match goal with
           | |- context [cleanup ?m ?c0] =>
               let H := fresh in
               pose proof (attempts_cleanup m c0) as H;
               destruct H as (-> & -> & -> & ->)
           end;
    unfold attempts, reauthentications, log; cbn;
    rewrite ?List.filter_app, ?length_app; cbn; repeat split; lia.
Qed.

Lemma doWhile_counts fuel w markdown messageId : forall (c : Client) l r,
  doWhile fuel w markdown messageId c l = Some r ->
  (attempts r.2 <= attempts c + fuel)%nat /\
  (reauthentications r.2 <= reauthentications c + fuel)%nat /\
  (authCalls r.2 <= authCalls c + 2 * fuel)%nat /\
  (evalCalls r.2 <= evalCalls c + fuel)%nat.
Proof.
  induction fuel as [|fuel IH]; intros c l r; [discriminate|].
  cbn [Browser.doWhile].
  pose proof (turn_counts w markdown messageId c l) as (H1 & H2 & H3 & H4).
  destruct (turn w markdown messageId c l) as [[[| r0 | e] c1] l1]; cbn [fst snd] in *.
  - destruct (result l1).
    + intros [= <-]. cbn [snd].
      destruct (attempts_cleanup messageId c1) as (-> & -> & -> & ->). lia.
    + intros Hr. destruct (IH _ _ _ Hr) as (H5 & H6 & H7 & H8). lia.
  - intros [= <-]. cbn [snd]. lia.
  - intros [= <-]. cbn [snd]. lia.
Qed.

(** X16. The retry loop is bounded: whatever the page and the session do,
    one call of [sendMessage] evaluates the page function at most twice,
    re-authenticates at most twice and asks at most four times whether the
    client is signed in. *)
Theorem at_most_two_attempts (w : World) (markdown : bool) (messageId : string)
    (onProgress : option Handler) (c : Client) :
  (attempts (sendMessage w markdown messageId onProgress c).2 <= attempts c + 2)%nat /\
  (reauthentications (sendMessage w markdown messageId onProgress c).2
     <= reauthentications c + 2)%nat /\
  (authCalls (sendMessage w markdown messageId onProgress c).2 <= authCalls c + 4)%nat /\
  (evalCalls (sendMessage w markdown messageId onProgress c).2 <= evalCalls c + 2)%nat.
Proof.
  destruct (sendMessage_total markdownToText w markdown messageId onProgress c)
    as (r & Hr & ->).
  apply doWhile_counts in Hr. destruct onProgress; exact Hr.
Qed.










End Facts.





(** X21. A partial response reaches the caller's callback.  With the
    request body that [sendMessage] builds for a message id that is not
    empty, and the callback registered under that id: every partial
    response that [browserPostEventStream] gives to the progress sink is
    passed by the exposed function to that callback, whatever else the
    registry holds. *)
Theorem progress_reaches_the_handler {Handler : Type}
    (ToString : Value -> list ascii) (JSON_parse : list ascii -> Value + Error)
    (handlers : gmap string Handler) (h : Handler)
    (action message parentMessageId conversationId timeoutMs : Value)
    (messageId : string) (isProAccount : bool)
    (fetched : Page.FetchOutcome) (timeline : list Page.PageEvent) :
  (forall s, ToString (Str s) = s) ->
  messageId <> EmptyString ->
  Forall (fun p =>
            onProgressExposed ToString (<[messageId := h]> handlers) (Some p)
            = CallsHandler h)
    (Page.notified
       (Page.browserPostEventStream ToString JSON_parse
          (requestBody action message messageId parentMessageId conversationId
             isProAccount)
          timeoutMs fetched true timeline).2).
Proof.
  intros HToString Hne.
  destruct (PageMore.final_sinkUse ToString JSON_parse
              (requestBody action message messageId parentMessageId conversationId
                 isProAccount) timeoutMs fetched true timeline) as [H _].
  revert H. apply List.Forall_impl. intros p [Horig _].
  unfold onProgressExposed. rewrite Horig.
  change (Page.messageId
            (Page.initialVars
               (requestBody action message messageId parentMessageId conversationId
                  isProAccount)))
    with (Str (str messageId)).
  assert (Ht : truthy (Str (str messageId)) = true)
    by (destruct messageId; [congruence|reflexivity]).
  rewrite Ht, HToString. unfold str. rewrite string_of_list_ascii_of_string.
  now rewrite lookup_insert_eq.
Qed.

Lemma progress_reaches_the_handler_witness :
  Forall (fun p =>
            onProgressExposed Examples.exampleToString
              (<["m0"%string := 1%nat]> (<["toString"%string := 2%nat]> ∅)) (Some p)
            = CallsHandler 1%nat)
    (Page.notified
       (Page.browserPostEventStream Examples.exampleToString Examples.exampleParse
          (requestBody (Str (str "next")) (Str (str "Hi")) "m0" (Str (str "p0"))
             Undefined false)
          Undefined (Page.Responds true (Int 200) (Str (str "OK"))) true
          Examples.twoSnapshots).2).
Proof.
  apply (progress_reaches_the_handler Examples.exampleToString Examples.exampleParse
           (<["toString"%string := 2%nat]> ∅) 1%nat (Str (str "next")) (Str (str "Hi"))
           (Str (str "p0")) Undefined Undefined "m0" false
           (Page.Responds true (Int 200) (Str (str "OK"))) Examples.twoSnapshots).
  - reflexivity.
  - discriminate.
Defined.

End BrowserMore.

(** ** The capacity check *)

Module CapacityFacts.
Import Js Capacity.

Lemma capacity_loop_total fuel page retries : forall s,
  (Z.to_nat retries - numTries s < fuel)%nat ->
  exists r, doWhile fuel page retries s = Some r.
Proof.
  induction fuel as [|fuel IH]; intros s Hfuel; [lia|].
  cbn [doWhile]. destruct (look page (looks s)); eauto.
  destruct (Z.leb_spec retries (Z.of_nat (S (numTries s)))); eauto.
  destruct (reload page (reloads s)); eauto.
  apply IH. cbn [numTries]. lia.
Qed.

Lemma checkForChatGPTAtCapacity_total page retries :
  exists r,
    doWhile (S (Z.to_nat retries)) page retries start = Some r /\
    (checkForChatGPTAtCapacity page retries).2 = r.
Proof.
  destruct (capacity_loop_total (S (Z.to_nat retries)) page retries start) as [r Hr];
    [cbn; lia|].
  exists r. split; [exact Hr|]. unfold checkForChatGPTAtCapacity. now rewrite Hr.
Qed.

Lemma doWhile_bounds fuel page retries : forall s r,
  doWhile fuel page retries s = Some r ->
  (looks s < looks r)%nat /\
  (looks r <= looks s + Nat.max 1 (Z.to_nat retries - numTries s))%nat /\
  (reloads r - reloads s <= looks r - looks s)%nat /\
  (reloads s <= reloads r)%nat.
Proof.
  induction fuel as [|fuel IH]; intros s r; [discriminate|].
  cbn [doWhile]. destruct (look page (looks s)).
  - intros [= <-]. cbn. lia.
  - intros [= <-]. cbn. lia.
  - destruct (Z.leb_spec retries (Z.of_nat (S (numTries s)))).
    + intros [= <-]. cbn. lia.
    + destruct (reload page (reloads s)).
      * intros [= <-]. cbn. lia.
      * intros Hr. apply IH in Hr. cbn in Hr. lia.
Qed.

(** X22. The capacity check is bounded: whatever the page does, the loop
    ends; it looks for the notice at least once and at most [retries]
    times (once when [retries] is below one), and reloads the page at most
    once for each look. *)
Theorem capacity_check_is_bounded (page : Page) (retries : Z) :
  (exists r, doWhile (S (Z.to_nat retries)) page retries start = Some r /\
             (checkForChatGPTAtCapacity page retries).2 = r) /\
  (1 <= looks (checkForChatGPTAtCapacity page retries).2)%nat /\
  (looks (checkForChatGPTAtCapacity page retries).2
     <= Nat.max 1 (Z.to_nat retries))%nat /\
  (reloads (checkForChatGPTAtCapacity page retries).2
     <= looks (checkForChatGPTAtCapacity page retries).2)%nat.
Proof.
  split; [apply checkForChatGPTAtCapacity_total|].
  destruct (checkForChatGPTAtCapacity_total page retries) as (r & Hr & ->).
  apply doWhile_bounds in Hr. cbn in Hr. lia.
Qed.

Lemma doWhile_outcome fuel page retries : forall s r,
  doWhile fuel page retries s = Some r ->
  (looks s < looks r)%nat /\
  (isAtCapacity r = false <->
   look page (looks r - 1) = NotAtCapacity \/
   (isAtCapacity s = false /\ looks r = S (looks s) /\
    exists e, look page (looks s) = LookThrows e)).
Proof.
  induction fuel as [|fuel IH]; intros s r; [discriminate|].
  cbn [doWhile]. destruct (look page (looks s)) eqn:E.
  - intros [= <-]. cbn. rewrite Nat.sub_0_r, E. split; [lia|]. split.
    + intros H. right. eauto.
    + intros [H|[H _]]; [discriminate|exact H].
  - intros [= <-]. cbn. rewrite Nat.sub_0_r, E. split; [lia|]. tauto.
  - destruct (Z.leb_spec retries (Z.of_nat (S (numTries s)))) as [Hle|Hgt].
    + intros [= <-]. cbn. rewrite Nat.sub_0_r, E. split; [lia|]. split.
      * discriminate.
      * intros [H|(_ & _ & e' & H)]; discriminate.
    + destruct (reload page (reloads s)) as [err|].
      * intros [= <-]. cbn. rewrite Nat.sub_0_r, E. split; [lia|]. split.
        -- discriminate.
        -- intros [H|(_ & _ & e' & H)]; discriminate.
      * intros Hr. apply IH in Hr. cbn in Hr. destruct Hr as [Hlt Hiff].
        split; [lia|]. rewrite Hiff. split.
        -- intros [H|[H _]]; [now left|discriminate].
        -- intros [H|(_ & H & _)]; [now left|lia].
Qed.

(** X23. When the capacity check passes.  It returns normally exactly
    when the last look found no notice, or the very first look threw.  An
    exception of a later look, or of a reload, ends the check with the
    error "ChatGPT is at capacity" (status 503), like a notice that is
    still there after the last try. *)
Theorem capacity_check_outcome (page : Page) (retries : Z) :
  ((checkForChatGPTAtCapacity page retries).1 = None <->
   look page (looks (checkForChatGPTAtCapacity page retries).2 - 1) = NotAtCapacity \/
   exists e, look page 0 = LookThrows e) /\
  ((checkForChatGPTAtCapacity page retries).1 <> None ->
   (checkForChatGPTAtCapacity page retries).1 = Some atCapacityError /\
   errStatusCode atCapacityError = Int 503).
Proof.
  destruct (checkForChatGPTAtCapacity_total page retries) as (r & Hr & Hr2).
  assert (H1 : (checkForChatGPTAtCapacity page retries).1
               = if isAtCapacity r then Some atCapacityError else None).
  { unfold checkForChatGPTAtCapacity. now rewrite Hr. }
  rewrite H1, Hr2. split.
  - pose proof (doWhile_outcome _ _ _ _ _ Hr) as [_ Hiff]. cbn [start looks isAtCapacity] in Hiff.
    split.
    + intros H. destruct (isAtCapacity r); [discriminate|].
      destruct (proj1 Hiff eq_refl) as [H2|(_ & _ & H2)]; auto.
    + intros [H|[e He]].
      * rewrite (proj2 Hiff (or_introl H)). reflexivity.
      * assert (Hone : r = mkCheck false 1 1 0).
        { cbn [doWhile] in Hr. cbn [start looks] in Hr. rewrite He in Hr.
          cbn in Hr. congruence. }
        rewrite Hone. reflexivity.
  - destruct (isAtCapacity r); [auto|congruence].
Qed.

Lemma doWhile_persistent fuel page retries : forall s,
  (forall n, look page n = AtCapacity) ->
  (forall n, reload page n = None) ->
  (Z.to_nat retries - numTries s < fuel)%nat ->
  doWhile fuel page retries s =
  Some (mkCheck true
          (numTries s + Nat.max 1 (Z.to_nat retries - numTries s))
          (looks s + Nat.max 1 (Z.to_nat retries - numTries s))
          (reloads s + Nat.max 1 (Z.to_nat retries - numTries s) - 1)).
Proof.
  intros s Hlook Hreload. revert s.
  induction fuel as [|fuel IH]; intros s Hfuel; [lia|].
  cbn [doWhile]. rewrite Hlook.
  destruct (Z.leb_spec retries (Z.of_nat (S (numTries s)))).
  - f_equal. f_equal; lia.
  - rewrite Hreload, IH by (cbn; lia). cbn. f_equal. f_equal; lia.
Qed.

(** X24. A notice that stays.  When every look finds the notice and every
    reload succeeds, the check looks [retries] times (once when [retries]
    is below one), reloads the page between two looks and not after the
    last, and throws the error "ChatGPT is at capacity". *)
Theorem capacity_notice_that_stays (page : Page) (retries : Z) :
  (forall n, look page n = AtCapacity) ->
  (forall n, reload page n = None) ->
  checkForChatGPTAtCapacity page retries =
  (Some atCapacityError,
   mkCheck true (Nat.max 1 (Z.to_nat retries)) (Nat.max 1 (Z.to_nat retries))
     (Nat.max 1 (Z.to_nat retries) - 1)).
Proof.
  intros Hlook Hreload. unfold checkForChatGPTAtCapacity.
  rewrite (doWhile_persistent _ _ _ start Hlook Hreload) by (cbn; lia).
  cbn. rewrite Nat.sub_0_r. reflexivity.
Qed.

Lemma capacity_notice_that_stays_witness :
  checkForChatGPTAtCapacity (mkPage (fun _ => AtCapacity) (fun _ => None)) 10 =
  (Some atCapacityError, mkCheck true 10 10 9).
Proof.
  apply (capacity_notice_that_stays (mkPage (fun _ => AtCapacity) (fun _ => None)) 10);
    reflexivity.
Defined.

End CapacityFacts.

(** ** The proxy setting *)

Module ProxyFacts.
Import Proxy.

Lemma split_none sep s : includes s sep = false -> split sep s = [s].
Proof.
  induction s as [|c s IH]; [reflexivity|]. cbn [includes existsb split].
  rewrite (Ascii.eqb_sym c sep). destruct (Ascii.eqb sep c); [discriminate|].
  cbn [orb]. intros H. unfold includes in IH. now rewrite (IH H).
Qed.

Lemma split_at sep a b :
  includes a sep = false -> split sep (a ++ sep :: b) = a :: split sep b.
Proof.
  induction a as [|c a IH]; cbn [includes existsb split app].
  - now rewrite Ascii.eqb_refl.
  - rewrite (Ascii.eqb_sym c sep). destruct (Ascii.eqb sep c); [discriminate|].
    cbn [orb]. intros H. unfold includes in IH. now rewrite (IH H).
Qed.

Lemma includes_at a b sep : includes (a ++ sep :: b) sep = true.
Proof.
  unfold includes. rewrite existsb_app. cbn. rewrite Ascii.eqb_refl.
  now rewrite orb_true_r.
Qed.

(** X25. The proxy setting is read the same way by [getPage] and
    [getBrowser].  For a setting of the form user:password@host, where
    user and password hold neither a colon nor an at sign and host holds no
    at sign, [getPage] authenticates with exactly that user and password,
    and [getBrowser] passes exactly the host as the proxy server. *)
Theorem proxy_setting_is_split (user password host : list ascii) :
  includes user COLON = false -> includes user AT = false ->
  includes password COLON = false -> includes password AT = false ->
  includes host AT = false ->
  proxyCredentials (Some (user ++ COLON :: password ++ AT :: host))
    = Some (user, Some password) /\
  proxyArgument (Some (user ++ COLON :: password ++ AT :: host))
    = Some (str "--proxy-server=" ++ host).
Proof.
  intros Hu1 Hu2 Hp1 Hp2 Hh.
  set (auth := user ++ COLON :: password).
  assert (Hauth : includes auth AT = false).
  { unfold auth, includes in *. rewrite existsb_app. cbn. now rewrite Hu2, Hp2. }
  assert (Hs : user ++ COLON :: password ++ AT :: host = auth ++ AT :: host)
    by (unfold auth; now rewrite <- app_assoc).
  assert (Hne : exists c s, auth ++ AT :: host = c :: s)
    by (unfold auth; destruct user; cbn; eauto).
  rewrite Hs. destruct Hne as (c & s & Hcs).
  unfold proxyCredentials, proxyArgument. rewrite Hcs, <- Hcs.
  rewrite includes_at, (split_at AT auth host Hauth), (split_none AT host Hh).
  cbn [hd nth_error]. unfold auth.
  rewrite (split_at COLON user password Hu1), (split_none COLON password Hp1).
  auto.
Qed.

Lemma proxy_setting_is_split_witness :
  proxyCredentials (Some (str "bob:secret@10.0.0.1:8080"))
    = Some (str "bob", Some (str "secret")) /\
  proxyArgument (Some (str "bob:secret@10.0.0.1:8080"))
    = Some (str "--proxy-server=10.0.0.1:8080").
Proof.
  apply (proxy_setting_is_split (str "bob") (str "secret") (str "10.0.0.1:8080"));
    reflexivity.
Defined.

End ProxyFacts.

(** ** Further properties of the direct client *)

Module ApiMore.
Import Js Api Session Variants.

Lemma text_needs_message m :
  truthy (optFirst (optProp (optProp m "content") "parts")) = true -> truthy m = true.
Proof. destruct m as [| |b|n|s|l|f]; try discriminate; reflexivity. Qed.

(** X26. The two variants of [onMessage] agree.  On [[DONE]] and on every
    payload that [JSON.parse] reads as a value other than [null], the
    direct client (keeping markdown) and the page function do the same
    thing to the conversation id, the message id and the response text,
    and signal the same: a resolution with the current values, or one
    progress report with the new values when a callback is there.  They
    differ only on payloads that do not parse, or parse to [null]. *)
Theorem variants_agree (JSON_parse : list ascii -> Value + Error)
    (markdownToText : Value -> Value) (hasProgress : bool) (orig : Value)
    (result : SendResult) (v : Page.Vars) (data : list ascii) :
  sameValues result v ->
  (data = Page.DONE \/ exists ev, JSON_parse data = inl ev /\ nullish ev = false) ->
  sameValues (onMessage JSON_parse markdownToText true hasProgress result data).1
    (Page.onMessage JSON_parse hasProgress orig v data).1 /\
  Forall2 (sameSignal orig)
    (onMessage JSON_parse markdownToText true hasProgress result data).2
    (Page.onMessage JSON_parse hasProgress orig v data).2.
Proof.
  intros (Hc & Hm & Hr) Hdata. unfold onMessage, Page.onMessage.
  change (str "[DONE]") with Page.DONE.
  destruct (text_eqb data Page.DONE) eqn:Ed.
  { cbn [fst snd]. split; [now repeat split|]. constructor; [|constructor].
    cbn. auto. }
  destruct Hdata as [->|(ev & -> & Hnull)].
  { unfold text_eqb in Ed. now rewrite bool_decide_eq_true_2 in Ed. }
  rewrite Hnull.
  destruct (truthy ev) eqn:Et; cbn [negb].
  - pose proof (text_needs_message (getProp ev "message")) as Hmsg.
    destruct (truthy (optFirst (optProp (optProp (getProp ev "message") "content")
                                  "parts"))) eqn:Ep.
    + rewrite (Hmsg eq_refl). cbn [andb fst snd]. split.
      * repeat split; cbn; rewrite ?Hc, ?Hm; reflexivity.
      * destruct hasProgress; constructor; [|constructor].
        cbn. rewrite ?Hc, ?Hm. auto.
    + rewrite andb_false_r. cbn [fst snd]. split; [|constructor].
      repeat split; cbn; rewrite ?Hc, ?Hm, ?Hr; reflexivity.
  - assert (Hnot : forall name, getProp ev name = Undefined).
    { intros name. destruct ev as [| |b|n|s|l|f]; try reflexivity; discriminate. }
    rewrite !Hnot. cbn. split; [|constructor]. now repeat split.
Qed.

Lemma variants_agree_witness :
  sameValues
    (onMessage Examples.exampleParse (fun v => v) true true
       (mkSendResult Undefined (Str (str "m0")) (Str []))
       (Examples.payload "c1" "m1" "Hel")).1
    (Page.onMessage Examples.exampleParse true (Str (str "m0"))
       (Page.mkVars (Str []) Undefined (Str (str "m0")))
       (Examples.payload "c1" "m1" "Hel")).1.
Proof.
  apply (variants_agree Examples.exampleParse (fun v => v) true (Str (str "m0"))
           (mkSendResult Undefined (Str (str "m0")) (Str []))
           (Page.mkVars (Str []) Undefined (Str (str "m0")))
           (Examples.payload "c1" "m1" "Hel")).
  - repeat split.
  - right. exists (Examples.payloadValue "c1" "m1" "Hel"). split; reflexivity.
Defined.

Section Cache.

Variable ToString : Value -> list ascii.

Lemma requestToken_truthy reply token user :
  requestToken ToString reply = inl (token, user) -> truthy token = true.
Proof.
  unfold requestToken. destruct reply as [e|st tx|st tx e|st tx res]; try discriminate.
  destruct (truthy (optProp res "accessToken")) eqn:E; cbn [negb]; [|discriminate].
  destruct (truthy (optProp res "error")).
  - destruct (match optProp res "error" with Str s => _ | _ => false end); discriminate.
  - now intros [= <- _].
Qed.

Lemma fetched_token_is_cached_aux (now later t later' : Z) (c : Client)
    (reply reply' : SessionReply) (token user : Value) :
  truthy (get now (_accessTokenCache c)) = false ->
  requestToken ToString reply = inl (token, user) ->
  t < later + maxAge (_accessTokenCache c) ->
  (refreshSession ToString now later c reply).1 = inl token /\
  refreshSession ToString t later' (refreshSession ToString now later c reply).2 reply'
  = (inl token, (refreshSession ToString now later c reply).2).
Proof.
  intros Hmiss Hreply Ht. pose proof (requestToken_truthy _ _ _ Hreply) as Htoken.
  unfold refreshSession at 1 3 4. rewrite Hmiss, Hreply. cbn [fst snd].
  split; [reflexivity|].
  unfold refreshSession, get, set. cbn [_accessTokenCache entry maxAge].
  destruct (Z.ltb_spec t (later + maxAge (_accessTokenCache c))); [|lia].
  now rewrite Htoken.
Qed.

(** X27. A token that was fetched is served from the cache.  When
    [refreshSession] finds no valid token in the cache and the service
    answers with one, it returns that token; and every later call, as long
    as the time-to-live has not elapsed since the token was stored, returns
    the same token without using the answer of the service and without
    changing the client.  (The cache is the expiry-map package, modelled
    from the specification: the source only imports it.) *)
Theorem fetched_token_is_cached (now later t later' : Z) (c : Client)
    (reply reply' : SessionReply) (token user : Value) :
  truthy (get now (_accessTokenCache c)) = false ->
  requestToken ToString reply = inl (token, user) ->
  t < later + maxAge (_accessTokenCache c) ->
  (refreshSession ToString now later c reply).1 = inl token /\
  refreshSession ToString t later' (refreshSession ToString now later c reply).2 reply'
  = (inl token, (refreshSession ToString now later c reply).2).
Proof. apply fetched_token_is_cached_aux. Qed.

(** X28. [resetSession] never answers from the cache.  Whatever the cache
    holds, [resetSession] asks the service: it fails exactly when the
    answer of the service is not accepted, and after a success the cache
    holds the token of that answer, which [refreshSession] then returns
    until its time-to-live has elapsed.  It returns no credentials.  (The
    cache is the expiry-map package, modelled from the specification.) *)
Theorem reset_session_asks_again (now later t later' : Z) (c : Client)
    (reply reply' : SessionReply) :
  t < later + maxAge (_accessTokenCache c) ->
  match requestToken ToString reply with
  | inl (token, user) =>
      (resetSession ToString now later c reply).1 = None /\
      refreshSession ToString t later' (resetSession ToString now later c reply).2 reply'
      = (inl token, (resetSession ToString now later c reply).2)
  | inr err =>
      (resetSession ToString now later c reply).1
      = Some (chatGPTError
                (str "ChatGPT failed to refresh auth token. " ++ errToString err)
                (replyStatus reply).1 (replyStatus reply).2) /\
      (resetSession ToString now later c reply).2 = closeSession c
  end.
Proof.
  intros Ht. unfold resetSession, initSession.
  assert (Hmiss : truthy (get now (_accessTokenCache (closeSession c))) = false)
    by reflexivity.
  destruct (requestToken ToString reply) as [[token user]|err] eqn:Hreply.
  - destruct (fetched_token_is_cached_aux now later t later' (closeSession c) reply reply'
                token user Hmiss Hreply Ht) as [H1 H2].
    destruct (refreshSession ToString now later (closeSession c) reply) as [[tok|e] c']
      eqn:E; cbn [fst snd] in *; [|discriminate].
    split; [reflexivity|]. exact H2.
  - unfold refreshSession. rewrite Hmiss, Hreply. auto.
Qed.

End Cache.

Lemma fetched_token_is_cached_witness :
  (refreshSession Examples.exampleToString 0 5
     (construct 0 3600000 Undefined)
     (Body (Int 200) (Str (str "OK")) (Obj [("accessToken"%string, Str (str "tok"))]))).1
  = inl (Str (str "tok")).
Proof.
  apply (fetched_token_is_cached Examples.exampleToString 0 5 1000 1000
           (construct 0 3600000 Undefined)
           (Body (Int 200) (Str (str "OK")) (Obj [("accessToken"%string, Str (str "tok"))]))
           (RequestFails Examples.terminated) (Str (str "tok")) Undefined);
    reflexivity.
Defined.

Lemma reset_session_asks_again_witness :
  (resetSession Examples.exampleToString 10 15
     (construct 0 3600000 (Str (str "old")))
     (Body (Int 200) (Str (str "OK")) (Obj [("accessToken"%string, Str (str "tok"))]))).1
  = None /\
  refreshSession Examples.exampleToString 1000 1000
    (resetSession Examples.exampleToString 10 15
       (construct 0 3600000 (Str (str "old")))
       (Body (Int 200) (Str (str "OK"))
          (Obj [("accessToken"%string, Str (str "tok"))]))).2
    (RequestFails Examples.terminated)
  = (inl (Str (str "tok")),
     (resetSession Examples.exampleToString 10 15
        (construct 0 3600000 (Str (str "old")))
        (Body (Int 200) (Str (str "OK"))
           (Obj [("accessToken"%string, Str (str "tok"))]))).2).
Proof.
  apply (reset_session_asks_again Examples.exampleToString 10 15 1000 1000
           (construct 0 3600000 (Str (str "old")))
           (Body (Int 200) (Str (str "OK")) (Obj [("accessToken"%string, Str (str "tok"))]))
           (RequestFails Examples.terminated)).
  reflexivity.
Defined.

End ApiMore.

(** ** Waiting for a condition *)

Module WaitingFacts.
Import Js Waiting.

Lemma step_consistent w ev : consistent w -> consistent (step w ev).
Proof.
  unfold consistent. intros [H1 H2].
  destruct ev as [r| |[e|]]; cbn [step];
    repeat match goal with
           | |- context [if ?b then _ else _] => destruct b eqn:?
           end; cbn [resolved promise timer inFlight andb] in *;
    (split; [|try reflexivity; try assumption; auto using andb_false_r]);
    try (intros _; destruct (promise w); try destruct r; cbn; discriminate);
    repeat match goal with
           | H : ?x = _ |- context [?x] => rewrite H
           end;
    auto; try congruence.
Qed.

Lemma run_consistent events : forall w,
  consistent w -> consistent (fold_left step events w).
Proof.
  induction events as [|ev events IH]; intros w Hw; [exact Hw|].
  cbn [fold_left]. apply IH. now apply step_consistent.
Qed.

Lemma step_after_settled w ev :
  resolved w = true ->
  resolved (step w ev) = true /\ promise (step w ev) = promise w /\
  checks (step w ev) = checks w /\
  (timer w = false -> timer (step w ev) = false).
Proof.
  intros Hr. destruct ev as [r| |[e|]]; cbn [step]; rewrite ?Hr;
    repeat match goal with
           | |- context [if ?b then _ else _] => destruct b eqn:?
           end; cbn; auto.
Qed.

Lemma run_after_settled events : forall w,
  resolved w = true ->
  resolved (fold_left step events w) = true /\
  promise (fold_left step events w) = promise w /\
  checks (fold_left step events w) = checks w /\
  (timer w = false -> timer (fold_left step events w) = false).
Proof.
  induction events as [|ev events IH]; intros w Hw; [auto|].
  cbn [fold_left].
  destruct (step_after_settled w ev Hw) as (H1 & H2 & H3 & H4).
  destruct (IH _ H1) as (H5 & H6 & H7 & H8).
  repeat split; try congruence. auto.
Qed.

(** X29. Waiting for a condition settles once and then stops polling.
    Whatever the condition and the capacity checks do: the flag [resolved]
    is set only when the promise has settled, a capacity check is never
    under way while another call is scheduled, and once the flag is set the
    promise keeps its state, no capacity check is started any more and,
    when no call is scheduled, none is scheduled later. *)
Theorem waiting_settles_once (conditionThrows : option Error) (pre post : list Event) :
  consistent (run conditionThrows pre) /\
  (resolved (run conditionThrows pre) = true ->
   promise (run conditionThrows (pre ++ post)) = promise (run conditionThrows pre) /\
   checks (run conditionThrows (pre ++ post)) = checks (run conditionThrows pre) /\
   (timer (run conditionThrows pre) = false ->
    timer (run conditionThrows (pre ++ post)) = false)).
Proof.
  split.
  - apply run_consistent. destruct conditionThrows; split; cbn; auto; discriminate.
  - intros Hr. unfold run. rewrite fold_left_app.
    now destruct (run_after_settled post _ Hr) as (_ & H2 & H3 & H4).
Qed.

End WaitingFacts.
